(** * startracker.py: the capture / classify / solve / publish service

    A shallow embedding of [src/startracker/startracker.py]: the solver class
    [StarTracker], the D-Bus server class [StarTrackerServer], its worker
    thread [star_tracker] and its property getters.

    Python code is embedded as programs of a small free monad [prog]: a
    program either returns, raises a Python exception, or performs an effect
    and continues with the reply.  Effects are the accesses to the state the
    two threads share (the [threading.Lock], the attributes of the server
    object, the module global [STACK_LAYERS]) and the calls into libraries
    that are not part of the repository ([cv2], [numpy], [beast], [glob],
    [random], [time], [logging], the D-Bus signals).  Library calls are
    answered by an oracle; the Python semantics of the source's own
    statements (name lookup, attribute access on [None], tuple unpacking,
    division, power, the difference of two arrays, chained comparison,
    [continue]) is written out. *)

From Stdlib Require Import ZArith String List Bool Lia.
From Stdlib Require Import Floats.PrimFloat Floats.SpecFloat Floats.FloatOps.
From Stdlib Require Import Floats.FloatAxioms.
Import ListNotations.
Local Open Scope string_scope.

Set Implicit Arguments.

(** ** Python values *)

(** Exceptions the modelled statements can raise. *)
Inductive exn : Type :=
| NameError (name : string)
| UnboundLocalError (name : string)
| AttributeError (obj attribute : string)
| TypeError (msg : string)
| ValueError (msg : string)
| IndexError (msg : string)
| ZeroDivisionError (msg : string)
| OverflowError (msg : string)
| RuntimeError (msg : string).

(** A numpy array as [cv2.imread] returns it: its [shape] and its data. *)
Record ndarray : Type := { shape : list Z; pixels : list Z }.

(** The values that server attributes, globals and property results hold. *)
#[warnings="-register-all"]
Inductive pyval : Type :=
| VNone
| VBool (b : bool)
| VFloat (f : float)
| VStr (s : string)
| VModule (name : string)
| VObject (name : string)
| VTuple (items : list pyval).

(** Python floats are IEEE binary64 numbers: Rocq's primitive floats. *)
Definition float_of_Z (n : Z) : float :=
  SF2Prim (binary_normalize prec emax n 0 false).

(** [int(f)] truncates toward zero. *)
Definition trunc_float (f : float) : option Z :=
  match Prim2SF f with
  | S754_zero _ => Some 0%Z
  | S754_finite s m e =>
      let v := if (0 <=? e)%Z then (Z.pos m * 2 ^ e)%Z
               else (Z.pos m / 2 ^ (- e))%Z in
      Some (if s then (- v)%Z else v)
  | S754_infinity _ | S754_nan => None
  end.

(** [a == b] on the values above.  [bool] is a subtype of [int], so [True]
    compares equal to [1.0]. *)
Definition float_of_bool (b : bool) : float := if b then 1%float else 0%float.

Fixpoint py_eq (a b : pyval) : bool :=
  match a, b with
  | VNone, VNone => true
  | VBool x, VBool y => Bool.eqb x y
  | VBool x, VFloat y => PrimFloat.eqb (float_of_bool x) y
  | VFloat x, VBool y => PrimFloat.eqb x (float_of_bool y)
  | VFloat x, VFloat y => PrimFloat.eqb x y
  | VStr x, VStr y => String.eqb x y
  | VModule x, VModule y => String.eqb x y
  | VObject x, VObject y => String.eqb x y
  | VTuple xs, VTuple ys =>
      (fix all2 (xs : list pyval) (ys : list pyval) {struct xs} : bool :=
         match xs, ys with
         | [], [] => true
         | x :: xs', y :: ys' => py_eq x y && all2 xs' ys'
         | _, _ => false
         end) xs ys
  | _, _ => false
  end.

(** Truth value of an object, as [while] and [if] test it. *)
Definition py_truthy (v : pyval) : bool :=
  match v with
  | VNone => false
  | VBool b => b
  | VFloat f => negb (PrimFloat.eqb f 0%float)
  | VStr s => negb (String.eqb s "")
  | VTuple items => match items with [] => false | _ => true end
  | VModule _ | VObject _ => true
  end.

(** ** Objects of the libraries *)

(** A contour of [cv2.findContours]: its points. *)
Definition contour : Type := list (Z * Z).

(** The entries of the dictionary of [cv2.moments] that the solver reads. *)
Record moments : Type :=
  { m00 : float; m10 : float; m01 : float;
    m20 : float; m02 : float; m11 : float }.

(** [beast.star(x, y, flux, id)]. *)
Record star : Type :=
  { star_x : float; star_y : float; star_flux : float; star_id : Z }.

(** Handles of the engine's objects ([star_db], [star_query],
    [constellation_db]); [Results db] is [db.results]. *)
Inductive beast_obj : Type :=
| BeastObj (id : nat)
| Results (db : beast_obj).

(** What the solver reads from the value of [beast.db_match]: [p_match],
    [winner.size()], the first column of the rotation, and the angles that
    [winner.get_dec()], [winner.get_ra()] and [winner.get_ori()] return after
    [winner.calc_ori()]. *)
Record db_match : Type :=
  { p_match : float;
    winner_size : Z;
    winner_R11 : float; winner_R21 : float; winner_R31 : float;
    winner_get_dec : float; winner_get_ra : float; winner_get_ori : float }.

(** [beast.cvar]: the values [beast.load_config] reads from the calibration
    file. *)
Record beast_cvar : Type :=
  { REQUIRED_STARS : Z;
    MAX_FALSE_STARS : Z;
    DB_REDUNDANCY : Z;
    THRESH_FACTOR : float;
    IMAGE_VARIANCE : float;
    IMG_X : Z;
    IMG_Y : Z;
    MAXFOV : float }.

(** ** Effects *)

(** Calls into libraries outside the repository. *)
Inductive ext : Type -> Type :=
| py_print (line : string) : ext unit
| time_time : ext float
| time_sleep (secs : float) : ext unit
| glob_glob (pattern : string) : ext (list string)
| random_randbelow (n : nat) : ext nat
| cv2_imread (path : string) : ext (option ndarray)
| cv2_cvtColor (img : ndarray) (code : string) : ext ndarray
| cv2_threshold (img : ndarray) (thresh maxval : float)
  : ext (float * ndarray)
| cv2_countNonZero (img : ndarray) : ext Z
| cv2_Laplacian_var (img : ndarray) : ext float
| cv2_findContours (img : ndarray) (mode method : Z) : ext (list contour)
| cv2_moments (c : contour) : ext moments
| cv2_getRectSubPix (img : ndarray) (cx cy : float) : ext float
| np_clip_sub (img : ndarray) (median : option ndarray) : ext ndarray
| beast_load_config (path : string) : ext unit
| beast_star_db_load_catalog (path : string) (year : float) : ext beast_obj
| beast_star_query (db : beast_obj) : ext beast_obj
| beast_kdmask_filter_catalog (q : beast_obj) : ext unit
| beast_kdmask_uniform_density (q : beast_obj) (n : Z) : ext unit
| beast_from_kdmask (q : beast_obj) : ext (list star)
| beast_copy_n_brightest (stars : list star) (n : Z) : ext (list star)
| beast_constellation_db (stars : list star) (stars_per_fov from_image : Z)
  : ext beast_obj
| beast_db_match (db img_const : beast_obj) : ext db_match
| beast_kdsearch (q : beast_obj) (x y z r min_flux : float) : ext unit
| beast_from_kdresults (q : beast_obj) : ext (list star)
| beast_r_size (q : beast_obj) : ext Z
| beast_clear_kdresults (q : beast_obj) : ext unit
| logger_info (msg : string) : ext unit
| logger_warning (msg : string) : ext unit
| logger_error (msg : string) : ext unit
| PropertiesChanged (interface_name : string)
    (changed : list (string * pyval)) (invalidated : list string) : ext unit
| py_call (callee : pyval) (args : list pyval) : ext pyval
| str_format (template : string) (arg : pyval) : ext string.

(** Attributes of the [StarTrackerServer] instance that its threads share. *)
Inductive attr : Type :=
| self_dec | self_ra | self_ori | self_l_solve | self_t_solve
| self_p_solve | self_st_running.

Inductive eff : Type -> Type :=
| LockAcquire : eff unit                   (* self.st_lock.acquire() *)
| LockRelease : eff unit                   (* self.st_lock.release() *)
| GetAttr (a : attr) : eff pyval           (* self.a *)
| SetAttr (a : attr) (v : pyval) : eff unit  (* self.a = v *)
| GetStackLayers : eff Z                   (* STACK_LAYERS *)
| SetStackLayers (n : Z) : eff unit        (* STACK_LAYERS = n *)
| Ext {X : Type} (c : ext X) : eff X.

(** ** Programs *)

Inductive prog (A : Type) : Type :=
| Ret (a : A)
| Raise (e : exn)
| Vis {X : Type} (c : eff X) (k : X -> prog A).

Arguments Ret {A} a.
Arguments Raise {A} e.
Arguments Vis {A X} c k.

Fixpoint bind {A B : Type} (m : prog A) (f : A -> prog B) : prog B :=
  match m with
  | Ret a => f a
  | Raise e => Raise e
  | Vis c k => Vis c (fun x => bind (k x) f)
  end.

Definition perform {X : Type} (c : eff X) : prog X := Vis c (fun x => Ret x).
Definition call {X : Type} (c : ext X) : prog X := perform (Ext c).

Declare Scope prog_scope.
Delimit Scope prog_scope with prog.
Bind Scope prog_scope with prog.
Notation "x <- m ;; k" := (bind m (fun x => k))
  (at level 61, m at next level, right associativity) : prog_scope.
Notation "' pat <- m ;; k" := (bind m (fun x => match x with pat => k end))
  (at level 61, pat pattern, m at next level, right associativity) : prog_scope.
Notation "m ;; k" := (bind m (fun _ => k))
  (at level 61, right associativity) : prog_scope.
Local Open Scope prog_scope.

(** ** Module globals and name lookup *)

(** [DEBUG_ENABLED = True]. *)
Definition DEBUG_ENABLED : bool := true.

(** The names bound at module level by the imports, the assignments and the
    class statements of [startracker.py] (and by the [__main__] block).
    [STACK_LAYERS], the one global that functions rebind, is read and written
    through [GetStackLayers] and [SetStackLayers]. *)
Definition module_globals : list (string * pyval) :=
  [ ("sys", VModule "sys"); ("time", VModule "time");
    ("threading", VModule "threading"); ("glob", VModule "glob");
    ("random", VModule "random"); ("logging", VModule "logging");
    ("np", VModule "numpy"); ("cv2", VModule "cv2");
    ("signal", VObject "pydbus.generic.signal");
    ("SystemBus", VObject "pydbus.SystemBus");
    ("GLib", VModule "gi.repository.GLib");
    ("journal", VModule "systemd.journal");
    ("beast", VModule "beast");
    ("logger", VObject "logging.Logger");
    ("journald_handler", VObject "journal.JournalHandler");
    ("DEBUG_ENABLED", VBool DEBUG_ENABLED);
    ("StarTracker", VObject "class StarTracker");
    ("StarTrackerServer", VObject "class StarTrackerServer");
    ("server", VObject "StarTrackerServer instance");
    ("db_root", VStr "/usr/share/oresat-star-tracker/data/");
    ("data_root", VStr "/usr/share/oresat-star-tracker/data/downsample/") ].

(** The builtins the module calls by name. *)
Definition builtins : list string := ["print"; "int"; "float"].

(** A name that a function never assigns is looked up in the module globals,
    then in the builtins; a name bound in neither raises [NameError].  Names
    bound in a class body ([error], [PropertiesChanged], [dbus]) are
    attributes of the class, not globals. *)
Definition load_global (name : string) : prog pyval :=
  match find (fun b => String.eqb (fst b) name) module_globals with
  | Some (_, v) => Ret v
  | None =>
      if existsb (String.eqb name) builtins then Ret (VObject name)
      else Raise (NameError name)
  end.

(** A local variable read before its first assignment raises
    [UnboundLocalError]; [slot] is the variable's value, if any. *)
Definition load_fast (name : string) (slot : option pyval) : prog pyval :=
  match slot with
  | Some v => Ret v
  | None => Raise (UnboundLocalError name)
  end.

(** [n * ' '] *)
Definition spaces (n : Z) : string :=
  String.concat "" (repeat " " (Z.to_nat n)).

(** The trace prologue of every method:
<<
  if(DEBUG_ENABLED):
      global STACK_LAYERS
      print(f"{STACK_LAYERS * ' '}Inside ...")
      STACK_LAYERS = STACK_LAYERS + 1
>> *)
Definition debug_inside (method : string) : prog unit :=
  if DEBUG_ENABLED then
    n <- perform GetStackLayers ;;
    call (py_print (spaces n ++ "Inside " ++ method)) ;;
    n <- perform GetStackLayers ;;
    perform (SetStackLayers (n + 1))
  else Ret tt.

(** The trace epilogue:
<<
  if(DEBUG_ENABLED):
      STACK_LAYERS = STACK_LAYERS - 1
      print(f"{STACK_LAYERS * ' '}End ...")
>> *)
Definition debug_end (method : string) : prog unit :=
  if DEBUG_ENABLED then
    n <- perform GetStackLayers ;;
    perform (SetStackLayers (n - 1)) ;;
    n <- perform GetStackLayers ;;
    call (py_print (spaces n ++ "End " ++ method))
  else Ret tt.

(** [a / b] on floats raises when [b] is zero. *)
Definition py_truediv (a b : float) : prog float :=
  if PrimFloat.eqb b 0%float then Raise (ZeroDivisionError "float division by zero")
  else Ret (a / b)%float.

(** [int(f)] *)
Definition py_int (f : float) : prog Z :=
  match Prim2SF f with
  | S754_infinity _ =>
      Raise (OverflowError "cannot convert float infinity to integer")
  | S754_nan => Raise (ValueError "cannot convert float NaN to integer")
  | _ => match trunc_float f with Some z => Ret z | None => Ret 0%Z end
  end.

(** [x ** 2] on a float raises when the power of a finite number
    overflows. *)
Definition py_square (x : float) : prog float :=
  if PrimFloat.is_finite x && PrimFloat.is_infinity (x * x) then
    Raise (OverflowError "(34, 'Numerical result out of range')")
  else Ret (x * x)%float.

(** ** Arithmetic on arrays *)

(** The number of elements of an array. *)
Definition np_size (a : ndarray) : Z := fold_right Z.mul 1%Z (shape a).

(** numpy lines two shapes up at their last dimension: two dimensions fit
    when they are equal or one of them is 1, and a shape that is shorter is
    completed with the other's leading dimensions.  [broadcast_dims] takes
    the dimensions last first. *)
Fixpoint broadcast_dims (a b : list Z) : option (list Z) :=
  match a, b with
  | [], _ => Some b
  | _, [] => Some a
  | x :: a', y :: b' =>
      match broadcast_dims a' b' with
      | Some rest =>
          if (x =? y)%Z || (y =? 1)%Z then Some (x :: rest)
          else if (x =? 1)%Z then Some (y :: rest)
          else None
      | None => None
      end
  end.

Definition broadcast_shapes (a b : list Z) : option (list Z) :=
  option_map (@rev Z) (broadcast_dims (rev a) (rev b)).

(** [a - b] where [a] is an array of integers and [b] is an array or
    [None]: the elements of [a] cannot be subtracted from [None] (an array
    without elements has none to subtract), and two arrays must have shapes
    that fit. *)
Definition np_subtract (a : ndarray) (b : option ndarray) : prog unit :=
  match b with
  | None =>
      if (np_size a =? 0)%Z then Ret tt
      else
        Raise (TypeError
                 "unsupported operand type(s) for -: 'int' and 'NoneType'")
  | Some b' =>
      match broadcast_shapes (shape a) (shape b') with
      | Some _ => Ret tt
      | None => Raise (ValueError "operands could not be broadcast together")
      end
  end.

(** ** class StarTracker *)

(** The instance attributes that [__init__] creates and [startup] fills. *)
Record StarTracker : Type :=
  { P_MATCH_THRESH : float;
    YEAR : float;
    SAMPLE_DIR : option string;
    MEDIAN_IMAGE : option ndarray;
    S_DB : option beast_obj;
    SQ_RESULTS : option beast_obj;
    S_FILTERED : option (list star);
    C_DB : option beast_obj }.

#[warnings="-inexact-float"]
Definition StarTracker_init : StarTracker :=
  {| P_MATCH_THRESH := 0.99%float;
     YEAR := 1991.25%float;
     SAMPLE_DIR := None;
     MEDIAN_IMAGE := None;
     S_DB := None;
     SQ_RESULTS := None;
     S_FILTERED := None;
     C_DB := None |}.

(** An engine object that is still [None] has no methods, and the engine
    matches nothing against it: the call ends in an exception. *)
Definition engine_obj (o : option beast_obj) (method : string)
  : prog beast_obj :=
  match o with
  | Some h => Ret h
  | None => Raise (AttributeError "NoneType" method)
  end.

Section Solver.

Variable cvar : beast_cvar.

Definition startup (self : StarTracker)
    (median_path config_path db_path : string) (sample_dir : option string)
  : prog StarTracker :=
  debug_inside "StarTracker.startup" ;;
  call (logger_info "Beginning startup sequence...") ;;
  median <- call (cv2_imread median_path) ;;
  call (logger_info ("Loaded median image from " ++ median_path)) ;;
  call (beast_load_config config_path) ;;
  call (logger_info ("Loaded configuration from " ++ config_path)) ;;
  s_db <- call (beast_star_db_load_catalog db_path (YEAR self)) ;;
  call (logger_info ("Loaded star database from " ++ db_path)) ;;
  sq_results <- call (beast_star_query s_db) ;;
  call (beast_kdmask_filter_catalog sq_results) ;;
  call (beast_kdmask_uniform_density sq_results (REQUIRED_STARS cvar)) ;;
  s_filtered <- call (beast_from_kdmask sq_results) ;;
  call (logger_info "Filtered stars") ;;
  c_db <- call (beast_constellation_db s_filtered
                  (2 + DB_REDUNDANCY cvar) 0) ;;
  call (logger_info "Startup sequence complete!") ;;
  debug_end "StarTracker.startup" ;;
  Ret {| P_MATCH_THRESH := P_MATCH_THRESH self;
         YEAR := YEAR self;
         SAMPLE_DIR := sample_dir;
         MEDIAN_IMAGE := median;
         S_DB := Some s_db;
         SQ_RESULTS := Some sq_results;
         S_FILTERED := Some s_filtered;
         C_DB := Some c_db |}.

(** [random.choice(seq)]: [IndexError] on an empty sequence, else the element
    at the index the generator draws below [len(seq)]. *)
Definition random_choice (seq : list string) : prog string :=
  match seq with
  | [] => Raise (IndexError "Cannot choose from an empty sequence")
  | first :: _ =>
      i <- call (random_randbelow (length seq)) ;;
      Ret (nth (i mod length seq) seq first)
  end.

(** [capture]: a random file of the sample directory, or [None, None]. *)
Definition capture (self : StarTracker) : prog (pyval * option ndarray) :=
  debug_inside "StarTracker.capture" ;;
  match SAMPLE_DIR self with
  | Some sample_dir =>
      paths <- call (glob_glob (sample_dir ++ "*")) ;;
      path <- random_choice paths ;;
      debug_end "StarTracker.capture" ;;
      img <- call (cv2_imread path) ;;
      Ret (VStr path, img)
  | None =>
      debug_end "StarTracker.capture" ;;
      Ret (VNone, None)
  end.

(** [height, width, channels = img.shape] *)
Definition unpack_shape (img : option ndarray) : prog (ndarray * Z * Z * Z) :=
  match img with
  | None => Raise (AttributeError "NoneType" "shape")
  | Some arr =>
      match shape arr with
      | [height; width; channels] => Ret (arr, height, width, channels)
      | [] | [_] | [_; _] =>
          Raise (ValueError "not enough values to unpack (expected 3)")
      | _ => Raise (ValueError "too many values to unpack (expected 3)")
      end
  end.

(** The calibration bounds on the fraction of dark pixels. *)
#[warnings="-inexact-float"]
Definition blur_fraction : float := 0.99996744%float.

#[warnings="-inexact-float"]
Definition too_many_fraction : float := 0.99918619%float.

(** [preprocess]: is the image worth solving?  The early [return]s of the
    dark and of the bright branch leave before the trace epilogue; the
    [return 1] after the inner [if]/[else] cannot be reached.  The calls of
    [cv2] are the library's: what it makes of an array that is not a frame
    as [cv2.imread] returns it is not modelled. *)
Definition preprocess (self : StarTracker) (img : option ndarray)
  : prog string :=
  debug_inside "StarTracker.preprocess" ;;
  '(img, height, width, channels) <- unpack_shape img ;;
  let total_pixels := (height * width)%Z in
  blur_check <- py_int (float_of_Z total_pixels * blur_fraction)%float ;;
  too_many_check <-
    py_int (float_of_Z total_pixels * too_many_fraction)%float ;;
  img <- call (cv2_cvtColor img "COLOR_RGB2GRAY") ;;
  '(ret, threshold) <- call (cv2_threshold img 80 255) ;;
  nonzero <- call (cv2_countNonZero threshold) ;;
  let threshold_black := (total_pixels - nonzero)%Z in
  if (threshold_black >? blur_check)%Z then
    blur <- call (cv2_Laplacian_var img) ;;
    if negb (PrimFloat.eqb blur 0) && PrimFloat.ltb blur 5 then
      Ret "image too blurry"
    else
      Ret "image contains too few stars"
  else if (threshold_black <? too_many_check)%Z then
    Ret "unsuitable image"
  else
    debug_end "StarTracker.preprocess" ;;
    Ret "good".

(** [orig_img.astype(np.int16)]: [None] has no [astype]. *)
Definition astype (orig_img : option ndarray) : prog ndarray :=
  match orig_img with
  | Some arr => Ret arr
  | None => Raise (AttributeError "NoneType" "astype")
  end.

(** The loop over the contours.  The second-order central moments [u20],
    [u02], [u11] are computed and never used; the powers [cx ** 2] and
    [cy ** 2] in them can overflow. *)
Fixpoint process_contours (img_grey : ndarray) (contours : list contour)
    (img_stars : list star) : prog (list star) :=
  match contours with
  | [] => Ret img_stars
  | c :: contours' =>
      M <- call (cv2_moments c) ;;
      if PrimFloat.ltb 0 (m00 M) then
        cx <- py_truediv (m10 M) (m00 M) ;;
        cy <- py_truediv (m01 M) (m00 M) ;;
        q20 <- py_truediv (m20 M) (m00 M) ;;
        cx2 <- py_square cx ;;
        let u20 := (q20 - cx2)%float in
        q02 <- py_truediv (m02 M) (m00 M) ;;
        cy2 <- py_square cy ;;
        let u02 := (q02 - cy2)%float in
        q11 <- py_truediv (m11 M) (m00 M) ;;
        let u11 := (q11 - cx * cy)%float in
        flux <- call (cv2_getRectSubPix img_grey cx cy) ;;
        process_contours img_grey contours'
          (img_stars ++
           [ {| star_x := (cx - float_of_Z (IMG_X cvar) / 2)%float;
                star_y := (cy - float_of_Z (IMG_Y cvar) / 2)%float;
                star_flux := flux;
                star_id := (-1)%Z |} ])
      else
        process_contours img_grey contours' img_stars
  end.

(** The acceptance bars of the two matching stages:
    [lis.p_match > self.P_MATCH_THRESH and
     lis.winner.size() >= beast.cvar.REQUIRED_STARS] and
    [near.p_match > self.P_MATCH_THRESH]. *)
Definition accepts_coarse (self : StarTracker) (lis : db_match) : bool :=
  PrimFloat.ltb (P_MATCH_THRESH self) (p_match lis)
  && (REQUIRED_STARS cvar <=? winner_size lis)%Z.

Definition accepts_refined (self : StarTracker) (near : db_match) : bool :=
  PrimFloat.ltb (P_MATCH_THRESH self) (p_match near).

(** [solve]: [(dec, ra, ori, time)].  The difference of the frame and the
    median image is checked as numpy checks it ([np_subtract]); its values,
    clipped and converted, are the library's ([np_clip_sub]). *)
Definition solve (self : StarTracker) (orig_img : option ndarray)
  : prog (float * float * float * pyval) :=
  debug_inside "StarTracker.solve" ;;
  starttime <- call time_time ;;
  orig <- astype orig_img ;;
  np_subtract orig (MEDIAN_IMAGE self) ;;
  img <- call (np_clip_sub orig (MEDIAN_IMAGE self)) ;;
  img_grey <- call (cv2_cvtColor img "COLOR_RGB2GRAY") ;;
  let min_flux := (THRESH_FACTOR cvar * IMAGE_VARIANCE cvar)%float in
  '(ret, thresh) <- call (cv2_threshold img_grey min_flux 255) ;;
  contours <- call (cv2_findContours thresh 1 2) ;;
  img_stars <- process_contours img_grey contours [] ;;
  img_stars_n_brightest <-
    call (beast_copy_n_brightest img_stars
            (MAX_FALSE_STARS cvar + REQUIRED_STARS cvar)) ;;
  img_const_n_brightest <-
    call (beast_constellation_db img_stars_n_brightest
            (MAX_FALSE_STARS cvar + 2) 1) ;;
  c_db <- engine_obj (C_DB self) "db_match" ;;
  lis <- call (beast_db_match c_db img_const_n_brightest) ;;
  match_ <-
    (if accepts_coarse self lis then
       let x := winner_R11 lis in
       let y := winner_R21 lis in
       let z := winner_R31 lis in
       let r := (MAXFOV cvar / 2)%float in
       sq_results <- engine_obj (SQ_RESULTS self) "kdsearch" ;;
       call (beast_kdsearch sq_results x y z r min_flux) ;;
       call (beast_kdsearch (Results c_db) x y z r min_flux) ;;
       fov_stars <- call (beast_from_kdresults sq_results) ;;
       r_size <- call (beast_r_size (Results c_db)) ;;
       fov_db <- call (beast_constellation_db fov_stars r_size 1) ;;
       call (beast_clear_kdresults (Results c_db)) ;;
       call (beast_clear_kdresults sq_results) ;;
       img_const <- call (beast_constellation_db img_stars
                            (MAX_FALSE_STARS cvar + 2) 1) ;;
       near <- call (beast_db_match fov_db img_const) ;;
       if accepts_refined self near then Ret (Some near) else Ret None
     else Ret None) ;;
  '(dec, ra, ori) <-
    match match_ with
    | Some m =>
        Ret (winner_get_dec m, winner_get_ra m, winner_get_ori m)
    | None => Ret (0%float, 0%float, 0%float)
    end ;;
  endtime <- call time_time ;;
  let runtime := (endtime - starttime)%float in
  debug_end "StarTracker.solve" ;;
  time <- load_global "time" ;;
  Ret (dec, ra, ori, time).

(** [modify]: camera control, a stub that returns 0. *)
Definition modify (self : StarTracker) (mod_string : string) : prog Z :=
  debug_inside "StarTracker.modify" ;;
  debug_end "StarTracker.modify" ;;
  Ret 0%Z.

(** [error]: the corrective action for a verdict. *)
Definition error (self : StarTracker) (err_string : string) : prog Z :=
  debug_inside "StarTracker.error" ;;
  (if err_string =? "image too blurry" then
     modify self "more sharp" ;; Ret tt
   else if err_string =? "image contains too few stars" then
     modify self "increase gain" ;; Ret tt
   else Ret tt) ;;
  debug_end "StarTracker.error" ;;
  Ret 0%Z.

End Solver.

(** ** class StarTrackerServer *)

(** The attributes of the server instance that [__init__] creates and that
    the worker thread and the property getters share. *)
Record StarTrackerServer : Type :=
  { dec : pyval;
    ra : pyval;
    ori : pyval;
    l_solve : pyval;
    t_solve : pyval;
    p_solve : pyval;
    st_running : pyval }.

Definition StarTrackerServer_init : StarTrackerServer :=
  {| dec := VFloat 0;
     ra := VFloat 0;
     ori := VFloat 0;
     l_solve := VFloat 0;
     t_solve := VFloat 0;
     p_solve := VStr "";
     st_running := VBool true |}.

Definition interface_name : string := "org.OreSat.StarTracker".

Definition get_attr (s : StarTrackerServer) (a : attr) : pyval :=
  match a with
  | self_dec => dec s
  | self_ra => ra s
  | self_ori => ori s
  | self_l_solve => l_solve s
  | self_t_solve => t_solve s
  | self_p_solve => p_solve s
  | self_st_running => st_running s
  end.

Definition set_attr (s : StarTrackerServer) (a : attr) (v : pyval)
  : StarTrackerServer :=
  match a with
  | self_dec =>
      {| dec := v; ra := ra s; ori := ori s; l_solve := l_solve s;
         t_solve := t_solve s; p_solve := p_solve s;
         st_running := st_running s |}
  | self_ra =>
      {| dec := dec s; ra := v; ori := ori s; l_solve := l_solve s;
         t_solve := t_solve s; p_solve := p_solve s;
         st_running := st_running s |}
  | self_ori =>
      {| dec := dec s; ra := ra s; ori := v; l_solve := l_solve s;
         t_solve := t_solve s; p_solve := p_solve s;
         st_running := st_running s |}
  | self_l_solve =>
      {| dec := dec s; ra := ra s; ori := ori s; l_solve := v;
         t_solve := t_solve s; p_solve := p_solve s;
         st_running := st_running s |}
  | self_t_solve =>
      {| dec := dec s; ra := ra s; ori := ori s; l_solve := l_solve s;
         t_solve := v; p_solve := p_solve s;
         st_running := st_running s |}
  | self_p_solve =>
      {| dec := dec s; ra := ra s; ori := ori s; l_solve := l_solve s;
         t_solve := t_solve s; p_solve := v;
         st_running := st_running s |}
  | self_st_running =>
      {| dec := dec s; ra := ra s; ori := ori s; l_solve := l_solve s;
         t_solve := t_solve s; p_solve := p_solve s;
         st_running := v |}
  end.

(** [self.dec == self.ra == self.ori == 0.0]: the chained comparison reads
    each operand once, left to right, and stops at the first false link. *)
Definition all_zero_test : prog bool :=
  d <- perform (GetAttr self_dec) ;;
  r <- perform (GetAttr self_ra) ;;
  if py_eq d r then
    o <- perform (GetAttr self_ori) ;;
    if py_eq r o then Ret (py_eq o (VFloat 0)) else Ret false
  else Ret false.

Section Server.

Variable cvar : beast_cvar.
Variable st : StarTracker.    (* self.st *)

(** The second half of a pass (the statements after [self.st.solve(img)]
    has returned): store the result, test it against the all-zero triple,
    and either report a bad solve or publish. *)
#[warnings="-inexact-float"]
Definition store_solution (solution : float * float * float * pyval)
  : prog unit :=
  let '(dec, ra, ori, l_solve) := solution in
  perform (SetAttr self_dec (VFloat dec)) ;;
  perform (SetAttr self_ra (VFloat ra)) ;;
  perform (SetAttr self_ori (VFloat ori)) ;;
  perform (SetAttr self_l_solve l_solve) ;;
  bad <- all_zero_test ;;
  if bad : bool then
    error st "bad solve" ;;
    p_solve <- load_global "p_solve" ;;
    for_ <- call (str_format "bad solve (for {})" p_solve) ;;
    call (logger_error for_) ;;
    error <- load_global "error" ;;
    call (py_call error [VStr "bad solve"]) ;;
    call (time_sleep 0.5) ;;
    Ret tt
  else
    now <- call time_time ;;
    perform (SetAttr self_t_solve (VFloat now)) ;;
    perform LockRelease ;;
    p_solve <- perform (GetAttr self_p_solve) ;;
    call (PropertiesChanged interface_name [("filepath", p_solve)] []) ;;
    call (time_sleep 0.5).

(** The first half of a handled verdict: the frame is not worth solving. *)
#[warnings="-inexact-float"]
Definition reject_frame (check : string) : prog unit :=
  error st check ;;
  p_solve <- load_global "p_solve" ;;
  for_ <- call (str_format "(for {})" p_solve) ;;
  call (logger_warning (check ++ for_)) ;;
  error <- load_global "error" ;;
  call (py_call error [VStr check]) ;;
  call (time_sleep 0.5) ;;
  Ret tt.

(** One pass through the body of [while (self.st_running)].  A [continue]
    ends the pass: the statements after it are the [else] branch. *)
Definition star_tracker_pass : prog unit :=
  perform LockAcquire ;;
  '(path, img) <- capture st ;;
  perform (SetAttr self_p_solve path) ;;
  check <- preprocess st img ;;
  if negb (check =? "good") then
    reject_frame check
  else
    solution <- solve cvar st img ;;
    store_solution solution.

(** How a bounded run of the loop ends. *)
Inductive loop_exit : Type := Stopped | OutOfFuel.

(** [while (self.st_running): ...], for at most [fuel] passes. *)
Fixpoint while_st_running (fuel : nat) : prog loop_exit :=
  match fuel with
  | O => Ret OutOfFuel
  | S fuel' =>
      running <- perform (GetAttr self_st_running) ;;
      if py_truthy running then
        star_tracker_pass ;; while_st_running fuel'
      else Ret Stopped
  end.

(** [star_tracker]: the worker thread. *)
Definition star_tracker (fuel : nat) : prog loop_exit :=
  debug_inside "Server.star_tracker" ;;
  r <- while_st_running fuel ;;
  match r with
  | Stopped => debug_end "Server.star_tracker" ;; Ret Stopped
  | OutOfFuel => Ret OutOfFuel
  end.

End Server.

(** [end]: ask the worker to stop.  The wait for the worker that follows
    the store ([is_alive], [join]) is not modelled: the request returns
    without it. *)
Definition server_end : prog pyval :=
  debug_inside "Server.end" ;;
  perform (SetAttr self_st_running (VBool false)) ;;
  debug_end "Server.end" ;;
  Ret VNone.

(** The property [coor]. *)
Definition coor : prog pyval :=
  perform LockAcquire ;;
  dec <- perform (GetAttr self_dec) ;;
  ra <- perform (GetAttr self_ra) ;;
  ori <- perform (GetAttr self_ori) ;;
  t_solve <- perform (GetAttr self_t_solve) ;;
  perform LockRelease ;;
  Ret (VTuple [dec; ra; ori; t_solve]).

(** The property [filepath]. *)
Definition filepath : prog pyval :=
  perform LockAcquire ;;
  p_solve <- perform (GetAttr self_p_solve) ;;
  perform LockRelease ;;
  Ret p_solve.

(** The property [last_solve].  [p_solve = p_solve] makes [p_solve] a local
    of the getter and reads it before it is assigned. *)
Definition last_solve : prog pyval :=
  perform LockAcquire ;;
  p_solve <- load_fast "p_solve" None ;;
  dec <- perform (GetAttr self_dec) ;;
  ra <- perform (GetAttr self_ra) ;;
  ori <- perform (GetAttr self_ori) ;;
  t_solve <- perform (GetAttr self_t_solve) ;;
  perform LockRelease ;;
  Ret (VTuple [dec; ra; ori; t_solve; p_solve]).

(** ** Running programs *)

(** The threads: the worker that runs [star_tracker], and the clients of the
    D-Bus interface (a call of a property getter, or of [end]). *)
Inductive tid : Type :=
| Worker
| Client (i : nat).

(** An effect that a thread has performed, with its reply. *)
Inductive event : Type :=
| Ev (t : tid) {X : Type} (c : eff X) (x : X).

(** The state the threads share: the server object, the holder of
    [st_lock] ([None] when it is unlocked), the global [STACK_LAYERS]; and,
    for the run, the number of library calls answered and the events so far,
    latest first. *)
Record world : Type :=
  { server : StarTrackerServer;
    st_lock : option tid;
    STACK_LAYERS : Z;
    ticks : nat;
    trace : list event }.

Definition world_init : world :=
  {| server := StarTrackerServer_init;
     st_lock := None;
     STACK_LAYERS := 0;
     ticks := 0;
     trace := [] |}.

(** The libraries: the reply to a call, given how many calls came before. *)
Definition oracle : Type := forall X : Type, ext X -> nat -> X.

Inductive reply (X : Type) : Type :=
| Ok (x : X) (w : world)
| Blocks
| Throws (e : exn).

Arguments Blocks {X}.
Arguments Throws {X} e.

(** The effect of [c] on the shared state, and its reply. *)
Definition effect_of (env : oracle) (t : tid) {X : Type} (c : eff X)
    (w : world) : X * world :=
  match c in eff X0 return X0 * world with
  | LockAcquire =>
      (tt, {| server := server w; st_lock := Some t;
              STACK_LAYERS := STACK_LAYERS w; ticks := ticks w;
              trace := trace w |})
  | LockRelease =>
      (tt, {| server := server w; st_lock := None;
              STACK_LAYERS := STACK_LAYERS w; ticks := ticks w;
              trace := trace w |})
  | GetAttr a => (get_attr (server w) a, w)
  | SetAttr a v =>
      (tt, {| server := set_attr (server w) a v; st_lock := st_lock w;
              STACK_LAYERS := STACK_LAYERS w; ticks := ticks w;
              trace := trace w |})
  | GetStackLayers => (STACK_LAYERS w, w)
  | SetStackLayers n =>
      (tt, {| server := server w; st_lock := st_lock w;
              STACK_LAYERS := n; ticks := ticks w;
              trace := trace w |})
  | Ext call =>
      (env _ call (ticks w),
       {| server := server w; st_lock := st_lock w;
          STACK_LAYERS := STACK_LAYERS w; ticks := S (ticks w);
          trace := trace w |})
  end.

(** Can [c] be performed now?  [acquire] blocks while the lock is held, by
    whichever thread; [release] raises on an unlocked lock (and unlocks a
    lock that any thread holds). *)
Definition guard {X : Type} (c : eff X) (w : world) : option (option exn) :=
  match c with
  | LockAcquire =>
      match st_lock w with None => None | Some _ => Some None end
  | LockRelease =>
      match st_lock w with
      | Some _ => None
      | None => Some (Some (RuntimeError "release unlocked lock"))
      end
  | _ => None
  end.

Definition log (t : tid) {X : Type} (c : eff X) (x : X) (w : world) : world :=
  {| server := server w; st_lock := st_lock w;
     STACK_LAYERS := STACK_LAYERS w; ticks := ticks w;
     trace := Ev t c x :: trace w |}.

(** One effect of thread [t]. *)
Definition handle (env : oracle) (t : tid) {X : Type} (c : eff X) (w : world)
  : reply X :=
  match guard c w with
  | Some None => Blocks
  | Some (Some e) => Throws e
  | None => let (x, w') := effect_of env t c w in Ok x (log t c x w')
  end.

(** How the run of a program by one thread, left alone, ends. *)
Inductive outcome (A : Type) : Type :=
| Done (a : A)
| Raised (e : exn)
| Blocked.

Arguments Raised {A} e.
Arguments Blocked {A}.

Fixpoint run (env : oracle) (t : tid) {A : Type} (p : prog A) (w : world)
  : outcome A * world :=
  match p with
  | Ret a => (Done a, w)
  | Raise e => (Raised e, w)
  | Vis c k =>
      match handle env t c w with
      | Ok x w' => run env t (k x) w'
      | Blocks => (Blocked, w)
      | Throws e => (Raised e, w)
      end
  end.

(** The events of a run, oldest first. *)
Definition history (w : world) : list event := rev (trace w).

(** ** Scenarios

    Concrete libraries and configurations, to run the programs on. *)

Module Scenario.

(** A 2 x 2 colour frame. *)
Definition frame : ndarray :=
  {| shape := [2; 2; 3]%Z; pixels := repeat 0%Z 12 |}.

Definition cvar : beast_cvar :=
  {| REQUIRED_STARS := 5; MAX_FALSE_STARS := 2; DB_REDUNDANCY := 1;
     THRESH_FACTOR := 5; IMAGE_VARIANCE := 10;
     IMG_X := 2; IMG_Y := 2; MAXFOV := 20 |}.

(** The solver after [startup], playing back the directory [/samples/]. *)
Definition playback : StarTracker :=
  {| P_MATCH_THRESH := P_MATCH_THRESH StarTracker_init;
     YEAR := YEAR StarTracker_init;
     SAMPLE_DIR := Some "/samples/";
     MEDIAN_IMAGE := Some frame;
     S_DB := Some (BeastObj 0);
     SQ_RESULTS := Some (BeastObj 1);
     S_FILTERED := Some [];
     C_DB := Some (BeastObj 2) |}.

(** The solver after [startup] without a sample directory. *)
Definition live : StarTracker :=
  {| P_MATCH_THRESH := P_MATCH_THRESH StarTracker_init;
     YEAR := YEAR StarTracker_init;
     SAMPLE_DIR := None;
     MEDIAN_IMAGE := Some frame;
     S_DB := Some (BeastObj 0);
     SQ_RESULTS := Some (BeastObj 1);
     S_FILTERED := Some [];
     C_DB := Some (BeastObj 2) |}.

(** A match of the engine with confidence [p] on [n] stars and the angles
    [d], [r], [o]. *)
Definition a_match (p : float) (n : Z) (d r o : float) : db_match :=
  {| p_match := p; winner_size := n;
     winner_R11 := 1; winner_R21 := 0; winner_R31 := 0;
     winner_get_dec := d; winner_get_ra := r; winner_get_ori := o |}.

(** Libraries for a sample directory with the one file [/samples/a.png]:
    [nonzero] is the number of pixels that [cv2.countNonZero] finds above the
    cutoff, [blur] the variance of the Laplacian, [contours] what
    [cv2.findContours] finds (each of area 1 at the origin), and [coarse],
    [refined] the replies of [beast.db_match] against the whole sky and
    against the field of view. *)
Definition libraries (nonzero : Z) (blur : float) (contours : list contour)
    (coarse refined : db_match) : oracle :=
  fun X (c : ext X) (n : nat) =>
    match c in ext X0 return X0 with
    | py_print _ => tt
    | time_time => float_of_Z (Z.of_nat n)
    | time_sleep _ => tt
    | glob_glob _ => ["/samples/a.png"]
    | random_randbelow _ => n
    | cv2_imread _ => Some frame
    | cv2_cvtColor img _ => img
    | cv2_threshold img t _ => (t, img)
    | cv2_countNonZero _ => nonzero
    | cv2_Laplacian_var _ => blur
    | cv2_findContours _ _ _ => contours
    | cv2_moments _ =>
        {| m00 := 1; m10 := 0; m01 := 0; m20 := 0; m02 := 0; m11 := 0 |}
    | cv2_getRectSubPix _ _ _ => 200%float
    | np_clip_sub img _ => img
    | beast_load_config _ => tt
    | beast_star_db_load_catalog _ _ => BeastObj 0
    | beast_star_query _ => BeastObj 1
    | beast_kdmask_filter_catalog _ => tt
    | beast_kdmask_uniform_density _ _ => tt
    | beast_from_kdmask _ => []
    | beast_copy_n_brightest stars _ => stars
    | beast_constellation_db _ _ from_image =>
        if (from_image =? 0)%Z then BeastObj 2 else BeastObj (3 + n)
    | beast_db_match db _ =>
        match db with BeastObj 2 => coarse | _ => refined end
    | beast_kdsearch _ _ _ _ _ _ => tt
    | beast_from_kdresults _ => []
    | beast_r_size _ => 4%Z
    | beast_clear_kdresults _ => tt
    | logger_info _ => tt
    | logger_warning _ => tt
    | logger_error _ => tt
    | PropertiesChanged _ _ _ => tt
    | py_call _ _ => VNone
    | str_format template _ => template
    end.

#[warnings="-inexact-float"]
Definition sure : float := 0.999%float.

(** A frame with three of four pixels dark, and a sky the engine knows. *)
#[warnings="-inexact-float"]
Definition clear_sky : oracle :=
  libraries 1 100 [[(0, 0)%Z]; [(1, 1)%Z]]
    (a_match sure 6 0.25 1.5 0.125) (a_match sure 6 0.25 1.5 0.125).

(** A dark frame of zero variance. *)
Definition lens_cap : oracle :=
  libraries 0 0 [] (a_match 0 0 0 0 0) (a_match 0 0 0 0 0).

(** A frame with every pixel above the cutoff. *)
Definition daylight : oracle :=
  libraries 4 100 [] (a_match 0 0 0 0 0) (a_match 0 0 0 0 0).

(** A good frame on which the coarse match fails. *)
Definition unknown_sky : oracle :=
  libraries 1 100 [[(0, 0)%Z]] (a_match 0.5 6 0.25 1.5 0.125)
    (a_match sure 6 0.25 1.5 0.125).

(** A good frame on which the coarse match is accepted and the refined one
    is not. *)
Definition unconfirmed_sky : oracle :=
  libraries 1 100 [[(0, 0)%Z]] (a_match sure 6 0.25 1.5 0.125)
    (a_match 0.5 6 0.25 1.5 0.125).

(** A good frame that both stages match, at declination, right ascension
    and orientation zero. *)
Definition origin_sky : oracle :=
  libraries 1 100 [[(0, 0)%Z]] (a_match sure 6 0 0 0) (a_match sure 6 0 0 0).

End Scenario.

(** * The vocabulary of the properties *)

Local Open Scope list_scope.

(** ** What a program may do

    [emits P p]: every effect on every path of [p] satisfies [P]. *)

Section Emits.

Variable P : forall X : Type, eff X -> bool.

Fixpoint emits {A : Type} (p : prog A) : Prop :=
  match p with
  | Ret _ | Raise _ => True
  | Vis c k => P c = true /\ forall x, emits (k x)
  end.

Definition event_ok (e : event) : Prop :=
  match e with Ev _ c _ => P c = true end.

End Emits.

(** [total p]: no path of [p] raises. *)
Fixpoint total {A : Type} (p : prog A) : Prop :=
  match p with
  | Ret _ => True
  | Raise _ => False
  | Vis c k => forall x, total (k x)
  end.

(** Effects that touch neither the lock nor the server object. *)
Definition local_eff (X : Type) (c : eff X) : bool :=
  match c with
  | GetStackLayers | SetStackLayers _ | Ext _ => true
  | _ => false
  end.

Definition local {A : Type} (p : prog A) : Prop := emits local_eff p.

(** ** The solver's methods keep to themselves

    [quiet] effects: the trace counter and the libraries, except for the
    sleep, the D-Bus notification and the call of a looked-up global. *)
Definition quiet (X : Type) (c : eff X) : bool :=
  match c with
  | GetStackLayers | SetStackLayers _ => true
  | Ext call =>
      match call with
      | time_sleep _ | PropertiesChanged _ _ _ | py_call _ _ => false
      | _ => true
      end
  | _ => false
  end.

(** The loop over the contours asks for moments and pixel values only. *)
Definition contour_eff (X : Type) (c : eff X) : bool :=
  match c with
  | Ext (cv2_moments _) | Ext (cv2_getRectSubPix _ _ _) => true
  | _ => false
  end.

(** [capture], [preprocess] and [error] do not ask the engine for a match. *)
Definition matchless (X : Type) (c : eff X) : bool :=
  match c with
  | Ext (beast_db_match _ _) => false
  | _ => true
  end.

(** ** The replies of the engine in a run *)

Definition match_reply (e : event) : list db_match :=
  match e with
  | Ev _ c x =>
      match c in eff X return X -> list db_match with
      | Ext call =>
          match call in ext X return X -> list db_match with
          | beast_db_match _ _ => fun m => [m]
          | _ => fun _ => []
          end
      | _ => fun _ => []
      end x
  end.

(** The replies of [beast.db_match] so far, oldest first. *)
Fixpoint matches_so_far (tr : list event) : list db_match :=
  match tr with
  | [] => []
  | e :: tr' => matches_so_far tr' ++ match_reply e
  end.

(** ** Stepping through a run *)

(** The world after thread [t] got the reply [x] to the library call [c]. *)
Definition answered (t : tid) {X : Type} (c : ext X) (x : X) (w : world)
  : world :=
  {| server := server w; st_lock := st_lock w;
     STACK_LAYERS := STACK_LAYERS w; ticks := S (ticks w);
     trace := Ev t (Ext c) x :: trace w |}.

(** The world after [STACK_LAYERS] was read, and after it was set. *)
Definition stack_read (t : tid) (w : world) : world :=
  {| server := server w; st_lock := st_lock w;
     STACK_LAYERS := STACK_LAYERS w; ticks := ticks w;
     trace := Ev t GetStackLayers (STACK_LAYERS w) :: trace w |}.

Definition stack_set (t : tid) (n : Z) (w : world) : world :=
  {| server := server w; st_lock := st_lock w;
     STACK_LAYERS := n; ticks := ticks w;
     trace := Ev t (SetStackLayers n) tt :: trace w |}.

(** The world after an attribute was read, and after it was set. *)
Definition attr_read (t : tid) (a : attr) (w : world) : world :=
  {| server := server w; st_lock := st_lock w;
     STACK_LAYERS := STACK_LAYERS w; ticks := ticks w;
     trace := Ev t (GetAttr a) (get_attr (server w) a) :: trace w |}.

Definition attr_set (t : tid) (a : attr) (v : pyval) (w : world) : world :=
  {| server := set_attr (server w) a v; st_lock := st_lock w;
     STACK_LAYERS := STACK_LAYERS w; ticks := ticks w;
     trace := Ev t (SetAttr a v) tt :: trace w |}.

(** The world after the lock was taken, and after it was given back. *)
Definition locked (t : tid) (w : world) : world :=
  {| server := server w; st_lock := Some t;
     STACK_LAYERS := STACK_LAYERS w; ticks := ticks w;
     trace := Ev t LockAcquire tt :: trace w |}.

Definition unlocked (t : tid) (w : world) : world :=
  {| server := server w; st_lock := None;
     STACK_LAYERS := STACK_LAYERS w; ticks := ticks w;
     trace := Ev t LockRelease tt :: trace w |}.

(** ** [solve] on a frame *)

(** What [solve] returns for the replies [ms] of the engine: it asked once
    and the coarse match failed, or it asked twice and the refined match
    decided. *)
Definition solved (cvar : beast_cvar) (self : StarTracker)
    (ms : list db_match) (angles : float * float * float) : Prop :=
  match ms with
  | [lis] =>
      accepts_coarse cvar self lis = false
      /\ angles = (0%float, 0%float, 0%float)
  | [lis; near] =>
      accepts_coarse cvar self lis = true
      /\ angles = (if accepts_refined self near
                   then (winner_get_dec near, winner_get_ra near,
                         winner_get_ori near)
                   else (0%float, 0%float, 0%float))
  | _ => False
  end.

(** The solver after [startup]: the engine's objects exist. *)
Definition started (self : StarTracker) : Prop :=
  C_DB self <> None /\ SQ_RESULTS self <> None.

(** A frame that [cv2] converts to grey: rows, columns and three channels
    (four with an alpha channel), none of them empty.  [cv2.imread] returns
    no other array. *)
Definition colour_frame (a : ndarray) : bool :=
  match shape a with
  | [height; width; channels] =>
      (0 <? height)%Z && (0 <? width)%Z
      && ((channels =? 3)%Z || (channels =? 4)%Z)
  | _ => false
  end.

(** ** What a program may return

    [returns Q p]: every value that a path of [p] returns satisfies [Q]. *)
Fixpoint returns {A : Type} (Q : A -> Prop) (p : prog A) : Prop :=
  match p with
  | Ret a => Q a
  | Raise _ => True
  | Vis c k => forall x, returns Q (k x)
  end.

(** What [cv2] makes of a frame, whenever it is asked: the luminance, the
    number of pixels above the cutoff 80, and the variance of the Laplacian
    of the luminance. *)
Definition luminance (env : oracle) (img : ndarray) (n : nat) : ndarray :=
  env _ (cv2_cvtColor img "COLOR_RGB2GRAY") n.

Definition bright_pixels (env : oracle) (img : ndarray) (n1 n2 n3 : nat) : Z :=
  env _ (cv2_countNonZero
           (snd (env _ (cv2_threshold (luminance env img n1) 80 255) n2))) n3.

Definition blur_metric (env : oracle) (img : ndarray) (n1 n2 : nat) : float :=
  env _ (cv2_Laplacian_var (luminance env img n1)) n2.

(** Is the triple [dec == ra == ori == 0.0]? *)
Definition is_all_zero (dec ra ori : float) : bool :=
  PrimFloat.eqb dec ra && PrimFloat.eqb ra ori && PrimFloat.eqb ori 0.

(** The server object after the results of [solve] were stored. *)
Definition with_solution (s : StarTrackerServer)
    (dec ra ori : float) (l_solve : pyval) : StarTrackerServer :=
  {| dec := VFloat dec; ra := VFloat ra; ori := VFloat ori;
     l_solve := l_solve; t_solve := t_solve s; p_solve := p_solve s;
     st_running := st_running s |}.

(** Is [e] the D-Bus notification [PropertiesChanged]? *)
Definition is_properties_changed (e : event) : bool :=
  match e with
  | Ev _ (Ext (PropertiesChanged _ _ _)) _ => true
  | _ => false
  end.

(** Is [e] an acquire or a release of the lock, or a sleep? *)
Definition is_lock_or_sleep (e : event) : bool :=
  match e with
  | Ev _ LockAcquire _ | Ev _ LockRelease _ => true
  | Ev _ (Ext (time_sleep _)) _ => true
  | _ => false
  end.

(** ** The lock *)

(** The events of a history (oldest first) that happened while the lock was
    held; [held] says whether it is held when the history starts. *)
Fixpoint while_locked (held : bool) (h : list event) : list event :=
  match h with
  | [] => []
  | Ev _ LockAcquire _ :: h' => while_locked true h'
  | Ev _ LockRelease _ :: h' => while_locked false h'
  | e :: h' => (if held then [e] else []) ++ while_locked held h'
  end.

(** Work of the capture, of the classification and of the solve. *)
Definition is_capture_work (e : event) : bool :=
  match e with
  | Ev _ (Ext (glob_glob _)) _ | Ev _ (Ext (cv2_imread _)) _ => true
  | _ => false
  end.

Definition is_classification_work (e : event) : bool :=
  match e with
  | Ev _ (Ext (cv2_countNonZero _)) _
  | Ev _ (Ext (cv2_Laplacian_var _)) _ => true
  | _ => false
  end.

Definition is_solve_work (e : event) : bool :=
  match e with
  | Ev _ (Ext (np_clip_sub _ _)) _
  | Ev _ (Ext (cv2_findContours _ _ _)) _
  | Ev _ (Ext (beast_db_match _ _)) _ => true
  | _ => false
  end.

(** ** Valid, invalid and the all-zero triple *)

(** The notifications [PropertiesChanged] in a trace. *)
Definition announcements (tr : list event) : list event :=
  filter is_properties_changed tr.

(** ** Failures of a frame *)

Definition is_sleep (e : event) : bool :=
  match e with
  | Ev _ (Ext (time_sleep _)) _ => true
  | _ => false
  end.

(** ** The error signal *)

(** The signal [error] of the class can only be fired through the name
    [error], which the pass looks up as a global and then calls. *)
Definition is_error_signal (e : event) : bool :=
  match e with
  | Ev _ (Ext (py_call _ _)) _ => true
  | _ => false
  end.

Definition not_a_call (X : Type) (c : eff X) : bool :=
  match c with
  | Ext (py_call _ _) => false
  | _ => true
  end.

(** * The worker and the clients together *)

(** ** Disciplines

    A discipline is a monitor: a state and, for each effect, the next state
    or a refusal.  [follows next m p Q]: on every path of [p] from the state
    [m] no effect is refused, and a path that returns [a] in the state [m']
    has [Q m' a]. *)

Section Discipline.

Variable S : Type.
Variable next : S -> forall X : Type, eff X -> option S.

Fixpoint follows {A : Type} (m : S) (p : prog A) (Q : S -> A -> Prop)
  : Prop :=
  match p with
  | Ret a => Q m a
  | Raise _ => True
  | Vis c k =>
      match next m c with
      | Some m' => forall x, follows m' (k x) Q
      | None => False
      end
  end.

Definition obeys {A : Type} (m : S) (p : prog A) : Prop :=
  follows m p (fun _ _ => True).

End Discipline.

(** The five fields of the solution record that the properties publish. *)
Definition is_record (a : attr) : bool :=
  match a with
  | self_dec | self_ra | self_ori | self_t_solve | self_p_solve => true
  | self_l_solve | self_st_running => false
  end.

Definition attr_eqb (a b : attr) : bool :=
  match a, b with
  | self_dec, self_dec | self_ra, self_ra | self_ori, self_ori
  | self_l_solve, self_l_solve | self_t_solve, self_t_solve
  | self_p_solve, self_p_solve | self_st_running, self_st_running => true
  | _, _ => false
  end.

(** ** The discipline of the writer

    The worker is [Outside] the lock, or [Inside] it with a list of the
    attributes it has stored since it took the lock.  It stores only inside,
    and gives the lock back only when all five fields of the record are
    stored. *)
Inductive writer_state : Type :=
| Outside
| Inside (stored : list attr).

Definition covers (stored : list attr) : bool :=
  forallb (fun a => existsb (attr_eqb a) stored)
    [self_dec; self_ra; self_ori; self_t_solve; self_p_solve].

Definition writer_next (m : writer_state) (X : Type) (c : eff X)
  : option writer_state :=
  match c with
  | LockAcquire =>
      match m with Outside => Some (Inside []) | Inside _ => None end
  | LockRelease =>
      match m with
      | Inside stored => if covers stored then Some Outside else None
      | Outside => None
      end
  | SetAttr a _ =>
      match m with
      | Inside stored => Some (Inside (a :: stored))
      | Outside => None
      end
  | _ => Some m
  end.

(** ** The discipline of a client

    A client is [Before] taking the lock, [Holding] it, or [After] giving it
    back.  It reads fields of the record only while holding the lock and
    never stores one; the only attribute it stores is [st_running]. *)
Inductive client_state : Type :=
| Before
| Holding
| After.

Definition client_next (m : client_state) (X : Type) (c : eff X)
  : option client_state :=
  match c with
  | LockAcquire => match m with Before => Some Holding | _ => None end
  | LockRelease => match m with Holding => Some After | _ => None end
  | GetAttr a =>
      match m with
      | Holding => if is_record a then Some Holding else None
      | _ => None
      end
  | SetAttr a _ =>
      match a with self_st_running => Some m | _ => None end
  | _ => Some m
  end.

(** ** The system

    The worker runs [star_tracker]; each client runs one request, a property
    getter or [end].  Next to the shared world the system keeps a record of
    who stored what, which the programs cannot see: [passes], the number of
    passes the worker has begun; [stored_in a], the pass during which the
    current value of the attribute [a] was stored (0 for the value that
    [__init__] stored); and, for each client, what it has read: the
    attribute and the pass that stored the value it got. *)

Record client : Type :=
  { request : prog pyval;
    observed : list (attr * nat) }.

Record system : Type :=
  { shared : world;
    passes : nat;
    stored_in : attr -> nat;
    worker_thread : prog loop_exit;
    clients : list client }.

Definition begins_pass (t : tid) {X : Type} (c : eff X) (n : nat) : nat :=
  match t, c with
  | Worker, LockAcquire => S n
  | _, _ => n
  end.

Definition stores {X : Type} (c : eff X) (n : nat) (tags : attr -> nat)
  : attr -> nat :=
  match c with
  | SetAttr a _ => fun b => if attr_eqb a b then n else tags b
  | _ => tags
  end.

Definition observes {X : Type} (c : eff X) (tags : attr -> nat)
    (seen : list (attr * nat)) : list (attr * nat) :=
  match c with
  | GetAttr a => (a, tags a) :: seen
  | _ => seen
  end.

Fixpoint update_client (i : nat) (cl : client) (cls : list client)
  : list client :=
  match cls, i with
  | [], _ => []
  | _ :: rest, O => cl :: rest
  | c :: rest, S i' => c :: update_client i' cl rest
  end.

(** One step of thread [t]: its next effect, if it has one and is not
    blocked. *)
Definition step (env : oracle) (t : tid) (s : system) : system :=
  match t with
  | Worker =>
      match worker_thread s with
      | Vis c k =>
          match handle env Worker c (shared s) with
          | Ok x w' =>
              let n := begins_pass Worker c (passes s) in
              {| shared := w';
                 passes := n;
                 stored_in := stores c n (stored_in s);
                 worker_thread := k x;
                 clients := clients s |}
          | Blocks => s
          | Throws e =>
              {| shared := shared s;
                 passes := passes s;
                 stored_in := stored_in s;
                 worker_thread := Raise e;
                 clients := clients s |}
          end
      | _ => s
      end
  | Client i =>
      match nth_error (clients s) i with
      | Some cl =>
          match request cl with
          | Vis c k =>
              match handle env (Client i) c (shared s) with
              | Ok x w' =>
                  {| shared := w';
                     passes := passes s;
                     stored_in := stores c (passes s) (stored_in s);
                     worker_thread := worker_thread s;
                     clients :=
                       update_client i
                         {| request := k x;
                            observed :=
                              observes c (stored_in s) (observed cl) |}
                         (clients s) |}
              | Blocks => s
              | Throws e =>
                  {| shared := shared s;
                     passes := passes s;
                     stored_in := stored_in s;
                     worker_thread := worker_thread s;
                     clients :=
                       update_client i
                         {| request := Raise e; observed := observed cl |}
                         (clients s) |}
              end
          | _ => s
          end
      | None => s
      end
  end.

(** A schedule names the thread that moves next. *)
Fixpoint exec (env : oracle) (schedule : list tid) (s : system) : system :=
  match schedule with
  | [] => s
  | t :: schedule' => exec env schedule' (step env t s)
  end.

(** The system after [start]: the worker about to run its loop for [fuel]
    passes at most, and the requests that will come in. *)
Definition boot (cvar : beast_cvar) (st : StarTracker) (fuel : nat)
    (requests : list (prog pyval)) : system :=
  {| shared := world_init;
     passes := 0;
     stored_in := fun _ => 0;
     worker_thread := star_tracker cvar st fuel;
     clients :=
       map (fun p => {| request := p; observed := [] |}) requests |}.

(** The requests of the interface. *)
Definition is_request (p : prog pyval) : Prop :=
  p = coor \/ p = filepath \/ p = last_solve \/ p = server_end.

(** ** The invariant *)

(** All fields of the record were stored during the same pass. *)
Definition coherent (tags : attr -> nat) : Prop :=
  forall a b, is_record a = true -> is_record b = true -> tags a = tags b.

(** All values a client has read were stored during the same pass. *)
Definition uniform (seen : list (attr * nat)) : Prop :=
  forall a n b m, In (a, n) seen -> In (b, m) seen -> n = m.

Definition writer_at (m : writer_state) (s : system) : Prop :=
  match m with
  | Outside =>
      st_lock (shared s) <> Some Worker /\ coherent (stored_in s)
  | Inside stored =>
      st_lock (shared s) = Some Worker
      /\ forall a, In a stored -> stored_in s a = passes s
  end.

Definition client_at (m : client_state) (s : system) (i : nat) (cl : client)
  : Prop :=
  match m with
  | Before => st_lock (shared s) <> Some (Client i) /\ observed cl = []
  | Holding =>
      st_lock (shared s) = Some (Client i)
      /\ forall a n, In (a, n) (observed cl) ->
                     is_record a = true /\ n = stored_in s a
  | After => st_lock (shared s) <> Some (Client i) /\ uniform (observed cl)
  end.

Definition invariant (s : system) : Prop :=
  (exists m, obeys writer_next m (worker_thread s) /\ writer_at m s)
  /\ forall i cl,
      nth_error (clients s) i = Some cl ->
      exists m, obeys client_next m (request cl) /\ client_at m s i cl.

(** A run of the system: the worker publishes a first solution (72 steps);
    a client starts to read [coor] and gets as far as [ra]; the worker, at
    the top of its second pass, waits for the lock; a second client asks for
    [filepath] and waits too; the first client finishes; the second reads.
    Both got values of the first pass. *)
Definition a_schedule : list tid :=
  repeat Worker 72 ++ repeat (Client 0) 3 ++ repeat Worker 80
  ++ repeat (Client 1) 2 ++ repeat (Client 0) 10 ++ repeat (Client 1) 5
  ++ repeat Worker 100.

(** * Monitors that see the replies *)

(** A monitor has a state and, for each effect and its reply, the next state
    or a refusal.  [guarded next m p Q R]: on every path of [p] from the
    state [m] no effect is refused, a path that returns [a] in the state
    [m'] has [Q m' a], and a path that raises [e] in the state [m'] has
    [R m' e]. *)

Section Monitor.

Variable S : Type.
Variable next : S -> forall X : Type, eff X -> X -> option S.

Fixpoint guarded {A : Type} (m : S) (p : prog A)
    (Q : S -> A -> Prop) (R : S -> exn -> Prop) : Prop :=
  match p with
  | Ret a => Q m a
  | Raise e => R m e
  | Vis c k =>
      forall x, match next m c x with
                | Some m' => guarded m' (k x) Q R
                | None => False
                end
  end.

(** The state of the monitor after the events [h], oldest first. *)
Fixpoint replay (m : S) (h : list event) : option S :=
  match h with
  | [] => Some m
  | Ev _ c x :: h' =>
      match next m c x with
      | Some m' => replay m' h'
      | None => None
      end
  end.

End Monitor.

(** ** A thread and the lock *)

Definition tid_eqb (a b : tid) : bool :=
  match a, b with
  | Worker, Worker => true
  | Client i, Client j => Nat.eqb i j
  | _, _ => false
  end.

(** Does thread [t] hold [st_lock]? *)
Definition holds (t : tid) (w : world) : bool :=
  match st_lock w with
  | Some holder => tid_eqb t holder
  | None => false
  end.

(** The monitor of one thread, whose state says whether the thread holds the
    lock: it takes the lock only when it does not hold it, gives it back only
    when it holds it, and stores no attribute but [st_running] without it. *)
Definition lock_next (held : bool) (X : Type) (c : eff X) (_ : X)
  : option bool :=
  match c with
  | LockAcquire => if held then None else Some true
  | LockRelease => if held then Some false else None
  | SetAttr a _ =>
      if held || attr_eqb a self_st_running then Some held else None
  | _ => Some held
  end.

(** [dies_holding E held p]: [p] keeps to [lock_next]; whenever it returns,
    the thread does not hold the lock; and whenever it raises, the exception
    is one of [E] and the thread holds the lock. *)
Definition dies_holding (E : exn -> Prop) {A : Type} (held : bool)
    (p : prog A) : Prop :=
  guarded lock_next held p (fun held' _ => held' = false)
    (fun held' e => held' = true /\ E e).

(** The one exception of a request: [last_solve] reads its local [p_solve]
    before the assignment. *)
Definition request_exn (e : exn) : Prop := e = UnboundLocalError "p_solve".

Definition disciplined (s : system) : Prop :=
  dies_holding (fun _ => True) (holds Worker (shared s)) (worker_thread s)
  /\ forall i cl,
      nth_error (clients s) i = Some cl ->
      dies_holding request_exn (holds (Client i) (shared s)) (request cl).

(** Thread [t] has ended with the exception [e]. *)
Definition raised (s : system) (t : tid) (e : exn) : Prop :=
  match t with
  | Worker => worker_thread s = Raise e
  | Client i =>
      exists cl, nth_error (clients s) i = Some cl /\ request cl = Raise e
  end.

(** Has the program returned?  Is its next effect one that thread [t] has
    to wait for? *)
Definition returned {A : Type} (p : prog A) : Prop :=
  match p with
  | Ret _ => True
  | _ => False
  end.

Definition waiting (env : oracle) (t : tid) {A : Type} (p : prog A)
    (w : world) : Prop :=
  match p with
  | Vis c _ => handle env t c w = Blocks
  | _ => False
  end.

(** A request that starts by taking the lock. *)
Definition takes_the_lock (p : prog pyval) : Prop :=
  p = coor \/ p = filepath \/ p = last_solve.

(** Is the next effect of the program the [acquire]? *)
Definition at_acquire {A : Type} (p : prog A) : bool :=
  match p with
  | Vis LockAcquire _ => true
  | _ => false
  end.

(** Nothing but [st_running] differs between two server objects. *)
Definition same_record (a b : StarTrackerServer) : Prop :=
  forall x, x <> self_st_running -> get_attr a x = get_attr b x.

(** The service is frozen between [s] and [s']: thread [t] holds the lock in
    both, no pass has begun, no attribute but [st_running] has changed, and
    every request that waits for the lock still does. *)
Definition frozen (t : tid) (s s' : system) : Prop :=
  st_lock (shared s') = Some t
  /\ passes s' = passes s
  /\ same_record (server (shared s')) (server (shared s))
  /\ forall i cl,
      nth_error (clients s) i = Some cl ->
      takes_the_lock (request cl) ->
      nth_error (clients s') i = Some cl.

(** ** The loop of the worker and [st_running] *)

(** Where the worker is in [while (self.st_running)]: about to test the
    flag (or inside a pass, on its way back to the test); past a test that
    found the flag set, and not yet in the pass; past a test that found it
    clear. *)
Inductive loop_state : Type :=
| AtTest
| Committed
| Leaving.

Definition loop_next (m : loop_state) (X : Type) (c : eff X)
  : X -> option loop_state :=
  match c in eff X0 return X0 -> option loop_state with
  | GetAttr a =>
      fun running =>
        match a with
        | self_st_running =>
            match m with
            | AtTest => Some (if py_truthy running then Committed else Leaving)
            | _ => None
            end
        | _ => Some m
        end
  | LockAcquire =>
      fun _ => match m with Committed => Some AtTest | _ => None end
  | SetAttr a _ =>
      fun _ => match a with self_st_running => None | _ => Some m end
  | _ => fun _ => Some m
  end.

(** The passes the worker may still begin once the flag is clear. *)
Definition credit (m : loop_state) : nat :=
  match m with Committed => 1 | _ => 0 end.

(** The only value that is ever stored in [st_running] is [False]. *)
Definition stops_only (X : Type) (c : eff X) : bool :=
  match c with
  | SetAttr self_st_running v =>
      match v with VBool false => true | _ => false end
  | _ => true
  end.

(** The worker is at [m] in its loop, and no request stores anything but
    [False] in [st_running]. *)
Definition tracked (m : loop_state) (s : system) : Prop :=
  guarded loop_next m (worker_thread s) (fun _ _ => True) (fun _ _ => True)
  /\ forall i cl,
      nth_error (clients s) i = Some cl -> emits stops_only (request cl).

(** Is the flag [st_running] clear? *)
Definition stopping (s : system) : Prop :=
  py_truthy (st_running (server (shared s))) = false.

(** * The vocabulary of the solver's methods *)

(** ** What was printed *)

Definition print_line (e : event) : list string :=
  match e with
  | Ev _ (Ext (py_print line)) _ => [line]
  | _ => []
  end.

(** The lines printed in the events [h]. *)
Definition printed (h : list event) : list string := flat_map print_line h.

(** The lines that [error] prints at depth [n]: with the two lines of
    [modify] in between when the verdict has a corrective action. *)
Definition error_lines (n : Z) (corrected : bool) : list string :=
  [(spaces n ++ "Inside StarTracker.error")%string]
  ++ (if corrected
      then [(spaces (n + 1) ++ "Inside StarTracker.modify")%string;
            (spaces (n + 1) ++ "End StarTracker.modify")%string]
      else [])
  ++ [(spaces n ++ "End StarTracker.error")%string].

(** The verdicts with a corrective action. *)
Definition has_corrective_action (err_string : string) : bool :=
  (err_string =? "image too blurry")
  || (err_string =? "image contains too few stars").

(** ** The contours *)

Definition is_moments (e : event) : bool :=
  match e with
  | Ev _ (Ext (cv2_moments _)) _ => true
  | _ => false
  end.

(** A reply of [cv2.moments] with [M["m00"] > 0]. *)
Definition has_area (e : event) : bool :=
  match e with
  | Ev _ c x =>
      match c in eff X return X -> bool with
      | Ext call =>
          match call in ext X return X -> bool with
          | cv2_moments _ => fun M => PrimFloat.ltb 0 (m00 M)
          | _ => fun _ => false
          end
      | _ => fun _ => false
      end x
  end.

Definition is_pixel_read (e : event) : bool :=
  match e with
  | Ev _ (Ext (cv2_getRectSubPix _ _ _)) _ => true
  | _ => false
  end.

(** [cx ** 2] and [cy ** 2] are finite: the powers do not overflow. *)
Definition power_in_range (M : moments) : bool :=
  let cx := (m10 M / m00 M)%float in
  let cy := (m01 M / m00 M)%float in
  PrimFloat.is_finite (cx * cx) && PrimFloat.is_finite (cy * cy).

(** Whatever [cv2.moments] is asked, the centroid of a contour with an area
    has powers in range. *)
Definition moments_in_range (env : oracle) : Prop :=
  forall c n,
    PrimFloat.ltb 0 (m00 (env _ (cv2_moments c) n)) = true ->
    power_in_range (env _ (cv2_moments c) n) = true.

(** ** The searches of the catalogue *)

Fixpoint beast_obj_eqb (a b : beast_obj) : bool :=
  match a, b with
  | BeastObj i, BeastObj j => Nat.eqb i j
  | Results a', Results b' => beast_obj_eqb a' b'
  | _, _ => false
  end.

(** The query objects that hold search results: [kdsearch] on [q] leaves
    results in [q], [clear_kdresults] on [q] drops them. *)
Definition kd_effect (open : list beast_obj) (X : Type) (c : eff X)
  : list beast_obj :=
  match c with
  | Ext (beast_kdsearch q _ _ _ _ _) => q :: open
  | Ext (beast_clear_kdresults q) =>
      filter (fun o => negb (beast_obj_eqb q o)) open
  | _ => open
  end.

Definition kd_step (open : list beast_obj) (e : event) : list beast_obj :=
  match e with Ev _ c _ => kd_effect open c end.

(** The query objects that hold results after the events [h], oldest
    first. *)
Definition open_searches (h : list event) : list beast_obj :=
  fold_left kd_step h [].

Definition kd_next (open : list beast_obj) (X : Type) (c : eff X) (_ : X)
  : option (list beast_obj) :=
  Some (kd_effect open c).

Definition no_search (X : Type) (c : eff X) : bool :=
  match c with
  | Ext (beast_kdsearch _ _ _ _ _ _) | Ext (beast_clear_kdresults _) => false
  | _ => true
  end.

(** ** The reads of the properties *)

(** The world after [coor] or [filepath] ran in the world [w], where the
    lock was free: the lock was taken, the attributes [read] were read, and
    the lock was given back. *)
Definition after_read (t : tid) (read : list attr) (w : world) : world :=
  unlocked t (fold_left (fun w' a => attr_read t a w') read (locked t w)).

(** ** More scenarios *)

(** The libraries of [Scenario.clear_sky], with a sample directory that
    holds no file. *)
Definition empty_sample_dir : oracle :=
  fun X (c : ext X) (n : nat) =>
    match c in ext X0 return X0 with
    | glob_glob _ => []
    | c' => @Scenario.clear_sky _ c' n
    end.

(** The libraries of [Scenario.clear_sky], where [cv2.moments] finds no
    area in an empty contour. *)
Definition specks : oracle :=
  fun X (c : ext X) (n : nat) =>
    match c in ext X0 return X0 with
    | cv2_moments [] =>
        {| m00 := 0; m10 := 0; m01 := 0; m20 := 0; m02 := 0; m11 := 0 |}
    | c' => @Scenario.clear_sky _ c' n
    end.

(** A colour frame of 2 x 3 pixels. *)
Definition wide_frame : ndarray :=
  {| shape := [2; 3; 3]%Z; pixels := repeat 0%Z 18 |}.

(** The libraries of [Scenario.clear_sky], where the file [/median.png]
    cannot be read. *)
Definition unreadable_median : oracle :=
  fun X (c : ext X) (n : nat) =>
    match c in ext X0 return X0 with
    | cv2_imread path =>
        if (path =? "/median.png")%string then None else Some Scenario.frame
    | c' => @Scenario.clear_sky _ c' n
    end.

(** The solver that [startup] leaves when the median image could not be
    read. *)
Definition blind : StarTracker :=
  {| P_MATCH_THRESH := P_MATCH_THRESH StarTracker_init;
     YEAR := YEAR StarTracker_init;
     SAMPLE_DIR := Some "/samples/"%string;
     MEDIAN_IMAGE := None;
     S_DB := Some (BeastObj 0);
     SQ_RESULTS := Some (BeastObj 1);
     S_FILTERED := Some [];
     C_DB := Some (BeastObj 2) |}.

(** * The types of the interface *)

(** The D-Bus interface declares [coor] as [(dddd)], four doubles, and
    [filepath] as [s], a string. *)
Definition is_float (v : pyval) : bool :=
  match v with VFloat _ => true | _ => false end.

Definition is_str (v : pyval) : bool :=
  match v with VStr _ => true | _ => false end.

Definition fits_dddd (v : pyval) : bool :=
  match v with
  | VTuple [a; b; c; d] => is_float a && is_float b && is_float c && is_float d
  | _ => false
  end.

(** The type that the interface expects of each field of the record. *)
Definition well_typed (a : attr) (v : pyval) : bool :=
  match a with
  | self_dec | self_ra | self_ori | self_t_solve => is_float v
  | self_p_solve => is_str v
  | self_l_solve | self_st_running => true
  end.

Definition record_typed (s : StarTrackerServer) : Prop :=
  forall a, well_typed a (get_attr s a) = true.

(** The monitor of the worker: outside the lock, or inside it with a flag
    that says whether all it has stored since the [acquire] fits the
    interface.  It gives the lock back only when the flag is set. *)
Inductive typed_state : Type :=
| TOutside
| TInside (ok : bool).

Definition typed_next (m : typed_state) (X : Type) (c : eff X) (_ : X)
  : option typed_state :=
  match c with
  | LockAcquire =>
      match m with TOutside => Some (TInside true) | TInside _ => None end
  | LockRelease =>
      match m with TInside true => Some TOutside | _ => None end
  | SetAttr a v =>
      match m with
      | TInside ok => Some (TInside (ok && well_typed a v))
      | TOutside => None
      end
  | _ => Some m
  end.

Definition typed_at (m : typed_state) (w : world) : Prop :=
  match m with
  | TOutside => holds Worker w = false /\ record_typed (server w)
  | TInside ok =>
      holds Worker w = true /\ (ok = true -> record_typed (server w))
  end.

(** Does the reply to a read of an attribute fit the interface? *)
Definition reply_typed {X : Type} (c : eff X) : X -> bool :=
  match c in eff X0 return X0 -> bool with
  | GetAttr a => fun v => well_typed a v
  | _ => fun _ => true
  end.

(** [yields fits p]: when every attribute that [p] reads fits the
    interface, every value that [p] returns satisfies [fits]. *)
Fixpoint yields (fits : pyval -> bool) (p : prog pyval) : Prop :=
  match p with
  | Ret v => fits v = true
  | Raise _ => True
  | Vis c k => forall x, reply_typed c x = true -> yields fits (k x)
  end.

(** What [capture] returns: a path, or no path and no frame. *)
Definition path_or_nothing (r : pyval * option ndarray) : Prop :=
  (exists path, fst r = VStr path) \/ (fst r = VNone /\ snd r = None).

Definition typed_system (requests : list (prog pyval)) (s : system) : Prop :=
  (exists m,
      guarded typed_next m (worker_thread s)
        (fun _ _ => True) (fun _ _ => True)
      /\ typed_at m (shared s))
  /\ forall i cl,
      nth_error (clients s) i = Some cl ->
      (nth_error requests i = Some coor -> yields fits_dddd (request cl))
      /\ (nth_error requests i = Some filepath -> yields is_str (request cl)).

(** * The backoff *)

(** The monitor of the sleeps of a thread: whether it holds the lock, and
    whether it has slept.  It refuses a sleep under the lock. *)
Definition backoff_next (m : bool * bool) (X : Type) (c : eff X) (_ : X)
  : option (bool * bool) :=
  match c with
  | LockAcquire => if fst m then None else Some (true, snd m)
  | LockRelease => if fst m then Some (false, snd m) else None
  | Ext (time_sleep _) => if fst m then None else Some (fst m, true)
  | _ => Some m
  end.

(** * The record in the course of a run *)

(** The server object after the events [tr], latest first. *)
Fixpoint record_of (tr : list event) : StarTrackerServer :=
  match tr with
  | [] => StarTrackerServer_init
  | Ev _ c _ :: tr' =>
      match c with
      | SetAttr a v => set_attr (record_of tr') a v
      | _ => record_of tr'
      end
  end.

(** The number of passes that the worker has begun in [tr]. *)
Fixpoint passes_of (tr : list event) : nat :=
  match tr with
  | [] => 0
  | Ev t c _ :: tr' => begins_pass t c (passes_of tr')
  end.

(** The pass during which the value that the attribute has after [tr] was
    stored (0 for the value that [__init__] stored). *)
Fixpoint stored_by (tr : list event) : attr -> nat :=
  match tr with
  | [] => fun _ => 0
  | Ev _ c _ :: tr' => stores c (passes_of tr') (stored_by tr')
  end.

(** [earlier] is the trace of a moment of the run that has led to [w]. *)
Definition moment_of (w : world) (earlier : list event) : Prop :=
  exists later, trace w = later ++ earlier.

(** [earlier] is the trace of the moment at which client [i] took the
    lock. *)
Definition taken_at (i : nat) (w : world) (earlier : list event) : Prop :=
  exists later, trace w = later ++ Ev (Client i) LockAcquire tt :: earlier.

(** At the moment [tr] the five fields of the record have all been stored
    during the same pass of the worker: they come from one solve. *)
Definition of_one_solve (tr : list event) : Prop := coherent (stored_by tr).

(** What [coor] returns of a record. *)
Definition coor_of (rec : StarTrackerServer) : pyval :=
  VTuple [dec rec; ra rec; ori rec; t_solve rec].

(** The same, decided. *)
Definition one_solve (tr : list event) : bool :=
  forallb (fun a => Nat.eqb (stored_by tr a) (stored_by tr self_dec))
    [self_ra; self_ori; self_t_solve; self_p_solve].

(** Has the run passed a moment that satisfies [P]? *)
Fixpoint ever (P : list event -> bool) (tr : list event) : bool :=
  P tr
  || match tr with
     | [] => false
     | _ :: tr' => ever P tr'
     end.

(** Was the record, at a moment of one solve, the four values [c] that
    [coor] returns together with the path [p]? *)
Definition was_published (c p : pyval) (tr : list event) : bool :=
  one_solve tr
  && py_eq (coor_of (record_of tr)) c
  && py_eq (p_solve (record_of tr)) p.

(** ** The monitor of a read

    A request is [Asking] for the lock, [Reading] under it, or [Answering]
    after it has given the lock back; the monitor keeps what the request has
    read, latest first.  A request reads fields of the record only, and only
    under the lock; the only attribute it stores is [st_running]. *)
Inductive reader_state : Type :=
| Asking
| Reading (seen : list (attr * pyval))
| Answering (seen : list (attr * pyval)).

Definition reader_next (m : reader_state) (X : Type) (c : eff X)
  : X -> option reader_state :=
  match c in eff X0 return X0 -> option reader_state with
  | LockAcquire =>
      fun _ => match m with Asking => Some (Reading []) | _ => None end
  | LockRelease =>
      fun _ =>
        match m with Reading seen => Some (Answering seen) | _ => None end
  | GetAttr a =>
      fun v =>
        match m with
        | Reading seen =>
            if is_record a then Some (Reading ((a, v) :: seen)) else None
        | _ => None
        end
  | SetAttr a _ =>
      fun _ => if attr_eqb a self_st_running then Some m else None
  | _ => fun _ => Some m
  end.

(** [coor] answers with the tuple of what it has read of [dec], [ra], [ori]
    and [t_solve]; [filepath] answers with what it has read of [p_solve]. *)
Definition answers_coor (m : reader_state) (v : pyval) : Prop :=
  exists d r o ts,
    m = Answering [(self_t_solve, ts); (self_ori, o); (self_ra, r);
                   (self_dec, d)]
    /\ v = VTuple [d; r; o; ts].

Definition answers_filepath (m : reader_state) (v : pyval) : Prop :=
  m = Answering [(self_p_solve, v)].

(** All of [seen] was read from the record [rec]. *)
Definition read_from (rec : StarTrackerServer) (seen : list (attr * pyval))
  : Prop :=
  forall a v, In (a, v) seen -> v = get_attr rec a.

(** Where client [i] is: under the lock, what it has read is the record of
    the moment at which it took the lock, a record of one solve that has not
    changed since; after, what it has read is still the record of that
    moment. *)
Definition reader_at (m : reader_state) (w : world) (i : nat) : Prop :=
  match m with
  | Asking => True
  | Reading seen =>
      st_lock w = Some (Client i)
      /\ exists earlier,
          taken_at i w earlier
          /\ of_one_solve earlier
          /\ same_record (record_of earlier) (server w)
          /\ read_from (record_of earlier) seen
  | Answering seen =>
      exists earlier,
        taken_at i w earlier
        /\ of_one_solve earlier
        /\ read_from (record_of earlier) seen
  end.

(** The request of client [i] keeps to the monitor and will answer as
    [Q]. *)
Definition served (Q : reader_state -> pyval -> Prop) (w : world) (i : nat)
    (p : prog pyval) : Prop :=
  exists m,
    guarded reader_next m p Q (fun _ _ => True) /\ reader_at m w i.

(** The record that the system keeps of who stored what agrees with the
    trace. *)
Definition chronicled (s : system) : Prop :=
  server (shared s) = record_of (trace (shared s))
  /\ passes s = passes_of (trace (shared s))
  /\ forall a, stored_in s a = stored_by (trace (shared s)) a.

Definition answering (requests : list (prog pyval)) (s : system) : Prop :=
  forall i cl,
    nth_error (clients s) i = Some cl ->
    (nth_error requests i = Some coor ->
     served answers_coor (shared s) i (request cl))
    /\ (nth_error requests i = Some filepath ->
        served answers_filepath (shared s) i (request cl))
    /\ (nth_error requests i = Some last_solve ->
        returns (fun _ => False) (request cl)).

(** ** A sample directory with two files *)

(** The libraries of [Scenario.clear_sky], with the two files [a.png] and
    [b.png] in the sample directory. *)
Definition two_samples : oracle :=
  fun X (c : ext X) (n : nat) =>
    match c in ext X0 return X0 with
    | glob_glob _ => ["/samples/a.png"; "/samples/b.png"]%string
    | c' => @Scenario.clear_sky _ c' n
    end.

(** A run with the two files: the worker publishes a first solution (72
    steps); a client reads [coor]; the worker publishes a second solution
    (66 steps); a second client reads [filepath]. *)
Definition two_reads : list tid :=
  repeat Worker 72 ++ repeat (Client 0) 10 ++ repeat Worker 66
  ++ repeat (Client 1) 5.

(** * Properties *)

(** ** Running a sequence *)

Lemma run_bind :
  forall env t (A B : Type) (m : prog A) (k : A -> prog B) w,
    run env t (bind m k) w =
    match run env t m w with
    | (Done a, w1) => run env t (k a) w1
    | (Raised e, w1) => (Raised e, w1)
    | (Blocked, w1) => (Blocked, w1)
    end.
Proof.
  induction m as [a | e | X c k' IH]; intros k w; simpl; try reflexivity.
  destruct (handle env t c w); auto.
Qed.

(** ** What a program emits *)

Section EmitsFacts.

Variable P : forall X : Type, eff X -> bool.

Lemma emits_bind :
  forall (A B : Type) (m : prog A) (k : A -> prog B),
    emits P m -> (forall a, emits P (k a)) -> emits P (bind m k).
Proof.
  induction m as [a | e | X c k' IH]; simpl; intros k Hm Hk; auto.
  destruct Hm as [Hc Hk']. split; auto.
Qed.

Lemma emits_run :
  forall env t (A : Type) (p : prog A) w,
    emits P p ->
    exists new, trace (snd (run env t p w)) = new ++ trace w
                /\ Forall (event_ok P) new.
Proof.
  induction p as [a | e | X c k IH]; simpl; intros w Hp.
  - exists []. split; auto.
  - exists []. split; auto.
  - destruct Hp as [Hc Hk]. unfold handle.
    destruct (guard c w) as [[e|]|].
    + exists []. split; auto.
    + exists []. split; auto.
    + destruct (effect_of env t c w) as [x w'] eqn:E.
      destruct (IH x (log t c x w') (Hk x)) as [new [Ht Hall]].
      exists (new ++ [Ev t c x]). split.
      * rewrite Ht. simpl. rewrite <- app_assoc. simpl.
        assert (trace w' = trace w) as ->; [| reflexivity].
        destruct c; simpl in E; inversion E; subst; reflexivity.
      * apply Forall_app. split; auto.
Qed.

End EmitsFacts.

Lemma total_bind :
  forall (A B : Type) (m : prog A) (k : A -> prog B),
    total m -> (forall a, total (k a)) -> total (bind m k).
Proof.
  induction m as [a | e | X c k' IH]; simpl; intros k Hm Hk; auto.
Qed.

(** A local program never blocks and leaves lock and server as they are. *)
Lemma local_run :
  forall env t (A : Type) (p : prog A) w,
    local p ->
    fst (run env t p w) <> Blocked
    /\ server (snd (run env t p w)) = server w
    /\ st_lock (snd (run env t p w)) = st_lock w.
Proof.
  unfold local.
  induction p as [a | e | X c k IH]; simpl; intros w Hp.
  - repeat split; discriminate.
  - repeat split; discriminate.
  - destruct Hp as [Hc Hk].
    destruct c; simpl in Hc; try discriminate; unfold handle; simpl;
      match goal with
      | |- context [run env t (k ?x) ?w'] =>
          destruct (IH x w' (Hk x)) as [H1 [H2 H3]]
      end; simpl in *; auto.
Qed.

(** A local program that cannot raise returns. *)
Lemma local_total_run :
  forall env t (A : Type) (p : prog A) w,
    local p -> total p -> exists a, fst (run env t p w) = Done a.
Proof.
  unfold local.
  induction p as [a | e | X c k IH]; simpl; intros w Hp Ht.
  - eauto.
  - contradiction.
  - destruct Hp as [Hc Hk].
    destruct c; simpl in Hc; try discriminate; unfold handle; simpl;
      apply IH; auto.
Qed.

(** ** The effects of the solver's methods *)

Lemma emits_weaken :
  forall (P Q : forall X : Type, eff X -> bool),
    (forall X (c : eff X), P X c = true -> Q X c = true) ->
    forall (A : Type) (p : prog A), emits P p -> emits Q p.
Proof.
  intros P Q HPQ A. induction p as [a | e | X c k IH]; simpl; auto.
  intros [Hc Hk]. split; auto.
Qed.

Lemma quiet_local : forall X (c : eff X), quiet c = true -> local_eff c = true.
Proof. intros X c; destruct c; simpl; auto. Qed.

Lemma quiet_is_local :
  forall (A : Type) (p : prog A), emits quiet p -> local p.
Proof. intros A p. apply emits_weaken. exact quiet_local. Qed.

Create HintDb emits.

Ltac step_emits :=
  match goal with
  | |- emits _ (bind _ _) => apply emits_bind; [ | intros ]
  | |- emits _ (perform _) => simpl; split; [ reflexivity | intros; exact I ]
  | |- emits _ (call _) => simpl; split; [ reflexivity | intros; exact I ]
  | |- emits _ (Ret _) => exact I
  | |- emits _ (Raise _) => exact I
  | |- emits _ (match ?x with _ => _ end) => destruct x
  | |- emits _ (let '(_, _) := ?x in _) => destruct x
  end.

Lemma quiet_debug_inside : forall method, emits quiet (debug_inside method).
Proof. intros. unfold debug_inside, DEBUG_ENABLED. repeat step_emits. Qed.

Lemma quiet_debug_end : forall method, emits quiet (debug_end method).
Proof. intros. unfold debug_end, DEBUG_ENABLED. repeat step_emits. Qed.

Lemma emits_py_int :
  forall P (f : float), emits P (py_int f).
Proof. intros. unfold py_int. repeat step_emits. Qed.

Lemma emits_py_truediv :
  forall P (a b : float), emits P (py_truediv a b).
Proof. intros. unfold py_truediv. repeat step_emits. Qed.

Lemma emits_load_global :
  forall P name, emits P (load_global name).
Proof. intros. unfold load_global. repeat step_emits. Qed.

Lemma emits_py_square :
  forall P (x : float), emits P (py_square x).
Proof. intros. unfold py_square. repeat step_emits. Qed.

Lemma emits_np_subtract :
  forall P a b, emits P (np_subtract a b).
Proof. intros. unfold np_subtract. repeat step_emits. Qed.

#[local] Hint Resolve quiet_debug_inside quiet_debug_end emits_py_int
  emits_py_truediv emits_load_global emits_py_square emits_np_subtract
  : emits.

Ltac emits_auto :=
  repeat first [ solve [ auto with emits ] | step_emits ].

Lemma quiet_capture : forall self, emits quiet (capture self).
Proof.
  intros. unfold capture, random_choice. emits_auto.
Qed.

Lemma quiet_preprocess :
  forall self img, emits quiet (preprocess self img).
Proof.
  intros. unfold preprocess, unpack_shape. emits_auto.
Qed.

Lemma contour_eff_quiet :
  forall X (c : eff X), contour_eff c = true -> quiet c = true.
Proof.
  intros X c; destruct c; simpl; auto. destruct c; simpl; auto.
Qed.

Lemma process_contours_asks :
  forall cvar img_grey contours img_stars,
    emits contour_eff (process_contours cvar img_grey contours img_stars).
Proof.
  intros cvar img_grey contours.
  induction contours as [| c contours' IH]; intros img_stars; simpl.
  - exact I.
  - split; [reflexivity |]. intros M.
    destruct (PrimFloat.ltb 0 (m00 M)); [| apply IH].
    repeat (apply emits_bind;
            [first [apply emits_py_truediv | apply emits_py_square]
            | intros]).
    apply (emits_bind contour_eff (call _)); [| intros; apply IH].
    simpl; split; [reflexivity | intros; exact I].
Qed.

Lemma quiet_process_contours :
  forall cvar img_grey contours img_stars,
    emits quiet (process_contours cvar img_grey contours img_stars).
Proof.
  intros. eapply emits_weaken; [exact contour_eff_quiet |].
  apply process_contours_asks.
Qed.

#[local] Hint Resolve quiet_capture quiet_preprocess quiet_process_contours
  : emits.

Lemma quiet_solve :
  forall cvar self img, emits quiet (solve cvar self img).
Proof.
  intros. unfold solve, astype, engine_obj. emits_auto.
Qed.

Lemma quiet_modify : forall self s, emits quiet (modify self s).
Proof. intros. unfold modify. emits_auto. Qed.

#[local] Hint Resolve quiet_solve quiet_modify : emits.

Lemma quiet_error : forall self s, emits quiet (error self s).
Proof. intros. unfold error. emits_auto. Qed.

#[local] Hint Resolve quiet_error : emits.

Lemma matchless_debug_inside :
  forall method, emits matchless (debug_inside method).
Proof. intros. unfold debug_inside, DEBUG_ENABLED. repeat step_emits. Qed.

Lemma matchless_debug_end :
  forall method, emits matchless (debug_end method).
Proof. intros. unfold debug_end, DEBUG_ENABLED. repeat step_emits. Qed.

#[local] Hint Resolve matchless_debug_inside matchless_debug_end : emits.

Lemma matchless_capture : forall self, emits matchless (capture self).
Proof. intros. unfold capture, random_choice. emits_auto. Qed.

Lemma matchless_preprocess :
  forall self img, emits matchless (preprocess self img).
Proof. intros. unfold preprocess, unpack_shape. emits_auto. Qed.

Lemma matchless_error : forall self s, emits matchless (error self s).
Proof. intros. unfold error, modify. emits_auto. Qed.

(** ** Floats *)

Arguments float_of_Z : simpl never.

(** A divisor that passed [M["m00"] > 0] is not zero. *)
Lemma positive_float_is_not_zero :
  forall x : float, PrimFloat.ltb 0 x = true -> PrimFloat.eqb x 0 = false.
Proof.
  intros x. rewrite ltb_spec, eqb_spec.
  change (Prim2SF 0) with (S754_zero false).
  destruct (Prim2SF x) as [s | s | | s m e]; simpl;
    try discriminate; try reflexivity; destruct s; simpl;
    try discriminate; reflexivity.
Qed.

Lemma py_truediv_guarded :
  forall a b : float,
    PrimFloat.ltb 0 b = true -> py_truediv a b = Ret (a / b)%float.
Proof.
  intros a b H. unfold py_truediv.
  rewrite (positive_float_is_not_zero H). reflexivity.
Qed.

(** ** The replies of the engine *)

Lemma matches_so_far_app :
  forall new old,
    matches_so_far (new ++ old) = matches_so_far old ++ matches_so_far new.
Proof.
  induction new as [| e new IH]; intros old; simpl.
  - rewrite app_nil_r. reflexivity.
  - rewrite IH, app_assoc. reflexivity.
Qed.

Lemma contour_events_have_no_match :
  forall new,
    Forall (event_ok contour_eff) new -> matches_so_far new = [].
Proof.
  induction 1 as [| e new He _ IH]; simpl; auto.
  rewrite IH. simpl. destruct e as [t X c x]. simpl in *.
  destruct c; simpl in *; try discriminate.
  destruct c; simpl in *; try discriminate; reflexivity.
Qed.

(** ** Stepping through a run *)

Lemma run_call :
  forall env t (A X : Type) (c : ext X) (k : X -> prog A) w,
    run env t (Vis (Ext c) k) w
    = run env t (k (env X c (ticks w))) (answered t c (env X c (ticks w)) w).
Proof. reflexivity. Qed.

Lemma run_get_stack :
  forall env t (A : Type) (k : Z -> prog A) w,
    run env t (Vis GetStackLayers k) w
    = run env t (k (STACK_LAYERS w)) (stack_read t w).
Proof. reflexivity. Qed.

Lemma run_set_stack :
  forall env t (A : Type) n (k : unit -> prog A) w,
    run env t (Vis (SetStackLayers n) k) w = run env t (k tt) (stack_set t n w).
Proof. reflexivity. Qed.

Lemma run_get_attr :
  forall env t (A : Type) a (k : pyval -> prog A) w,
    run env t (Vis (GetAttr a) k) w
    = run env t (k (get_attr (server w) a)) (attr_read t a w).
Proof. reflexivity. Qed.

Lemma run_set_attr :
  forall env t (A : Type) a v (k : unit -> prog A) w,
    run env t (Vis (SetAttr a v) k) w = run env t (k tt) (attr_set t a v w).
Proof. reflexivity. Qed.

Lemma run_acquire :
  forall env t (A : Type) (k : unit -> prog A) w,
    st_lock w = None ->
    run env t (Vis LockAcquire k) w = run env t (k tt) (locked t w).
Proof. intros. simpl. unfold handle. simpl. rewrite H. reflexivity. Qed.

Lemma run_acquire_held :
  forall env t (A : Type) (k : unit -> prog A) w holder,
    st_lock w = Some holder ->
    run env t (Vis LockAcquire k) w = (Blocked, w).
Proof. intros. simpl. unfold handle. simpl. rewrite H. reflexivity. Qed.

Lemma run_release :
  forall env t (A : Type) (k : unit -> prog A) w holder,
    st_lock w = Some holder ->
    run env t (Vis LockRelease k) w = run env t (k tt) (unlocked t w).
Proof. intros. simpl. unfold handle. simpl. rewrite H. reflexivity. Qed.

Lemma run_ret :
  forall env t (A : Type) (a : A) w, run env t (Ret a) w = (Done a, w).
Proof. reflexivity. Qed.

Lemma run_raise :
  forall env t (A : Type) e w, run env t (@Raise A e) w = (Raised e, w).
Proof. reflexivity. Qed.

Lemma load_global_time : load_global "time" = Ret (VModule "time").
Proof. reflexivity. Qed.

Lemma load_global_p_solve : load_global "p_solve" = Raise (NameError "p_solve").
Proof. reflexivity. Qed.

(** One step of a run; the reply of a library becomes a variable. *)
Ltac run_step :=
  match goal with
  | |- context [run ?env ?t (Ret ?a) ?w] => rewrite (run_ret env t a w)
  | |- context [run ?env ?t (@Raise ?A ?e) ?w] =>
      rewrite (@run_raise env t A e w)
  | |- context [run ?env ?t (Vis (Ext ?c) ?k) ?w] =>
      rewrite (run_call env t c k w);
      let x := fresh "reply" in
      generalize (env _ c (ticks w)); intro x
  | |- context [run ?env ?t (Vis GetStackLayers ?k) ?w] =>
      rewrite (run_get_stack env t k w)
  | |- context [run ?env ?t (Vis (SetStackLayers ?n) ?k) ?w] =>
      rewrite (run_set_stack env t n k w)
  | |- context [run ?env ?t (Vis (GetAttr ?a) ?k) ?w] =>
      rewrite (run_get_attr env t a k w)
  | |- context [run ?env ?t (Vis (SetAttr ?a ?v) ?k) ?w] =>
      rewrite (run_set_attr env t a v k w)
  end;
  cbn [STACK_LAYERS server st_lock answered stack_read stack_set
       attr_read attr_set locked unlocked bind];
  try unfold call; try unfold perform.

Ltac unfold_debug :=
  unfold debug_inside, debug_end, DEBUG_ENABLED; cbn [bind perform call].

(** ** The loop over the contours *)

Lemma py_square_in_range :
  forall x : float,
    PrimFloat.is_finite (x * x) = true -> py_square x = Ret (x * x)%float.
Proof.
  intros x H. unfold py_square. unfold PrimFloat.is_finite in H.
  apply negb_true_iff, orb_false_iff in H. destruct H as [_ H].
  rewrite H, andb_false_r. reflexivity.
Qed.

(** With powers in range the loop returns. *)
Lemma process_contours_returns :
  forall cvar (env : oracle) t img_grey contours img_stars w,
    moments_in_range env ->
    exists stars,
      fst (run env t (process_contours cvar img_grey contours img_stars) w)
      = Done stars.
Proof.
  intros cvar env t img_grey contours img_stars w Hrange.
  revert img_stars w.
  induction contours as [| c contours IH]; intros img_stars w.
  - exists img_stars. reflexivity.
  - cbn [process_contours bind call perform]. rewrite run_call.
    pose proof (Hrange c (ticks w)) as Hr.
    set (M := env moments (cv2_moments c) (ticks w)) in *.
    destruct (PrimFloat.ltb 0 (m00 M)) eqn:Hm; [| apply IH].
    specialize (Hr eq_refl).
    cbv beta zeta delta [power_in_range] in Hr.
    apply andb_true_iff in Hr. destruct Hr as [Hx Hy].
    repeat (first [ rewrite py_truediv_guarded by exact Hm
                  | rewrite (py_square_in_range _ Hx)
                  | rewrite (py_square_in_range _ Hy) ];
            cbn [bind]).
    rewrite run_call. apply IH.
Qed.

(** Whatever the loop does, it asks the engine for no match. *)
Lemma process_contours_asks_no_match :
  forall env t cvar img_grey contours img_stars w,
    matches_so_far
      (trace (snd (run env t
                     (process_contours cvar img_grey contours img_stars) w)))
    = matches_so_far (trace w).
Proof.
  intros env t cvar img_grey contours img_stars w.
  destruct (emits_run contour_eff env t _ w
              (process_contours_asks cvar img_grey contours img_stars))
    as [new [Htr Hnew]].
  rewrite Htr, matches_so_far_app, (contour_events_have_no_match Hnew).
  apply app_nil_r.
Qed.

Lemma process_contours_run :
  forall env t cvar img_grey contours img_stars w,
    moments_in_range env ->
    exists stars w',
      run env t (process_contours cvar img_grey contours img_stars) w
      = (Done stars, w')
      /\ server w' = server w
      /\ st_lock w' = st_lock w
      /\ matches_so_far (trace w') = matches_so_far (trace w).
Proof.
  intros env t cvar img_grey contours img_stars w Hrange.
  set (p := process_contours cvar img_grey contours img_stars).
  destruct (@process_contours_returns cvar env t img_grey contours
              img_stars w Hrange) as [stars Hs].
  destruct (local_run env t p w
              (quiet_is_local p (quiet_process_contours _ _ _ _)))
    as [_ [Hsrv Hlock]].
  pose proof (process_contours_asks_no_match env t cvar img_grey contours
                img_stars w) as Hm.
  fold p in Hs, Hm.
  destruct (run env t p w) as [o w'] eqn:E. cbn [fst snd] in *. subst o.
  exists stars, w'. repeat split; auto.
Qed.

(** ** [solve] on a frame *)

Lemma solve_run :
  forall cvar env t self img median w c_db sq_results,
    C_DB self = Some c_db ->
    SQ_RESULTS self = Some sq_results ->
    MEDIAN_IMAGE self = Some median ->
    broadcast_shapes (shape img) (shape median) <> None ->
    moments_in_range env ->
    exists dec ra ori w' ms,
      run env t (solve cvar self (Some img)) w
      = (Done (dec, ra, ori, VModule "time"), w')
      /\ server w' = server w
      /\ st_lock w' = st_lock w
      /\ matches_so_far (trace w') = matches_so_far (trace w) ++ ms
      /\ solved cvar self ms (dec, ra, ori).
Proof.
  intros cvar env t self img median w c_db sq Hc Hs Hmed Hfit Hrange.
  unfold solve. rewrite Hc, Hs, Hmed, load_global_time.
  unfold astype, engine_obj, np_subtract.
  destruct (broadcast_shapes (shape img) (shape median)) as [fit |] eqn:Hsh;
    [| contradiction].
  unfold_debug.
  repeat run_step. rewrite Hsh. cbn [bind]. repeat run_step.
  match goal with
  | |- context [let (_, _) := ?r in _] => destruct r as [ret thresh]
  end.
  run_step. rewrite run_bind.
  match goal with
  | |- context [run env t (process_contours ?c ?g ?cs ?s) ?w0] =>
      destruct (@process_contours_run env t c g cs s w0 Hrange)
        as [stars [w1 [Hrun [Hsrv [Hlock Hms]]]]]
  end.
  rewrite Hrun. cbn in Hsrv, Hlock, Hms. rewrite ?app_nil_r in Hms.
  repeat run_step.
  match goal with
  | |- context [accepts_coarse cvar self ?m] =>
      set (lis := m); destruct (accepts_coarse cvar self lis) eqn:Hcoarse
  end; cbn [bind].
  - repeat run_step.
    match goal with
    | |- context [accepts_refined self ?m] =>
        set (near := m); destruct (accepts_refined self near) eqn:Hrefined
    end; cbn [bind].
    all: repeat run_step.
    all: 
      do 4 eexists; exists (lis :: near :: nil); (split; [reflexivity |]); cbn;
      rewrite Hms, Hsrv, Hlock; (repeat split; auto);
      try (rewrite <- !app_assoc; reflexivity);
      unfold accepts_refined in Hrefined; rewrite Hrefined; reflexivity.
  - repeat run_step.
    do 4 eexists; exists (lis :: nil); (split; [reflexivity |]); cbn.
    rewrite Hms, Hsrv, Hlock. repeat split; auto; 
      rewrite ?app_nil_r; auto.
Qed.

(** What [solve] has done when it returns. *)
Lemma solve_done :
  forall cvar env t self img w d r o l w',
    run env t (solve cvar self img) w = (Done (d, r, o, l), w') ->
    l = VModule "time"
    /\ exists ms,
        matches_so_far (trace w') = matches_so_far (trace w) ++ ms
        /\ solved cvar self ms (d, r, o).
Proof.
  intros cvar env t self img w d r o l w'.
  unfold solve. rewrite load_global_time.
  unfold astype, engine_obj, np_subtract. unfold_debug.
  destruct img as [img |]; [| repeat run_step; discriminate].
  repeat run_step.
  destruct (MEDIAN_IMAGE self) as [median |];
    [ destruct (broadcast_shapes (shape img) (shape median))
    | destruct (np_size img =? 0)%Z ];
    cbn [bind]; try (rewrite run_raise; discriminate).
  all: repeat run_step.
  all: match goal with
       | |- context [let (_, _) := ?x in _] => destruct x as [ret thresh]
       end.
  all: run_step; rewrite run_bind.
  all: match goal with
       | |- context [run ?E ?T (process_contours ?c ?g ?cs ?s) ?w0] =>
           pose proof (process_contours_asks_no_match E T c g cs s w0)
             as Hms;
           destruct (run E T (process_contours c g cs s) w0)
             as [[stars | e |] w1]
       end; try discriminate.
  all: cbn [snd] in Hms; cbn [trace answered stack_set stack_read] in Hms.
  all: repeat run_step.
  all: destruct (C_DB self) as [c_db |]; cbn [bind];
         [| rewrite run_raise; discriminate].
  all: repeat run_step.
  all: match goal with
       | |- context [accepts_coarse ?C ?S ?m] =>
           set (lis := m);
           destruct (accepts_coarse C S lis) eqn:Hcoarse
       end; cbn [bind].
  all: try (destruct (SQ_RESULTS self) as [sq |]; cbn [bind];
            [| rewrite run_raise; discriminate]).
  all: repeat run_step.
  all: try match goal with
           | |- context [accepts_refined ?S ?m] =>
               set (near := m);
               destruct (accepts_refined S near) eqn:Hrefined
           end; cbn [bind].
  all: repeat run_step.
  all: intros H; inversion H; subst; clear H; (split; [reflexivity |]).
  all: first [ exists [lis; near] | exists [lis] ].
  all: cbn [trace answered stack_set stack_read matches_so_far match_reply
            app];
       rewrite Hms; cbn [matches_so_far match_reply app];
       rewrite ?app_nil_r, <- ?app_assoc; (split; [reflexivity |]);
       cbn [solved]; (split; [exact Hcoarse |]);
       try rewrite Hrefined; reflexivity.
Qed.

Lemma colour_frame_is_not_empty :
  forall a, colour_frame a = true -> (np_size a =? 0)%Z = false.
Proof.
  intros a. unfold colour_frame, np_size.
  destruct (shape a) as [| h [| w [| c [| x rest]]]]; try discriminate.
  intros H. apply andb_true_iff in H. destruct H as [H Hc].
  apply andb_true_iff in H. destruct H as [Hh Hw].
  apply Z.ltb_lt in Hh. apply Z.ltb_lt in Hw.
  apply Z.eqb_neq. cbn [fold_right].
  apply orb_true_iff in Hc. destruct Hc as [Hc | Hc];
    apply Z.eqb_eq in Hc; subst c; nia.
Qed.

(** C3, as stated, fails: [solve] raises.  On a solver that [startup] has
    started with the sample directory [/samples/] and a median image of
    2 x 2 pixels, [solve] ends with [ValueError] on a colour frame of 2 x 3
    pixels; and when [cv2.imread] could not read the median image,
    [startup] returns all the same and [solve] then ends with [TypeError] on
    the frame of 2 x 2 pixels. *)
Lemma solve_raises_without_a_fitting_median_image :
  (started Scenario.playback
   /\ colour_frame wide_frame = true
   /\ fst (run Scenario.clear_sky Worker
             (solve Scenario.cvar Scenario.playback (Some wide_frame))
             world_init)
      = Raised (ValueError "operands could not be broadcast together"))
  /\ (let booted :=
        run unreadable_median Worker
          (startup Scenario.cvar StarTracker_init "/median.png"
             "/calibration.txt" "/hip_main.dat" (Some "/samples/"))
          world_init in
      fst booted = Done blind
      /\ started blind
      /\ colour_frame Scenario.frame = true
      /\ fst (run unreadable_median Worker
                (solve Scenario.cvar blind (Some Scenario.frame))
                (snd booted))
         = Raised
             (TypeError
                "unsupported operand type(s) for -: 'int' and 'NoneType'")).
Proof.
  split.
  - split; [split; discriminate |]. split; vm_compute; reflexivity.
  - cbv zeta. split; [vm_compute; reflexivity |].
    split; [split; discriminate |]. split; vm_compute; reflexivity.
Qed.

(** C3, amended: [solve] handles no error, and returns exactly when the
    frame fits the median image.  On a started solver, for a colour frame
    and contours whose centroids have powers in range: when no median image
    was loaded [solve] raises [TypeError]; when the shape of the frame does
    not fit the shape of the median image it raises [ValueError]; otherwise
    it returns a solution, and a stage that does not clear its bar gives the
    invalid solution, the all-zero triple: when the coarse match is refused
    the engine is asked once, when it is accepted the engine is asked a
    second time and a refused refined match gives the all-zero triple
    although the coarse match existed. *)
Theorem solve_returns_exactly_when_the_frame_fits_the_median_image :
  forall cvar (env : oracle) t self (img : ndarray) w,
    started self ->
    colour_frame img = true ->
    moments_in_range env ->
    match MEDIAN_IMAGE self with
    | None =>
        fst (run env t (solve cvar self (Some img)) w)
        = Raised (TypeError
                    "unsupported operand type(s) for -: 'int' and 'NoneType'")
    | Some median =>
        colour_frame median = true ->
        match broadcast_shapes (shape img) (shape median) with
        | None =>
            fst (run env t (solve cvar self (Some img)) w)
            = Raised (ValueError "operands could not be broadcast together")
        | Some _ =>
            exists dec ra ori w' ms,
              run env t (solve cvar self (Some img)) w
              = (Done (dec, ra, ori, VModule "time"), w')
              /\ matches_so_far (trace w') = matches_so_far (trace w) ++ ms
              /\ ((exists lis,
                      ms = [lis] /\ accepts_coarse cvar self lis = false
                      /\ (dec, ra, ori) = (0%float, 0%float, 0%float))
                  \/ (exists lis near,
                         ms = [lis; near]
                         /\ accepts_coarse cvar self lis = true
                         /\ accepts_refined self near = false
                         /\ (dec, ra, ori) = (0%float, 0%float, 0%float))
                  \/ (exists lis near,
                         ms = [lis; near]
                         /\ accepts_coarse cvar self lis = true
                         /\ accepts_refined self near = true
                         /\ (dec, ra, ori)
                            = (winner_get_dec near, winner_get_ra near,
                               winner_get_ori near)))
        end
    end.
Proof.
  intros cvar env t self img w [Hc Hs] Hcol Hrange.
  destruct (C_DB self) as [c_db |] eqn:Ec; [| contradiction].
  destruct (SQ_RESULTS self) as [sq |] eqn:Es; [| contradiction].
  destruct (MEDIAN_IMAGE self) as [median |] eqn:Em.
  - intros _.
    destruct (broadcast_shapes (shape img) (shape median)) as [fit |] eqn:Eb.
    + assert (Hfit : broadcast_shapes (shape img) (shape median) <> None)
        by (rewrite Eb; discriminate).
      destruct (@solve_run cvar env t self img median w c_db sq Ec Es Em
                  Hfit Hrange)
        as [dec [ra [ori [w' [ms [Hrun [_ [_ [Hms Hsolved]]]]]]]]].
      exists dec, ra, ori, w', ms.
      split; [exact Hrun |]. split; [exact Hms |].
      destruct ms as [| lis [| near [| extra ms]]]; simpl in Hsolved;
        try contradiction.
      * left. exists lis. destruct Hsolved. auto.
      * right. destruct Hsolved as [Hcoarse Hangles].
        destruct (accepts_refined self near) eqn:Hrefined.
        -- right. exists lis, near. auto.
        -- left. exists lis, near. auto.
    + unfold solve, astype, np_subtract. rewrite Em. unfold_debug.
      repeat run_step. rewrite Eb. cbn [bind]. rewrite run_raise.
      reflexivity.
  - unfold solve, astype, np_subtract. rewrite Em. unfold_debug.
    repeat run_step. rewrite (colour_frame_is_not_empty _ Hcol).
    cbn [bind]. rewrite run_raise. reflexivity.
Qed.

Lemma solve_returns_exactly_when_the_frame_fits_the_median_image_witness :
  started Scenario.playback
  /\ colour_frame Scenario.frame = true
  /\ moments_in_range Scenario.unconfirmed_sky
  /\ exists dec ra ori w' ms,
      run Scenario.unconfirmed_sky Worker
        (solve Scenario.cvar Scenario.playback (Some Scenario.frame))
        world_init
      = (Done (dec, ra, ori, VModule "time"), w')
      /\ matches_so_far (trace w') = matches_so_far (trace world_init) ++ ms
      /\ ((exists lis,
              ms = [lis]
              /\ accepts_coarse Scenario.cvar Scenario.playback lis = false
              /\ (dec, ra, ori) = (0%float, 0%float, 0%float))
          \/ (exists lis near,
                 ms = [lis; near]
                 /\ accepts_coarse Scenario.cvar Scenario.playback lis = true
                 /\ accepts_refined Scenario.playback near = false
                 /\ (dec, ra, ori) = (0%float, 0%float, 0%float))
          \/ (exists lis near,
                 ms = [lis; near]
                 /\ accepts_coarse Scenario.cvar Scenario.playback lis = true
                 /\ accepts_refined Scenario.playback near = true
                 /\ (dec, ra, ori)
                    = (winner_get_dec near, winner_get_ra near,
                       winner_get_ori near))).
Proof.
  assert (H1 : started Scenario.playback) by (split; discriminate).
  assert (H2 : colour_frame Scenario.frame = true) by reflexivity.
  assert (H3 : moments_in_range Scenario.unconfirmed_sky)
    by (intros c n _; reflexivity).
  split; [exact H1 |]. split; [exact H2 |]. split; [exact H3 |].
  exact (@solve_returns_exactly_when_the_frame_fits_the_median_image
           Scenario.cvar Scenario.unconfirmed_sky Worker Scenario.playback
           Scenario.frame world_init H1 H2 H3 eq_refl).
Defined.

(** ** What a program returns *)

Lemma returns_bind :
  forall (A B : Type) (Q : B -> Prop) (m : prog A) (k : A -> prog B),
    (forall a, returns Q (k a)) -> returns Q (bind m k).
Proof.
  induction m as [a | e | X c k' IH]; simpl; intros k Hk; auto.
Qed.

Lemma returns_run :
  forall env t (A : Type) (Q : A -> Prop) (p : prog A) w,
    returns Q p ->
    match fst (run env t p w) with
    | Done a => Q a
    | _ => True
    end.
Proof.
  induction p as [a | e | X c k IH]; simpl; intros w Hp; auto.
  destruct (handle env t c w) as [x w' | | e]; simpl; auto.
  apply IH, Hp.
Qed.

(** C6: the duration that [solve] returns is not the elapsed time of the
    call: [runtime] is computed and dropped, and the fourth component of
    every result is the module [time]. *)
Theorem solve_returns_the_time_module :
  forall cvar env t self img w,
    match fst (run env t (solve cvar self img) w) with
    | Done (_, _, _, duration) =>
        duration = VModule "time"
        /\ forall elapsed : float, duration <> VFloat elapsed
    | _ => True
    end.
Proof.
  intros cvar env t self img w.
  apply (returns_run env t
           (fun r : float * float * float * pyval =>
              let '(_, _, _, duration) := r in
              duration = VModule "time"
              /\ forall elapsed : float, duration <> VFloat elapsed)).
  unfold solve.
  repeat first
    [ match goal with
      | |- returns _ (bind (load_global _) _) =>
          rewrite load_global_time; cbn [bind]
      end
    | apply returns_bind; intros
    | match goal with
      | |- returns _ (match ?x with _ => _ end) => destruct x
      end ].
  all: simpl; split; [reflexivity | discriminate].
Qed.

(** The same on a frame of a known sky: the clock reads 1 when [solve]
    starts and 24 when it ends, and the result carries neither. *)
Example solve_duration_on_a_clear_sky :
  fst (run Scenario.clear_sky Worker
         (solve Scenario.cvar Scenario.playback (Some Scenario.frame))
         world_init)
  = Done (0.25%float, 1.5%float, 0.125%float, VModule "time").
Proof. vm_compute. reflexivity. Qed.

(** ** [capture] *)

(** C10: without a sample directory [capture] returns [(None, None)], no
    source identifier and no frame; it does not raise, and the only calls it
    makes are the two [print]s of the trace: no camera and no file is read. *)
Theorem capture_without_sample_dir :
  forall env t self w,
    SAMPLE_DIR self = None ->
    run env t (capture self) w
    = (Done (VNone, None),
       {| server := server w;
          st_lock := st_lock w;
          STACK_LAYERS := STACK_LAYERS w + 1 - 1;
          ticks := S (S (ticks w));
          trace :=
            [ Ev t (Ext (py_print (spaces (STACK_LAYERS w + 1 - 1)
                                   ++ "End StarTracker.capture")%string)) tt;
              Ev t GetStackLayers (STACK_LAYERS w + 1 - 1)%Z;
              Ev t (SetStackLayers (STACK_LAYERS w + 1 - 1)) tt;
              Ev t GetStackLayers (STACK_LAYERS w + 1)%Z;
              Ev t (SetStackLayers (STACK_LAYERS w + 1)) tt;
              Ev t GetStackLayers (STACK_LAYERS w);
              Ev t (Ext (py_print (spaces (STACK_LAYERS w)
                                   ++ "Inside StarTracker.capture")%string))
                tt;
              Ev t GetStackLayers (STACK_LAYERS w) ]
            ++ trace w |}).
Proof.
  intros env t self w H. unfold capture. rewrite H. unfold_debug. cbn.
  repeat match goal with
         | |- context [env unit ?c ?n] => destruct (env unit c n)
         end.
  reflexivity.
Qed.

Lemma capture_without_sample_dir_witness :
  SAMPLE_DIR Scenario.live = None
  /\ fst (run Scenario.clear_sky Worker (capture Scenario.live) world_init)
     = Done (VNone, None).
Proof.
  split; [reflexivity |].
  rewrite (capture_without_sample_dir Scenario.clear_sky Worker
             Scenario.live world_init eq_refl).
  reflexivity.
Defined.

(** ** [preprocess] *)

Arguments py_int : simpl never.

(** C5: a dark frame of zero variance has too few stars.  When the number
    of dark pixels of the frame exceeds the upper bound [blur_check] and the
    blur metric of the frame is exactly 0, [preprocess] returns ["image
    contains too few stars"], and so not ["image too blurry"]. *)
Theorem dark_frame_of_zero_variance_has_too_few_stars :
  forall env t self img height width channels blur_check too_many_check w,
    shape img = [height; width; channels] ->
    py_int (float_of_Z (height * width) * blur_fraction)%float
    = Ret blur_check ->
    py_int (float_of_Z (height * width) * too_many_fraction)%float
    = Ret too_many_check ->
    (forall n1 n2 n3,
        (height * width - bright_pixels env img n1 n2 n3 > blur_check)%Z) ->
    (forall n1 n2, PrimFloat.eqb (blur_metric env img n1 n2) 0 = true) ->
    fst (run env t (preprocess self (Some img)) w)
    = Done "image contains too few stars"
    /\ fst (run env t (preprocess self (Some img)) w)
       <> Done "image too blurry".
Proof.
  intros env t self img height width channels blur_check too_many_check w
    Hshape Hblur Hmany Hdark Hzero.
  assert (H : fst (run env t (preprocess self (Some img)) w)
              = Done "image contains too few stars").
  { unfold preprocess, unpack_shape. rewrite Hshape. unfold_debug.
    repeat rewrite run_get_stack || rewrite run_set_stack || rewrite run_call.
    cbn [bind]. rewrite Hblur. cbn [bind]. rewrite Hmany. cbn [bind].
    repeat rewrite run_call.
    match goal with
    | |- context [env (float * ndarray)%type ?c ?n] =>
        destruct (env (float * ndarray)%type c n) as [ret threshold] eqn:Et
    end.
    rewrite run_call.
    match goal with
    | |- context [env Z (cv2_countNonZero threshold) ?n3] =>
        match type of Et with
        | env _ (cv2_threshold (env _ _ ?n1) _ _) ?n2 = _ =>
            pose proof (Hdark n1 n2 n3) as Hd
        end
    end.
    unfold bright_pixels, luminance in Hd. rewrite Et in Hd. simpl snd in Hd.
    apply Z.gtb_gt in Hd. rewrite Hd. rewrite run_call.
    match goal with
    | |- context [env float (cv2_Laplacian_var (env _ _ ?n1)) ?n2] =>
        pose proof (Hzero n1 n2) as Hz
    end.
    unfold blur_metric, luminance in Hz. rewrite Hz. reflexivity. }
  split; [exact H |]. rewrite H. discriminate.
Qed.

Lemma dark_frame_of_zero_variance_has_too_few_stars_witness :
  fst (run Scenario.lens_cap Worker
         (preprocess Scenario.playback (Some Scenario.frame)) world_init)
  = Done "image contains too few stars"
  /\ fst (run Scenario.lens_cap Worker
            (preprocess Scenario.playback (Some Scenario.frame)) world_init)
     <> Done "image too blurry".
Proof.
  apply (dark_frame_of_zero_variance_has_too_few_stars
           Scenario.lens_cap Worker Scenario.playback Scenario.frame
           (height := 2) (width := 2) (channels := 3)
           (blur_check := 3) (too_many_check := 3) world_init).
  - reflexivity.
  - vm_compute. reflexivity.
  - vm_compute. reflexivity.
  - intros n1 n2 n3. vm_compute. reflexivity.
  - intros n1 n2. vm_compute. reflexivity.
Defined.

(** ** The two halves of a pass *)

Lemma total_debug_inside : forall method, total (debug_inside method).
Proof. intros. unfold debug_inside, DEBUG_ENABLED. simpl. auto. Qed.

Lemma total_debug_end : forall method, total (debug_end method).
Proof. intros. unfold debug_end, DEBUG_ENABLED. simpl. auto. Qed.

Lemma total_error : forall self s, total (error self s).
Proof.
  intros. unfold error, modify.
  apply total_bind; [apply total_debug_inside | intros _].
  apply total_bind; [| intros _].
  - destruct (s =? "image too blurry");
      [| destruct (s =? "image contains too few stars")]; try exact I;
      (apply total_bind; [| intros; exact I]);
      (apply total_bind; [apply total_debug_inside | intros _]);
      (apply total_bind; [apply total_debug_end | intros _]); exact I.
  - apply total_bind; [apply total_debug_end | intros _]. exact I.
Qed.

(** The corrective action runs to its end and keeps to itself. *)
Lemma error_run :
  forall env t self s w,
    exists w' new,
      run env t (error self s) w = (Done 0%Z, w')
      /\ server w' = server w
      /\ st_lock w' = st_lock w
      /\ trace w' = new ++ trace w
      /\ Forall (event_ok quiet) new.
Proof.
  intros env t self s w.
  assert (Hr : returns (fun z : Z => z = 0%Z) (error self s)).
  { unfold error. apply returns_bind; intros.
    apply returns_bind; intros. apply returns_bind; intros. reflexivity. }
  apply (returns_run env t _ _ w) in Hr.
  pose proof (quiet_error self s) as Hq.
  destruct (local_total_run env t (error self s) w
              (quiet_is_local _ Hq) (total_error self s)) as [z Hz].
  destruct (local_run env t (error self s) w (quiet_is_local _ Hq))
    as [_ [Hsrv Hlock]].
  destruct (emits_run quiet env t (error self s) w Hq) as [new [Htr Hnew]].
  clear Hq.
  destruct (run env t (error self s) w) as [o w'] eqn:E.
  cbn [fst snd] in *. subst o. subst z.
  exists w', new. repeat split; auto.
Qed.

(** A rejected frame: after the corrective action, the lookup of the name
    [p_solve] in the argument of [logger.warning] raises. *)
Lemma reject_frame_run :
  forall env t st check w,
    exists w' new,
      run env t (reject_frame st check) w = (Raised (NameError "p_solve"), w')
      /\ server w' = server w
      /\ st_lock w' = st_lock w
      /\ trace w' = new ++ trace w
      /\ Forall (event_ok quiet) new.
Proof.
  intros env t st check w. unfold reject_frame.
  rewrite run_bind.
  destruct (error_run env t st check w)
    as [w' [new [Hrun [Hsrv [Hlock [Htr Hnew]]]]]].
  rewrite Hrun, load_global_p_solve. cbn [bind]. rewrite run_raise.
  exists w', new. auto.
Qed.

Lemma quiet_event_is_silent :
  forall e, event_ok quiet e ->
            is_properties_changed e = false /\ is_lock_or_sleep e = false.
Proof.
  intros [t X c x]. simpl. destruct c; simpl; try discriminate; auto.
  destruct c; simpl; try discriminate; auto.
Qed.

(** A solution that is all zero: stored, then reported as a bad solve, and
    the lookup of [p_solve] raises. *)
Lemma store_solution_bad :
  forall env t st d r o l w,
    is_all_zero d r o = true ->
    exists w' new,
      run env t (store_solution st (d, r, o, l)) w
      = (Raised (NameError "p_solve"), w')
      /\ server w' = with_solution (server w) d r o l
      /\ st_lock w' = st_lock w
      /\ trace w' = new ++ trace w
      /\ Forall (fun e => is_properties_changed e = false
                          /\ is_lock_or_sleep e = false) new.
Proof.
  intros env t st d r o l w Hz. unfold is_all_zero in Hz.
  apply andb_true_iff in Hz. destruct Hz as [Hz Ho].
  apply andb_true_iff in Hz. destruct Hz as [Hdr Hro].
  unfold store_solution, all_zero_test. cbn [bind perform call].
  repeat run_step. cbn [get_attr set_attr dec ra ori py_eq].
  rewrite Hdr. cbn [bind]. run_step.
  cbn [get_attr set_attr dec ra ori py_eq].
  rewrite Hro. cbn [bind py_eq]. rewrite Ho. rewrite run_bind.
  match goal with
  | |- context [run env t (error st ?s) ?w0] =>
      destruct (error_run env t st s w0)
        as [w' [new [Hrun [Hsrv [Hlock [Htr Hnew]]]]]]
  end.
  rewrite Hrun, load_global_p_solve. cbn [bind]. rewrite run_raise.
  exists w'.
  exists (new ++ [ Ev t (GetAttr self_ori) (VFloat o);
                   Ev t (GetAttr self_ra) (VFloat r);
                   Ev t (GetAttr self_dec) (VFloat d);
                   Ev t (SetAttr self_l_solve l) tt;
                   Ev t (SetAttr self_ori (VFloat o)) tt;
                   Ev t (SetAttr self_ra (VFloat r)) tt;
                   Ev t (SetAttr self_dec (VFloat d)) tt ]).
  split; [reflexivity |].
  rewrite Hsrv, Hlock, Htr. cbn.
  split; [reflexivity |]. split; [reflexivity |].
  split; [rewrite <- app_assoc; reflexivity |].
  apply Forall_app. split.
  - eapply Forall_impl; [| exact Hnew]. apply quiet_event_is_silent.
  - repeat constructor.
Qed.

(** A solution with an angle that is not zero: stored, stamped with the
    time, and, after the release of the lock, announced; then the sleep. *)
#[warnings="-inexact-float"]
Lemma store_solution_good :
  forall env t st d r o l w holder,
    is_all_zero d r o = false ->
    st_lock w = Some holder ->
    exists w' now reads,
      run env t (store_solution st (d, r, o, l)) w = (Done tt, w')
      /\ server w'
         = set_attr (with_solution (server w) d r o l) self_t_solve
             (VFloat now)
      /\ st_lock w' = None
      /\ trace w'
         = Ev t (Ext (time_sleep 0.5)) tt
           :: Ev t (Ext (PropertiesChanged interface_name
                           [("filepath", p_solve (server w))] [])) tt
           :: Ev t (GetAttr self_p_solve) (p_solve (server w))
           :: Ev t LockRelease tt
           :: Ev t (SetAttr self_t_solve (VFloat now)) tt
           :: Ev t (Ext time_time) now
           :: reads
              ++ [ Ev t (SetAttr self_l_solve l) tt;
                   Ev t (SetAttr self_ori (VFloat o)) tt;
                   Ev t (SetAttr self_ra (VFloat r)) tt;
                   Ev t (SetAttr self_dec (VFloat d)) tt ]
              ++ trace w
      /\ Forall (fun e => is_properties_changed e = false
                          /\ is_lock_or_sleep e = false) reads
      /\ matches_so_far reads = [].
Proof.
  intros env t st d r o l w holder Hz Hheld. unfold is_all_zero in Hz.
  unfold store_solution, all_zero_test. cbn [bind perform call].
  repeat run_step. cbn [get_attr set_attr dec ra ori py_eq].
  assert (Hpublish :
    forall reads w0,
      server w0 = with_solution (server w) d r o l ->
      st_lock w0 = Some holder ->
      trace w0 = reads
                 ++ [ Ev t (SetAttr self_l_solve l) tt;
                      Ev t (SetAttr self_ori (VFloat o)) tt;
                      Ev t (SetAttr self_ra (VFloat r)) tt;
                      Ev t (SetAttr self_dec (VFloat d)) tt ]
                 ++ trace w ->
      Forall (fun e => is_properties_changed e = false
                       /\ is_lock_or_sleep e = false) reads ->
      matches_so_far reads = [] ->
      exists w' now reads',
        run env t
          (now <- call time_time ;;
           perform (SetAttr self_t_solve (VFloat now)) ;;
           perform LockRelease ;;
           p_solve <- perform (GetAttr self_p_solve) ;;
           call (PropertiesChanged interface_name
                   [("filepath", p_solve)] []) ;;
           call (time_sleep 0.5))%prog w0
        = (Done tt, w')
        /\ server w'
           = set_attr (with_solution (server w) d r o l) self_t_solve
               (VFloat now)
        /\ st_lock w' = None
        /\ trace w'
           = Ev t (Ext (time_sleep 0.5)) tt
             :: Ev t (Ext (PropertiesChanged interface_name
                             [("filepath", p_solve (server w))] [])) tt
             :: Ev t (GetAttr self_p_solve) (p_solve (server w))
             :: Ev t LockRelease tt
             :: Ev t (SetAttr self_t_solve (VFloat now)) tt
             :: Ev t (Ext time_time) now
             :: reads'
                ++ [ Ev t (SetAttr self_l_solve l) tt;
                     Ev t (SetAttr self_ori (VFloat o)) tt;
                     Ev t (SetAttr self_ra (VFloat r)) tt;
                     Ev t (SetAttr self_dec (VFloat d)) tt ]
                ++ trace w
        /\ Forall (fun e => is_properties_changed e = false
                            /\ is_lock_or_sleep e = false) reads'
        /\ matches_so_far reads' = []).
  { intros reads w0 Hsrv Hlock Htr Hreads Hnone. cbn [bind perform call].
    run_step.
    match goal with x : float |- _ => rename x into now end.
    run_step.
    rewrite (@run_release env t _ _ _ holder) by exact Hlock.
    repeat run_step.
    repeat match goal with u : unit |- _ => destruct u end.
    exists (answered t (time_sleep 0.5) tt
              (answered t
                 (PropertiesChanged interface_name
                    [("filepath",
                      get_attr
                        (set_attr (server w0) self_t_solve (VFloat now))
                        self_p_solve)] []) tt
                 (attr_read t self_p_solve
                    (unlocked t (attr_set t self_t_solve (VFloat now)
                                   (answered t time_time now w0)))))).
    exists now, reads. split; [reflexivity |]. cbn. rewrite Hsrv, Htr.
    repeat split; auto. }
  destruct (PrimFloat.eqb d r) eqn:Hdr; cbn [bind].
  - run_step. cbn [get_attr set_attr dec ra ori py_eq].
    destruct (PrimFloat.eqb r o) eqn:Hro; cbn [bind].
    + simpl in Hz. rewrite Hz. cbn [bind].
      apply (Hpublish [ Ev t (GetAttr self_ori) (VFloat o);
                        Ev t (GetAttr self_ra) (VFloat r);
                        Ev t (GetAttr self_dec) (VFloat d) ]);
        try reflexivity; auto; repeat constructor.
    + apply (Hpublish [ Ev t (GetAttr self_ori) (VFloat o);
                        Ev t (GetAttr self_ra) (VFloat r);
                        Ev t (GetAttr self_dec) (VFloat d) ]);
        try reflexivity; auto; repeat constructor.
  - apply (Hpublish [ Ev t (GetAttr self_ra) (VFloat r);
                      Ev t (GetAttr self_dec) (VFloat d) ]);
      try reflexivity; auto; repeat constructor.
Qed.

(** What the run of a quiet program leaves behind. *)
Lemma quiet_run :
  forall env t (A : Type) (p : prog A) w o w',
    emits quiet p ->
    run env t p w = (o, w') ->
    o <> Blocked
    /\ server w' = server w
    /\ st_lock w' = st_lock w
    /\ exists new,
        trace w' = new ++ trace w
        /\ Forall (event_ok quiet) new
        /\ Forall (fun e => is_properties_changed e = false
                            /\ is_lock_or_sleep e = false) new.
Proof.
  intros env t A p w o w' Hq Hrun.
  destruct (local_run env t p w (quiet_is_local p Hq)) as [Hb [Hsrv Hlock]].
  destruct (emits_run quiet env t p w Hq) as [new [Htr Hnew]].
  rewrite Hrun in *. cbn [fst snd] in *.
  repeat split; auto. exists new. repeat split; auto.
  eapply Forall_impl; [| exact Hnew]. apply quiet_event_is_silent.
Qed.

(** Without a frame [preprocess] raises at [img.shape]. *)
Lemma preprocess_without_frame :
  forall env t self w,
    fst (run env t (preprocess self None) w)
    = Raised (AttributeError "NoneType" "shape").
Proof.
  intros. unfold preprocess, unpack_shape. unfold_debug.
  repeat run_step. reflexivity.
Qed.

Lemma matches_of_new_events :
  forall new old ms,
    matches_so_far (new ++ old) = matches_so_far old ++ ms ->
    matches_so_far new = ms.
Proof.
  intros new old ms H. rewrite matches_so_far_app in H.
  apply app_inv_head in H. exact H.
Qed.

Lemma matchless_events_have_no_match :
  forall new,
    Forall (event_ok matchless) new -> matches_so_far new = [].
Proof.
  induction 1 as [| e new He _ IH]; simpl; auto.
  rewrite IH. simpl. destruct e as [t X c x]. simpl in *.
  destruct c; simpl in *; try reflexivity.
  destruct c; simpl in *; try discriminate; reflexivity.
Qed.

Lemma matchless_run :
  forall env t (A : Type) (p : prog A) w new,
    emits matchless p ->
    trace (snd (run env t p w)) = new ++ trace w ->
    matches_so_far new = [].
Proof.
  intros env t A p w new Hp Htr.
  destruct (emits_run matchless env t p w Hp) as [new' [Htr' Hnew]].
  rewrite Htr in Htr'. apply app_inv_tail in Htr'. subst new'.
  apply matchless_events_have_no_match, Hnew.
Qed.

(** ** A pass that publishes *)

Section Pass.

Variable cvar : beast_cvar.
Variable st : StarTracker.
Variable env : oracle.
Variable t : tid.

(** The only pass that ends without an exception is the one that publishes:
    a frame was captured, judged good, solved to a triple that is not all
    zero, stored, stamped and announced.  The lock is taken first and given
    back after the time stamp; what happens in between is [inside]. *)
#[warnings="-inexact-float"]
Lemma pass_published :
  forall w w',
    started st ->
    st_lock w = None ->
    run env t (star_tracker_pass cvar st) w = (Done tt, w') ->
    exists path d r o now inside ms,
      server w'
      = set_attr
          (with_solution (set_attr (server w) self_p_solve path)
             d r o (VModule "time"))
          self_t_solve (VFloat now)
      /\ is_all_zero d r o = false
      /\ st_lock w' = None
      /\ trace w'
         = Ev t (Ext (time_sleep 0.5)) tt
           :: Ev t (Ext (PropertiesChanged interface_name
                           [("filepath", path)] [])) tt
           :: Ev t (GetAttr self_p_solve) path
           :: Ev t LockRelease tt
           :: inside ++ Ev t LockAcquire tt :: trace w
      /\ Forall (fun e => is_properties_changed e = false
                          /\ is_lock_or_sleep e = false) inside
      /\ matches_so_far inside = ms
      /\ solved cvar st ms (d, r, o).
Proof.
  intros w w' [Hc Hs] Hfree Hrun.
  destruct (C_DB st) as [c_db |] eqn:Ec; [| contradiction].
  destruct (SQ_RESULTS st) as [sq |] eqn:Es; [| contradiction].
  clear Hc Hs. unfold star_tracker_pass in Hrun.
  cbn [bind perform] in Hrun.
  rewrite run_acquire in Hrun by exact Hfree. rewrite run_bind in Hrun.
  destruct (run env t (capture st) (locked t w)) as [o1 w1] eqn:E1.
  destruct (@quiet_run env t _ _ _ _ _ (quiet_capture st) E1)
    as [_ [Hsrv1 [Hlock1 [new1 [Htr1 [_ Hnew1]]]]]].
  destruct o1 as [[path img] | e |]; try discriminate.
  cbn [bind perform] in Hrun. rewrite run_set_attr in Hrun.
  rewrite run_bind in Hrun.
  destruct (run env t (preprocess st img)
              (attr_set t self_p_solve path w1)) as [o2 w2] eqn:E2.
  destruct (@quiet_run env t _ _ _ _ _ (quiet_preprocess st img) E2)
    as [_ [Hsrv2 [Hlock2 [new2 [Htr2 [_ Hnew2]]]]]].
  destruct o2 as [check | e |]; try discriminate.
  destruct img as [img |];
    [| pose proof (preprocess_without_frame env t st
                     (attr_set t self_p_solve path w1)) as Hn;
       rewrite E2 in Hn; discriminate].
  destruct (negb (check =? "good")).
  { destruct (reject_frame_run env t st check w2) as [w3 [n3 [Hr _]]].
    rewrite Hr in Hrun. discriminate. }
  rewrite run_bind in Hrun.
  destruct (run env t (solve cvar st (Some img)) w2) as [o3 w3] eqn:E3.
  destruct o3 as [[[[d r] o] l] | e |]; try discriminate.
  destruct (@quiet_run env t _ _ _ _ _ (quiet_solve cvar st (Some img)) E3)
    as [_ [Hsrv3 [Hlock3 [new3 [Htr3 [_ Hnew3]]]]]].
  destruct (@solve_done _ _ _ _ _ _ _ _ _ _ _ E3)
    as [Hl [ms [Hms3 Hsolved]]].
  subst l.
  destruct (is_all_zero d r o) eqn:Hz.
  { destruct (store_solution_bad env t st d r o (VModule "time") w3 Hz)
      as [w4 [n4 [Hr _]]].
    rewrite Hr in Hrun. discriminate. }
  assert (Hheld : st_lock w3 = Some t).
  { rewrite Hlock3, Hlock2. cbn. rewrite Hlock1. reflexivity. }
  destruct (store_solution_good env t st d r o (VModule "time") w3 Hz Hheld)
    as [w4 [now [reads [Hr [Hsrv4 [Hlock4 [Htr4 [Hreads Hnone]]]]]]]].
  rewrite Hr in Hrun. inversion Hrun; subst w4; clear Hrun Hr.
  assert (Hserver : server w3 = set_attr (server w) self_p_solve path).
  { rewrite Hsrv3, Hsrv2. cbn. rewrite Hsrv1. reflexivity. }
  rewrite Htr3 in Hms3. apply matches_of_new_events in Hms3.
  exists path, d, r, o, now.
  exists (Ev t (SetAttr self_t_solve (VFloat now)) tt
          :: Ev t (Ext time_time) now
          :: reads
             ++ [ Ev t (SetAttr self_l_solve (VModule "time")) tt;
                  Ev t (SetAttr self_ori (VFloat o)) tt;
                  Ev t (SetAttr self_ra (VFloat r)) tt;
                  Ev t (SetAttr self_dec (VFloat d)) tt ]
             ++ new3 ++ new2
             ++ Ev t (SetAttr self_p_solve path) tt :: new1).
  exists ms. rewrite Hsrv4, Htr4, Hserver, Htr3, Htr2.
  cbn [trace attr_set locked p_solve set_attr]. rewrite Htr1.
  cbn [trace attr_set locked p_solve set_attr].
  split; [reflexivity |]. split; [exact Hz |]. split; [exact Hlock4 |].
  split.
  { repeat (progress (cbn [app]; rewrite <- ?app_assoc)). reflexivity. }
  split.
  { repeat first [ apply Forall_cons | apply Forall_app; split
                 | apply Forall_nil | assumption
                 | split; reflexivity ]. }
  split; [| exact Hsolved].
  assert (Hm1 : matches_so_far new1 = []).
  { apply (@matchless_run env t _ (capture st) (locked t w));
      [apply matchless_capture | rewrite E1; exact Htr1]. }
  assert (Hm2 : matches_so_far new2 = []).
  { apply (@matchless_run env t _ (preprocess st (Some img))
             (attr_set t self_p_solve path w1));
      [apply matchless_preprocess | rewrite E2; exact Htr2]. }
  cbn [matches_so_far match_reply]. rewrite !matches_so_far_app.
  cbn [matches_so_far match_reply]. rewrite Hm1, Hm2, Hnone, Hms3.
  cbn [app]. rewrite !app_nil_r. reflexivity.
Qed.

End Pass.

(** ** The lock *)




(** ** Valid, invalid and the all-zero triple *)

Lemma silent_events_announce_nothing :
  forall new,
    Forall (fun e => is_properties_changed e = false
                     /\ is_lock_or_sleep e = false) new ->
    announcements new = [].
Proof.
  induction 1 as [| e new [He _] _ IH]; simpl; auto.
  rewrite He. exact IH.
Qed.

(** C4, as stated, fails: on a frame that both stages match with
    confidence 0.999 on 6 stars, at declination, right ascension and
    orientation 0.0, the pass takes the branch of the bad solve: it
    announces nothing, ends in the exception of that branch, and leaves the
    server as the pass over a frame that the engine does not know does. *)
Lemma valid_solution_at_the_origin_is_a_bad_solve :
  let pass := star_tracker_pass Scenario.cvar Scenario.playback in
  let valid := run Scenario.origin_sky Worker pass world_init in
  let invalid := run Scenario.unknown_sky Worker pass world_init in
  (exists lis near,
      matches_so_far (trace (snd valid)) = [lis; near]
      /\ accepts_coarse Scenario.cvar Scenario.playback lis = true
      /\ accepts_refined Scenario.playback near = true
      /\ (winner_get_dec near, winner_get_ra near, winner_get_ori near)
         = (0%float, 0%float, 0%float))
  /\ fst valid = Raised (NameError "p_solve")
  /\ announcements (trace (snd valid)) = []
  /\ fst valid = fst invalid
  /\ server (snd valid) = server (snd invalid).
Proof.
  cbv zeta. split.
  - exists (Scenario.a_match Scenario.sure 6 0 0 0),
      (Scenario.a_match Scenario.sure 6 0 0 0).
    vm_compute. repeat split; reflexivity.
  - vm_compute. repeat split; reflexivity.
Qed.

(** C4, amended: the code keeps no validity flag; the all-zero triple is
    the invalid solution.  What [solve] returns is a triple of angles next to
    the module [time]: the angles of the refined match when both stages
    accepted, and the all-zero triple when a stage refused.  The pass treats
    the solution as failed exactly when [dec == ra == ori == 0.0], whether a
    stage refused or the refined match lies at the origin: then it announces
    nothing, leaves [t_solve] alone and ends, the lock still held, in the
    branch of the bad solve.  A solution with an angle that is not zero is
    stored, stamped with the time that [time.time()] gives after the stores,
    and announced once, with the path of the frame, after the lock was given
    back. *)
#[warnings="-inexact-float"]
Theorem pass_fails_a_solution_exactly_when_it_is_all_zero :
  forall cvar env t st img d r o l w w1 holder,
    st_lock w = Some holder ->
    run env t (solve cvar st img) w = (Done (d, r, o, l), w1) ->
    let result := run env t (store_solution st (d, r, o, l)) w1 in
    l = VModule "time"
    /\ (exists ms,
           matches_so_far (trace w1) = matches_so_far (trace w) ++ ms
           /\ solved cvar st ms (d, r, o))
    /\ if is_all_zero d r o then
         fst result = Raised (NameError "p_solve")
         /\ announcements (trace (snd result)) = announcements (trace w1)
         /\ t_solve (server (snd result)) = t_solve (server w)
         /\ st_lock (snd result) = Some holder
       else
         exists now after,
           fst result = Done tt
           /\ dec (server (snd result)) = VFloat d
           /\ ra (server (snd result)) = VFloat r
           /\ ori (server (snd result)) = VFloat o
           /\ t_solve (server (snd result)) = VFloat now
           /\ trace (snd result)
              = Ev t (Ext (time_sleep 0.5)) tt
                :: Ev t (Ext (PropertiesChanged interface_name
                                [("filepath", p_solve (server w))] [])) tt
                :: Ev t (GetAttr self_p_solve) (p_solve (server w))
                :: Ev t LockRelease tt
                :: Ev t (SetAttr self_t_solve (VFloat now)) tt
                :: Ev t (Ext time_time) now
                :: after
           /\ announcements (trace (snd result))
              = Ev t (Ext (PropertiesChanged interface_name
                             [("filepath", p_solve (server w))] [])) tt
                :: announcements (trace w1)
           /\ st_lock (snd result) = None.
Proof.
  intros cvar env t st img d r o l w w1 holder Hheld Hsolve result.
  subst result.
  destruct (@solve_done _ _ _ _ _ _ _ _ _ _ _ Hsolve) as [Hl Hms].
  destruct (@quiet_run env t _ _ _ _ _ (quiet_solve cvar st img) Hsolve)
    as [_ [Hsrv1 [Hlock1 _]]].
  split; [exact Hl |]. split; [exact Hms |].
  destruct (is_all_zero d r o) eqn:Hz.
  - destruct (store_solution_bad env t st d r o l w1 Hz)
      as [w' [new [Hrun [Hsrv [Hlock [Htr Hnew]]]]]].
    rewrite Hrun. cbn [fst snd]. split; [reflexivity |].
    rewrite Htr, Hsrv, Hlock, Hlock1, Hsrv1.
    unfold announcements. rewrite filter_app.
    fold (announcements new).
    rewrite (silent_events_announce_nothing Hnew).
    repeat split; auto.
  - assert (Hheld1 : st_lock w1 = Some holder) by congruence.
    destruct (store_solution_good env t st d r o l w1 Hz Hheld1)
      as [w' [now [reads [Hrun [Hsrv [Hlock [Htr [Hreads _]]]]]]]].
    rewrite Hrun. cbn [fst snd]. rewrite Htr, Hsrv, Hlock, Hsrv1.
    exists now. eexists.
    split; [reflexivity |].
    do 4 (split; [reflexivity |]).
    split; [reflexivity |]. split; [| reflexivity].
    unfold announcements. cbn [filter is_properties_changed].
    rewrite !filter_app. fold (announcements reads).
    rewrite (silent_events_announce_nothing Hreads). reflexivity.
Qed.

#[warnings="-inexact-float"]
Lemma pass_fails_a_solution_exactly_when_it_is_all_zero_witness :
  let w := locked Worker world_init in
  let solved_at env :=
    run env Worker
      (solve Scenario.cvar Scenario.playback (Some Scenario.frame)) w in
  let failed :=
    run Scenario.origin_sky Worker
      (store_solution Scenario.playback
         (0%float, 0%float, 0%float, VModule "time"))
      (snd (solved_at Scenario.origin_sky)) in
  let published :=
    run Scenario.clear_sky Worker
      (store_solution Scenario.playback
         (0.25%float, 1.5%float, 0.125%float, VModule "time"))
      (snd (solved_at Scenario.clear_sky)) in
  st_lock w = Some Worker
  /\ fst (solved_at Scenario.origin_sky)
     = Done (0%float, 0%float, 0%float, VModule "time")
  /\ fst (solved_at Scenario.clear_sky)
     = Done (0.25%float, 1.5%float, 0.125%float, VModule "time")
  /\ (fst failed = Raised (NameError "p_solve")
      /\ announcements (trace (snd failed))
         = announcements (trace (snd (solved_at Scenario.origin_sky)))
      /\ t_solve (server (snd failed)) = t_solve (server w)
      /\ st_lock (snd failed) = Some Worker)
  /\ (exists now after,
         fst published = Done tt
         /\ dec (server (snd published)) = VFloat 0.25
         /\ ra (server (snd published)) = VFloat 1.5
         /\ ori (server (snd published)) = VFloat 0.125
         /\ t_solve (server (snd published)) = VFloat now
         /\ trace (snd published)
            = Ev Worker (Ext (time_sleep 0.5)) tt
              :: Ev Worker
                   (Ext (PropertiesChanged interface_name
                           [("filepath", p_solve (server w))] [])) tt
              :: Ev Worker (GetAttr self_p_solve) (p_solve (server w))
              :: Ev Worker LockRelease tt
              :: Ev Worker (SetAttr self_t_solve (VFloat now)) tt
              :: Ev Worker (Ext time_time) now
              :: after
         /\ announcements (trace (snd published))
            = Ev Worker
                (Ext (PropertiesChanged interface_name
                        [("filepath", p_solve (server w))] [])) tt
              :: announcements (trace (snd (solved_at Scenario.clear_sky)))
         /\ st_lock (snd published) = None).
Proof.
  intros w solved_at failed published.
  assert (Hheld : st_lock w = Some Worker) by reflexivity.
  assert (Hbad :
    solved_at Scenario.origin_sky
    = (Done (0%float, 0%float, 0%float, VModule "time"),
       snd (solved_at Scenario.origin_sky)))
    by (vm_compute; reflexivity).
  assert (Hgood :
    solved_at Scenario.clear_sky
    = (Done (0.25%float, 1.5%float, 0.125%float, VModule "time"),
       snd (solved_at Scenario.clear_sky)))
    by (vm_compute; reflexivity).
  split; [exact Hheld |].
  split; [rewrite Hbad; reflexivity |].
  split; [rewrite Hgood; reflexivity |].
  split.
  - exact (proj2 (proj2
             (@pass_fails_a_solution_exactly_when_it_is_all_zero
                Scenario.cvar Scenario.origin_sky Worker Scenario.playback
                (Some Scenario.frame) 0%float 0%float 0%float
                (VModule "time") w (snd (solved_at Scenario.origin_sky))
                Worker Hheld Hbad))).
  - exact (proj2 (proj2
             (@pass_fails_a_solution_exactly_when_it_is_all_zero
                Scenario.cvar Scenario.clear_sky Worker Scenario.playback
                (Some Scenario.frame) 0.25%float 1.5%float 0.125%float
                (VModule "time") w (snd (solved_at Scenario.clear_sky))
                Worker Hheld Hgood))).
Defined.

(** ** What the failure paths store *)

(** C8, as stated, fails.  A rejected frame: the pass over a frame with
    every pixel above the cutoff ends as a rejection and has overwritten
    [p_solve].  A failed solve: after a pass that published the angles
    (0.25, 1.5, 0.125), a pass over a frame that the engine does not know
    has overwritten them with zeros. *)
Lemma failure_paths_overwrite_the_record :
  let pass := star_tracker_pass Scenario.cvar Scenario.playback in
  let rejected := run Scenario.daylight Worker pass world_init in
  let published := snd (run Scenario.clear_sky Worker pass world_init) in
  let failed := run Scenario.unknown_sky Worker pass published in
  (fst rejected = Raised (NameError "p_solve")
   /\ p_solve (server world_init) = VStr ""
   /\ p_solve (server (snd rejected)) = VStr "/samples/a.png")
  /\ (fst failed = Raised (NameError "p_solve")
      /\ st_lock published = None
      /\ dec (server published) = VFloat 0.25
      /\ dec (server (snd failed)) = VFloat 0
      /\ ra (server published) = VFloat 1.5
      /\ ra (server (snd failed)) = VFloat 0).
Proof. vm_compute. repeat split; reflexivity. Qed.

(** C8, amended: a rejected frame leaves [dec], [ra], [ori], [l_solve] and
    [t_solve] as they were and has set [p_solve] to the identifier of the
    captured frame; a failed solve has, besides, stored the result of the
    solve, the all-zero triple in [dec], [ra], [ori] and its fourth component
    in [l_solve]; [t_solve] is not touched on either path. *)
Theorem failure_paths_store_the_frame_and_the_zero_triple :
  forall cvar st env t w path img w1 check w2,
    st_lock w = None ->
    run env t (capture st) (locked t w) = (Done (path, img), w1) ->
    run env t (preprocess st img) (attr_set t self_p_solve path w1)
    = (Done check, w2) ->
    (check <> "good" ->
     exists w',
       run env t (star_tracker_pass cvar st) w
       = (Raised (NameError "p_solve"), w')
       /\ server w' = set_attr (server w) self_p_solve path)
    /\ (check = "good" ->
        forall d r o l w3,
          run env t (solve cvar st img) w2 = (Done (d, r, o, l), w3) ->
          is_all_zero d r o = true ->
          exists w',
            run env t (star_tracker_pass cvar st) w
            = (Raised (NameError "p_solve"), w')
            /\ server w'
               = with_solution (set_attr (server w) self_p_solve path)
                   d r o l).
Proof.
  intros cvar st env t w path img w1 check w2 Hfree E1 E2.
  destruct (@quiet_run env t _ _ _ _ _ (quiet_capture st) E1)
    as [_ [Hsrv1 _]].
  destruct (@quiet_run env t _ _ _ _ _ (quiet_preprocess st img) E2)
    as [_ [Hsrv2 _]].
  assert (Hserver : server w2 = set_attr (server w) self_p_solve path).
  { rewrite Hsrv2. cbn. rewrite Hsrv1. reflexivity. }
  assert (Hpass :
    run env t (star_tracker_pass cvar st) w
    = run env t
        (if negb (check =? "good") then reject_frame st check
         else solution <- solve cvar st img ;; store_solution st solution)
        w2).
  { unfold star_tracker_pass. cbn [bind perform].
    rewrite run_acquire by exact Hfree. rewrite run_bind, E1.
    cbn [bind perform]. rewrite run_set_attr, run_bind, E2. reflexivity. }
  rewrite Hpass. split.
  - intros Hbad. apply String.eqb_neq in Hbad. rewrite Hbad. cbn [negb].
    destruct (reject_frame_run env t st check w2)
      as [w' [new [Hrun [Hsrv _]]]].
    exists w'. rewrite Hrun, Hsrv, Hserver. auto.
  - intros Hgood d r o l w3 E3 Hz. subst check.
    rewrite String.eqb_refl. cbn [negb].
    destruct (@quiet_run env t _ _ _ _ _ (quiet_solve cvar st img) E3)
      as [_ [Hsrv3 _]].
    rewrite run_bind, E3.
    destruct (store_solution_bad env t st d r o l w3 Hz)
      as [w' [new [Hrun [Hsrv _]]]].
    exists w'. rewrite Hrun, Hsrv, Hsrv3, Hserver. auto.
Qed.

Lemma failure_paths_store_the_frame_and_the_zero_triple_witness :
  (exists w',
      run Scenario.daylight Worker
        (star_tracker_pass Scenario.cvar Scenario.playback) world_init
      = (Raised (NameError "p_solve"), w')
      /\ server w'
         = set_attr (server world_init) self_p_solve
             (VStr "/samples/a.png"))
  /\ (exists w',
         run Scenario.unknown_sky Worker
           (star_tracker_pass Scenario.cvar Scenario.playback) world_init
         = (Raised (NameError "p_solve"), w')
         /\ server w'
            = with_solution
                (set_attr (server world_init) self_p_solve
                   (VStr "/samples/a.png"))
                0%float 0%float 0%float (VModule "time")).
Proof.
  split.
  - refine (proj1 (@failure_paths_store_the_frame_and_the_zero_triple
                     Scenario.cvar Scenario.playback Scenario.daylight Worker
                     world_init (VStr "/samples/a.png") (Some Scenario.frame)
                     (snd (run Scenario.daylight Worker
                             (capture Scenario.playback)
                             (locked Worker world_init)))
                     "unsuitable image"
                     (snd (run Scenario.daylight Worker
                             (preprocess Scenario.playback
                                (Some Scenario.frame))
                             (attr_set Worker self_p_solve
                                (VStr "/samples/a.png")
                                (snd (run Scenario.daylight Worker
                                        (capture Scenario.playback)
                                        (locked Worker world_init))))))
                     _ _ _) _).
    + reflexivity.
    + vm_compute. reflexivity.
    + vm_compute. reflexivity.
    + discriminate.
  - refine (proj2 (@failure_paths_store_the_frame_and_the_zero_triple
                     Scenario.cvar Scenario.playback Scenario.unknown_sky
                     Worker
                     world_init (VStr "/samples/a.png") (Some Scenario.frame)
                     (snd (run Scenario.unknown_sky Worker
                             (capture Scenario.playback)
                             (locked Worker world_init)))
                     "good"
                     (snd (run Scenario.unknown_sky Worker
                             (preprocess Scenario.playback
                                (Some Scenario.frame))
                             (attr_set Worker self_p_solve
                                (VStr "/samples/a.png")
                                (snd (run Scenario.unknown_sky Worker
                                        (capture Scenario.playback)
                                        (locked Worker world_init))))))
                     _ _ _) eq_refl 0%float 0%float 0%float (VModule "time")
                  (snd (run Scenario.unknown_sky Worker
                          (solve Scenario.cvar Scenario.playback
                             (Some Scenario.frame))
                          (snd (run Scenario.unknown_sky Worker
                             (preprocess Scenario.playback
                                (Some Scenario.frame))
                             (attr_set Worker self_p_solve
                                (VStr "/samples/a.png")
                                (snd (run Scenario.unknown_sky Worker
                                        (capture Scenario.playback)
                                        (locked Worker world_init))))))))
                  _ _).
    + reflexivity.
    + vm_compute. reflexivity.
    + vm_compute. reflexivity.
    + vm_compute. reflexivity.
    + vm_compute. reflexivity.
Defined.

(** ** Failures of a frame *)

(** C1, on the code: a failure of a frame ends the worker thread.  Without
    a frame ([capture] gave [(None, None)]) [preprocess] raises at
    [img.shape]; a rejected frame (too bright, or dark) and an invalid solve
    (coarse match refused, or refined match refused) raise [NameError] at the
    name [p_solve] in the argument of the log call.  In each case the loop
    ends with the exception, the lock still held and no sleep done. *)
Theorem frame_failures_end_the_worker :
  let ends env st :=
    let result := run env Worker (star_tracker Scenario.cvar st 3)
                    world_init in
    (fst result, st_lock (snd result), existsb is_sleep (trace (snd result)))
  in
  ends Scenario.clear_sky Scenario.live
  = (Raised (AttributeError "NoneType" "shape"), Some Worker, false)
  /\ ends Scenario.daylight Scenario.playback
     = (Raised (NameError "p_solve"), Some Worker, false)
  /\ ends Scenario.lens_cap Scenario.playback
     = (Raised (NameError "p_solve"), Some Worker, false)
  /\ ends Scenario.unknown_sky Scenario.playback
     = (Raised (NameError "p_solve"), Some Worker, false)
  /\ ends Scenario.unconfirmed_sky Scenario.playback
     = (Raised (NameError "p_solve"), Some Worker, false).
Proof. vm_compute. repeat split; reflexivity. Qed.

(** ** The error signal *)

Lemma quiet_is_not_a_call :
  forall X (c : eff X), quiet c = true -> not_a_call c = true.
Proof.
  intros X c; destruct c; simpl; auto. destruct c; simpl; auto.
Qed.

Lemma load_global_error : load_global "error" = Raise (NameError "error").
Proof. reflexivity. Qed.

Lemma pass_never_calls :
  forall cvar st, emits not_a_call (star_tracker_pass cvar st).
Proof.
  intros cvar st.
  assert (Hq : forall (A : Type) (p : prog A),
             emits quiet p -> emits not_a_call p).
  { intros A p. apply emits_weaken. exact quiet_is_not_a_call. }
  unfold star_tracker_pass.
  apply emits_bind; [simpl; auto | intros _].
  apply emits_bind; [apply Hq, quiet_capture | intros [path img]].
  apply emits_bind; [simpl; auto | intros _].
  apply emits_bind; [apply Hq, quiet_preprocess | intros check].
  destruct (negb (check =? "good")).
  - unfold reject_frame.
    apply emits_bind; [apply Hq, quiet_error | intros _].
    rewrite load_global_p_solve. exact I.
  - apply emits_bind; [apply Hq, quiet_solve | intros [[[d r] o] l]].
    unfold store_solution, all_zero_test.
    do 4 (apply emits_bind; [simpl; auto | intros _]).
    apply emits_bind.
    + repeat step_emits.
    + intros bad. destruct bad.
      * apply emits_bind; [apply Hq, quiet_error | intros _].
        rewrite load_global_p_solve. exact I.
      * repeat step_emits.
Qed.

Lemma star_tracker_never_calls :
  forall cvar st fuel, emits not_a_call (star_tracker cvar st fuel).
Proof.
  intros cvar st fuel.
  assert (Hq : forall (A : Type) (p : prog A),
             emits quiet p -> emits not_a_call p).
  { intros A p. apply emits_weaken. exact quiet_is_not_a_call. }
  unfold star_tracker.
  apply emits_bind; [apply Hq, quiet_debug_inside | intros _].
  apply emits_bind.
  - induction fuel as [| fuel IH]; [exact I |].
    change (emits not_a_call
              (running <- perform (GetAttr self_st_running) ;;
               if py_truthy running
               then star_tracker_pass cvar st ;; while_st_running cvar st fuel
               else Ret Stopped)%prog).
    apply emits_bind; [simpl; auto | intros running].
    destruct (py_truthy running); [| exact I].
    apply emits_bind; [apply pass_never_calls | intros _; exact IH].
  - intros [|]; [| exact I].
    apply emits_bind; [apply Hq, quiet_debug_end | intros _; exact I].
Qed.

(** C9, on the code: the error signal is never emitted.  No run of the
    worker, whatever the frames and for however many passes, calls anything
    it looked up by name; on a rejected frame (every pixel above the cutoff)
    the corrective action runs and the pass then ends in [NameError], before
    the log call and before [error(check)], itself a name that is not
    bound. *)
Theorem error_signal_is_never_emitted :
  (forall cvar st env t fuel w,
      exists new,
        trace (snd (run env t (star_tracker cvar st fuel) w))
        = new ++ trace w
        /\ Forall (fun e => is_error_signal e = false) new)
  /\ (let rejected :=
        run Scenario.daylight Worker
          (star_tracker_pass Scenario.cvar Scenario.playback) world_init in
      fst rejected = Raised (NameError "p_solve")
      /\ existsb is_error_signal (trace (snd rejected)) = false
      /\ announcements (trace (snd rejected)) = [])
  /\ load_global "error" = Raise (NameError "error").
Proof.
  split; [| split; [vm_compute; repeat split; reflexivity | reflexivity]].
  intros cvar st env t fuel w.
  destruct (emits_run not_a_call env t (star_tracker cvar st fuel) w
              (star_tracker_never_calls cvar st fuel)) as [new [Htr Hnew]].
  exists new. split; [exact Htr |].
  eapply Forall_impl; [| exact Hnew].
  intros [t' X c x]. simpl. destruct c; simpl; auto.
  destruct c; simpl; auto; discriminate.
Qed.

(** * The worker and the clients together: the invariant *)

(** ** Following a discipline *)

Section DisciplineFacts.

Variable S : Type.
Variable next : S -> forall X : Type, eff X -> option S.

Lemma follows_bind :
  forall (A B : Type) (p : prog A) (k : A -> prog B) m Q,
    follows next m p (fun m' a => follows next m' (k a) Q) ->
    follows next m (bind p k) Q.
Proof.
  induction p as [a | e | X c k' IH]; simpl; intros k m Q H; auto.
  destruct (next m c) as [m' |]; [| contradiction].
  intros x. apply IH, H.
Qed.

Lemma follows_weaken :
  forall (A : Type) (p : prog A) m (Q R : S -> A -> Prop),
    (forall m' a, Q m' a -> R m' a) ->
    follows next m p Q -> follows next m p R.
Proof.
  induction p as [a | e | X c k' IH]; simpl; intros m Q R HQR H; auto.
  destruct (next m c) as [m' |]; [| contradiction].
  intros x. eapply IH; eauto.
Qed.

(** The monitor does not look at local effects. *)
Hypothesis next_local :
  forall m X (c : eff X), local_eff c = true -> next m c = Some m.

Lemma follows_local :
  forall (A : Type) (p : prog A) m (Q : S -> A -> Prop),
    local p -> (forall a, Q m a) -> follows next m p Q.
Proof.
  unfold local.
  induction p as [a | e | X c k' IH]; simpl; intros m Q Hp HQ; auto.
  destruct Hp as [Hc Hk]. rewrite (next_local m c Hc).
  intros x. apply IH; auto.
Qed.

Lemma follows_after_local :
  forall (A B : Type) (p : prog A) (k : A -> prog B) m Q,
    local p -> (forall a, follows next m (k a) Q) ->
    follows next m (bind p k) Q.
Proof.
  intros A B p k m Q Hp Hk. apply follows_bind.
  apply follows_local; auto.
Qed.

End DisciplineFacts.

Lemma attr_eqb_eq : forall a b, attr_eqb a b = true <-> a = b.
Proof. intros a b; destruct a, b; simpl; split; congruence. Qed.

Lemma writer_next_local :
  forall m X (c : eff X), local_eff c = true -> writer_next m c = Some m.
Proof. intros m X c; destruct c; simpl; auto; discriminate. Qed.

Lemma client_next_local :
  forall m X (c : eff X), local_eff c = true -> client_next m c = Some m.
Proof. intros m X c; destruct c; simpl; auto; discriminate. Qed.

(** ** The programs keep their disciplines *)

Ltac follow_writer :=
  cbn [bind perform call follows writer_next covers forallb existsb
       attr_eqb andb orb];
  intros.

Ltac writer_after_local lemma :=
  apply (follows_after_local writer_next writer_next_local);
  [ apply quiet_is_local, lemma | intros ].

(** A pass takes the lock, stores inside it, and either raises while it
    holds the lock or gives the lock back with the whole record stored. *)
Lemma pass_keeps_the_discipline :
  forall cvar st,
    follows writer_next Outside (star_tracker_pass cvar st)
      (fun m _ => m = Outside).
Proof.
  intros cvar st. unfold star_tracker_pass. follow_writer.
  writer_after_local quiet_capture.
  destruct a as [path img]. follow_writer.
  writer_after_local quiet_preprocess.
  destruct (negb (a =? "good")).
  - unfold reject_frame. writer_after_local quiet_error.
    rewrite load_global_p_solve. exact I.
  - writer_after_local quiet_solve.
    destruct a0 as [[[d r] o] l].
    unfold store_solution, all_zero_test. follow_writer.
    repeat match goal with
           | |- context [if py_eq ?u ?v then _ else _] =>
               destruct (py_eq u v); follow_writer
           end.
    all: try (writer_after_local quiet_error;
              rewrite load_global_p_solve; exact I).
    all: follow_writer; reflexivity.
Qed.

Lemma star_tracker_keeps_the_discipline :
  forall cvar st fuel,
    obeys writer_next Outside (star_tracker cvar st fuel).
Proof.
  intros cvar st fuel. unfold obeys, star_tracker.
  writer_after_local quiet_debug_inside.
  apply follows_bind.
  apply (@follows_weaken _ writer_next _ _ _ (fun m _ => m = Outside)).
  - intros m' r Hm. subst m'. destruct r; [| exact I].
    writer_after_local quiet_debug_end. exact I.
  - induction fuel as [| fuel IH]; [reflexivity |].
    change (follows writer_next Outside
              (running <- perform (GetAttr self_st_running) ;;
               if py_truthy running
               then star_tracker_pass cvar st ;; while_st_running cvar st fuel
               else Ret Stopped)%prog
              (fun m _ => m = Outside)).
    follow_writer. destruct (py_truthy x); [| reflexivity].
    apply follows_bind.
    eapply follows_weaken; [| apply pass_keeps_the_discipline].
    intros m' u Hm. cbv beta in Hm. subst m'. exact IH.
Qed.

Ltac follow_client :=
  cbn [bind perform call follows client_next is_record];
  intros.

Lemma coor_keeps_the_discipline : obeys client_next Before coor.
Proof. unfold obeys, coor. follow_client. exact I. Qed.

Lemma filepath_keeps_the_discipline : obeys client_next Before filepath.
Proof. unfold obeys, filepath. follow_client. exact I. Qed.

Lemma last_solve_keeps_the_discipline : obeys client_next Before last_solve.
Proof. unfold obeys, last_solve. follow_client. exact I. Qed.

Lemma server_end_keeps_the_discipline : obeys client_next Before server_end.
Proof.
  unfold obeys, server_end.
  apply (follows_after_local client_next client_next_local);
    [apply quiet_is_local, quiet_debug_inside | intros _].
  follow_client.
  apply (follows_after_local client_next client_next_local);
    [apply quiet_is_local, quiet_debug_end | intros _].
  exact I.
Qed.

(** ** The invariant is kept *)

Lemma nth_error_update_same :
  forall cls i cl old,
    nth_error cls i = Some old ->
    nth_error (update_client i cl cls) i = Some cl.
Proof.
  induction cls as [| c cls IH]; intros [| i] cl old H; simpl in *;
    try discriminate; auto.
  eapply IH; eauto.
Qed.

Lemma nth_error_update_other :
  forall cls i j cl,
    i <> j -> nth_error (update_client i cl cls) j = nth_error cls j.
Proof.
  induction cls as [| c cls IH]; intros [| i] [| j] cl H; simpl; auto;
    try contradiction; try (apply IH; congruence).
Qed.

Lemma covers_record :
  forall stored a,
    covers stored = true -> is_record a = true -> In a stored.
Proof.
  intros stored a Hc Ha. unfold covers in Hc. simpl in Hc.
  repeat (apply andb_true_iff in Hc; destruct Hc as [? Hc]).
  assert (H' : existsb (attr_eqb a) stored = true)
    by (destruct a; simpl in Ha; try discriminate; assumption).
  apply existsb_exists in H'. destruct H' as [b [Hin Hb]].
  apply attr_eqb_eq in Hb. subst b. exact Hin.
Qed.

(** What an effect that is performed does to the lock. *)
Lemma handle_lock :
  forall env t X (c : eff X) w x w',
    handle env t c w = Ok x w' ->
    match c with
    | LockAcquire => st_lock w = None /\ st_lock w' = Some t
    | LockRelease => st_lock w <> None /\ st_lock w' = None
    | _ => st_lock w' = st_lock w
    end.
Proof.
  intros env t X c w x w' H. unfold handle in H.
  destruct c; simpl in H;
    try (inversion H; subst; reflexivity);
    destruct (st_lock w) eqn:E; try discriminate;
    inversion H; subst; simpl; split; congruence.
Qed.

Lemma handle_throws :
  forall env t X (c : eff X) w e,
    handle env t c w = Throws e ->
    match c with
    | LockRelease => st_lock w = None
    | _ => False
    end.
Proof.
  intros env t X c w e H. unfold handle in H.
  destruct c; simpl in H; try discriminate;
    destruct (st_lock w) eqn:E; try discriminate; reflexivity.
Qed.

(** A client that does not move keeps its place when the lock does not
    change hands with it and the record it may be reading is not stored to. *)
Lemma client_at_stable :
  forall m s s' i cl,
    client_at m s i cl ->
    (st_lock (shared s') = Some (Client i)
     <-> st_lock (shared s) = Some (Client i)) ->
    (st_lock (shared s) = Some (Client i) ->
     forall a, is_record a = true -> stored_in s' a = stored_in s a) ->
    client_at m s' i cl.
Proof.
  intros m s s' i cl Hat Hlock Htags. destruct m; simpl in *.
  - destruct Hat as [Hl Ho]. split; [| exact Ho]. intro H. apply Hl, Hlock, H.
  - destruct Hat as [Hl Ho]. split; [apply Hlock, Hl |].
    intros a n Hin. destruct (Ho a n Hin) as [Ha Hn].
    split; [exact Ha |]. rewrite (Htags Hl a Ha). exact Hn.
  - destruct Hat as [Hl Ho]. split; [| exact Ho]. intro H. apply Hl, Hlock, H.
Qed.

(** The worker keeps its place while a client moves. *)
Lemma writer_at_stable :
  forall m s s',
    writer_at m s ->
    (st_lock (shared s') = Some Worker <-> st_lock (shared s) = Some Worker) ->
    passes s' = passes s ->
    (forall a, is_record a = true -> stored_in s' a = stored_in s a) ->
    (forall a, stored_in s' a = stored_in s a \/ stored_in s' a = passes s) ->
    writer_at m s'.
Proof.
  intros m s s' Hat Hlock Hpass Hrec Htags. destruct m; simpl in *.
  - destruct Hat as [Hl Hco]. split; [intro H; apply Hl, Hlock, H |].
    intros a b Ha Hb. rewrite (Hrec a Ha), (Hrec b Hb). apply Hco; auto.
  - destruct Hat as [Hl Hst]. split; [apply Hlock, Hl |].
    intros a Hin. rewrite Hpass.
    destruct (Htags a) as [H | H]; [rewrite H; apply Hst, Hin | exact H].
Qed.

Lemma worker_step_keeps_invariant :
  forall env s, invariant s -> invariant (step env Worker s).
Proof.
  intros env s [[m [Hobeys Hat]] Hclients]. unfold step.
  destruct (worker_thread s) as [a | e | X c k] eqn:Ew;
    try (split; [exists m; rewrite Ew; auto | exact Hclients]).
  destruct (handle env Worker c (shared s)) as [x w' | | e] eqn:Eh.
  - (* the effect is performed *)
    unfold obeys in Hobeys. simpl in Hobeys.
    destruct (writer_next m c) as [m' |] eqn:En; [| contradiction].
    specialize (Hobeys x). pose proof (handle_lock _ _ _ _ Eh) as Hlock.
    assert (Hothers :
      forall tags,
        (st_lock (shared s) <> Some Worker -> tags = stored_in s) ->
        forall i cl,
          nth_error (clients s) i = Some cl ->
          exists mc,
            obeys client_next mc (request cl)
            /\ client_at mc
                 {| shared := w';
                    passes := begins_pass Worker c (passes s);
                    stored_in := tags;
                    worker_thread := k x;
                    clients := clients s |} i cl).
    { intros tags Htags i cl Hi.
      destruct (Hclients i cl Hi) as [mc [Hoc Hac]].
      exists mc. split; [exact Hoc |].
      eapply client_at_stable; [exact Hac | |]; simpl.
      - destruct c; simpl in Hlock; try (rewrite Hlock; tauto).
        + destruct Hlock as [H0 H1]. rewrite H0, H1. split; discriminate.
        + destruct Hlock as [H0 H1]. rewrite H1.
          destruct m; simpl in En; try discriminate.
          destruct Hat as [Hw _]. rewrite Hw. split; discriminate.
      - intros Hheld a Ha. rewrite Htags; [reflexivity |].
        rewrite Hheld. discriminate. }
    destruct c; simpl in En, Hlock.
    + (* acquire *)
      destruct m; try discriminate. inversion En; subst m'.
      destruct Hlock as [H0 H1]. split.
      * exists (Inside []). split; [exact Hobeys |]. simpl.
        split; [exact H1 | intros a []].
      * apply Hothers. auto.
    + (* release *)
      destruct m as [| stored]; try discriminate.
      destruct (covers stored) eqn:Hc; try discriminate.
      inversion En; subst m'. destruct Hlock as [H0 H1].
      destruct Hat as [Hw Hst]. split.
      * exists Outside. split; [exact Hobeys |]. simpl.
        split; [rewrite H1; discriminate |].
        intros a b Ha Hb.
        rewrite (Hst a (covers_record _ _ Hc Ha)).
        rewrite (Hst b (covers_record _ _ Hc Hb)). reflexivity.
      * apply Hothers. auto.
    + (* a read *)
      inversion En; subst m'. split.
      * exists m. split; [exact Hobeys |].
        destruct m; simpl in *; rewrite Hlock; exact Hat.
      * apply Hothers. auto.
    + (* a store *)
      destruct m as [| stored]; try discriminate.
      inversion En; subst m'. destruct Hat as [Hw Hst]. split.
      * exists (Inside (a :: stored)). split; [exact Hobeys |]. simpl.
        split; [rewrite Hlock; exact Hw |].
        intros b [Hb | Hb].
        -- subst b. destruct (attr_eqb a a) eqn:E; [reflexivity |].
           assert (attr_eqb a a = true) by (apply attr_eqb_eq; reflexivity).
           congruence.
        -- destruct (attr_eqb a b); [reflexivity | apply Hst, Hb].
      * apply Hothers. intros H. contradiction.
    + inversion En; subst m'. split.
      * exists m. split; [exact Hobeys |].
        destruct m; simpl in *; rewrite Hlock; exact Hat.
      * apply Hothers. auto.
    + inversion En; subst m'. split.
      * exists m. split; [exact Hobeys |].
        destruct m; simpl in *; rewrite Hlock; exact Hat.
      * apply Hothers. auto.
    + inversion En; subst m'. split.
      * exists m. split; [exact Hobeys |].
        destruct m; simpl in *; rewrite Hlock; exact Hat.
      * apply Hothers. auto.
  - (* the worker is blocked *)
    split; [exists m; rewrite Ew; auto | exact Hclients].
  - (* the effect raises *)
    split.
    + exists m. split; [exact I |]. destruct m; exact Hat.
    + intros i cl Hi. destruct (Hclients i cl Hi) as [mc [Hoc Hac]].
      exists mc. split; [exact Hoc |]. destruct mc; exact Hac.
Qed.

Lemma client_step_keeps_invariant :
  forall env i s, invariant s -> invariant (step env (Client i) s).
Proof.
  intros env i s Hinv. pose proof Hinv as [[m [Hobeys Hat]] Hclients].
  unfold step.
  destruct (nth_error (clients s) i) as [cl |] eqn:Ei; [| exact Hinv].
  destruct (Hclients i cl Ei) as [mc [Hoc Hac]].
  destruct (request cl) as [a | e | X c k] eqn:Er; try exact Hinv.
  destruct (handle env (Client i) c (shared s)) as [x w' | | e] eqn:Eh;
    [| exact Hinv |].
  - (* the effect is performed *)
    unfold obeys in Hoc. simpl in Hoc.
    destruct (client_next mc c) as [mc' |] eqn:En; [| contradiction].
    specialize (Hoc x). pose proof (handle_lock _ _ _ _ Eh) as Hlock.
    set (s' := {| shared := w';
                  passes := passes s;
                  stored_in := stores c (passes s) (stored_in s);
                  worker_thread := worker_thread s;
                  clients :=
                    update_client i
                      {| request := k x;
                         observed :=
                           observes c (stored_in s) (observed cl) |}
                      (clients s) |}).
    (* a client stores no field of the record *)
    assert (Hrec : forall a, is_record a = true ->
                             stored_in s' a = stored_in s a).
    { intros a Ha. unfold s'. simpl.
      destruct c; simpl in *; try reflexivity.
      destruct a0; try discriminate. destruct a; try discriminate;
        reflexivity. }
    assert (Htags : forall a, stored_in s' a = stored_in s a
                              \/ stored_in s' a = passes s).
    { intros a. unfold s'. simpl. destruct c; simpl; auto.
      destruct (attr_eqb a0 a); auto. }
    (* the lock changes hands with this client only *)
    assert (Hforeign :
      forall t, t <> Client i ->
                (st_lock (shared s') = Some t <-> st_lock (shared s) = Some t)).
    { intros t Ht. unfold s'. simpl.
      destruct c; simpl in Hlock; try (rewrite Hlock; tauto).
      - destruct Hlock as [H0 H1]. rewrite H0, H1.
        split; [intro H; inversion H; congruence | discriminate].
      - destruct Hlock as [H0 H1]. rewrite H1.
        destruct mc; simpl in En; try discriminate.
        destruct Hac as [Hl _]. rewrite Hl.
        split; [discriminate | intro H; inversion H; congruence]. }
    split.
    + (* the worker *)
      exists m. split; [exact Hobeys |].
      apply (@writer_at_stable m s s'); auto.
      apply Hforeign. discriminate.
    + (* the clients *)
      intros j clj Hj. destruct (Nat.eq_dec i j) as [Hij | Hij].
      * (* the client that moved *)
        subst j.
        assert (Hclj : clj = {| request := k x;
                                observed :=
                                  observes c (stored_in s) (observed cl) |}).
        { unfold s' in Hj. simpl in Hj.
          rewrite (nth_error_update_same _ _ _ Ei) in Hj.
          inversion Hj. reflexivity. }
        subst clj. clear Hj.
        exists mc'. split; [exact Hoc |].
        assert (Hstay :
          st_lock w' = st_lock (shared s) -> client_at mc s' i cl).
        { intros Hsame.
          apply (@client_at_stable mc s s' i cl Hac).
          - unfold s'. simpl. rewrite Hsame. tauto.
          - intros _ a Ha. apply Hrec, Ha. }
        destruct c; simpl in En, Hlock.
        -- (* acquire *)
           destruct mc; try discriminate. inversion En; subst mc'.
           destruct Hlock as [H0 H1]. destruct Hac as [_ Ho].
           simpl. split; [exact H1 |]. rewrite Ho. intros a n [].
        -- (* release *)
           destruct mc; try discriminate. inversion En; subst mc'.
           destruct Hlock as [H0 H1]. destruct Hac as [Hl Ho].
           simpl. split; [rewrite H1; discriminate |].
           assert (Hco : coherent (stored_in s)).
           { destruct m; simpl in Hat; [exact (proj2 Hat) |].
             destruct Hat as [Hw _]. rewrite Hl in Hw. discriminate. }
           intros a n b p Ha Hb.
           destruct (Ho a n Ha) as [Ra Hn]. destruct (Ho b p Hb) as [Rb Hp].
           subst n p. apply Hco; assumption.
        -- (* a read *)
           destruct mc; try discriminate.
           destruct (is_record a) eqn:Ra; try discriminate.
           inversion En; subst mc'. destruct Hac as [Hl Ho].
           simpl. split; [rewrite Hlock; exact Hl |].
           intros b n [Hb | Hb].
           ++ inversion Hb; subst. auto.
           ++ apply Ho, Hb.
        -- (* a store, to st_running *)
           destruct a; try discriminate. inversion En; subst mc'.
           specialize (Hstay Hlock). destruct mc; exact Hstay.
        -- inversion En; subst mc'.
           specialize (Hstay Hlock). destruct mc; exact Hstay.
        -- inversion En; subst mc'.
           specialize (Hstay Hlock). destruct mc; exact Hstay.
        -- inversion En; subst mc'.
           specialize (Hstay Hlock). destruct mc; exact Hstay.
      * (* another client *)
        assert (Hj' : nth_error (clients s) j = Some clj).
        { unfold s' in Hj. simpl in Hj.
          rewrite (nth_error_update_other _ _ Hij) in Hj. exact Hj. }
        destruct (Hclients j clj Hj') as [mj [Hoj Haj]].
        exists mj. split; [exact Hoj |].
        apply (@client_at_stable mj s s' j clj Haj).
        -- apply Hforeign. intro H. inversion H. congruence.
        -- intros _ a Ha. apply Hrec, Ha.
  - (* the effect raises *)
    split.
    + exists m. split; [exact Hobeys |]. destruct m; exact Hat.
    + intros j clj Hj. simpl in Hj.
      destruct (Nat.eq_dec i j) as [Hij | Hij].
      * subst j. rewrite (nth_error_update_same _ _ _ Ei) in Hj.
        inversion Hj; subst clj; clear Hj.
        exists mc. split; [exact I |]. destruct mc; exact Hac.
      * rewrite (nth_error_update_other _ _ Hij) in Hj.
        destruct (Hclients j clj Hj) as [mj [Hoj Haj]].
        exists mj. split; [exact Hoj |]. destruct mj; exact Haj.
Qed.

(** ** The invariant holds in every run *)

Lemma boot_invariant :
  forall cvar st fuel requests,
    Forall is_request requests -> invariant (boot cvar st fuel requests).
Proof.
  intros cvar st fuel requests Hreq. split.
  - exists Outside. split; [apply star_tracker_keeps_the_discipline |].
    simpl. split; [discriminate | intros a b _ _; reflexivity].
  - intros i cl Hi. simpl in Hi. rewrite nth_error_map in Hi.
    destruct (nth_error requests i) as [p |] eqn:Ep; [| discriminate].
    inversion Hi; subst cl; clear Hi.
    apply nth_error_In in Ep.
    rewrite Forall_forall in Hreq. specialize (Hreq p Ep).
    exists Before. split.
    + simpl. destruct Hreq as [H | [H | [H | H]]]; subst p.
      * apply coor_keeps_the_discipline.
      * apply filepath_keeps_the_discipline.
      * apply last_solve_keeps_the_discipline.
      * apply server_end_keeps_the_discipline.
    + simpl. split; [discriminate | reflexivity].
Qed.

Lemma step_keeps_invariant :
  forall env t s, invariant s -> invariant (step env t s).
Proof.
  intros env [| i] s H.
  - apply worker_step_keeps_invariant, H.
  - apply client_step_keeps_invariant, H.
Qed.

Lemma exec_keeps_invariant :
  forall env schedule s, invariant s -> invariant (exec env schedule s).
Proof.
  intros env schedule.
  induction schedule as [| t schedule IH]; intros s H; simpl; auto.
  apply IH, step_keeps_invariant, H.
Qed.

(** A run of [a_schedule]: both clients got values that were stored during
    the first pass. *)
Example two_reads_of_the_first_solution :
  let s := exec Scenario.clear_sky a_schedule
             (boot Scenario.cvar Scenario.playback 5 [coor; filepath]) in
  map (fun cl => (request cl, observed cl)) (clients s)
  = [ (Ret (VTuple [VFloat 0.25; VFloat 1.5; VFloat 0.125; VFloat 35]),
       [(self_t_solve, 1); (self_ori, 1); (self_ra, 1); (self_dec, 1)]);
      (Ret (VStr "/samples/a.png"), [(self_p_solve, 1)]) ]
  /\ passes s = 3.
Proof. vm_compute. split; reflexivity. Qed.

(** * Monitors *)

Section MonitorFacts.

Variable S : Type.
Variable next : S -> forall X : Type, eff X -> X -> option S.

Lemma guarded_bind :
  forall (A B : Type) (p : prog A) (k : A -> prog B) m Q R,
    guarded next m p (fun m' a => guarded next m' (k a) Q R) R ->
    guarded next m (bind p k) Q R.
Proof.
  induction p as [a | e | X c k' IH]; simpl; intros k m Q R H; auto.
  intros x. specialize (H x).
  destruct (next m c x) as [m' |]; [| contradiction]. apply IH, H.
Qed.

Lemma guarded_weaken :
  forall (A : Type) (p : prog A) m (Q Q' : S -> A -> Prop)
         (R R' : S -> exn -> Prop),
    (forall m' a, Q m' a -> Q' m' a) ->
    (forall m' e, R m' e -> R' m' e) ->
    guarded next m p Q R -> guarded next m p Q' R'.
Proof.
  induction p as [a | e | X c k' IH]; simpl; intros m Q Q' R R' HQ HR H;
    auto.
  intros x. specialize (H x).
  destruct (next m c x) as [m' |]; [| contradiction]. eapply IH; eauto.
Qed.

(** Effects that the monitor does not look at. *)
Variable ignored : forall X : Type, eff X -> bool.
Hypothesis next_ignored :
  forall m X (c : eff X) x, ignored c = true -> next m c x = Some m.

Lemma guarded_ignored :
  forall (A : Type) (p : prog A) m (Q : S -> A -> Prop)
         (R : S -> exn -> Prop),
    emits ignored p -> (forall a, Q m a) -> (forall e, R m e) ->
    guarded next m p Q R.
Proof.
  induction p as [a | e | X c k' IH]; simpl; intros m Q R Hp HQ HR; auto.
  destruct Hp as [Hc Hk]. intros x. rewrite (next_ignored m x Hc).
  apply IH; auto.
Qed.

Lemma guarded_ignored_total :
  forall (A : Type) (p : prog A) m (Q : S -> A -> Prop)
         (R : S -> exn -> Prop),
    emits ignored p -> total p -> (forall a, Q m a) ->
    guarded next m p Q R.
Proof.
  induction p as [a | e | X c k' IH]; simpl; intros m Q R Hp Ht HQ; auto.
  - contradiction.
  - destruct Hp as [Hc Hk]. intros x. rewrite (next_ignored m x Hc).
    apply IH; auto.
Qed.

Lemma guarded_after_ignored :
  forall (A B : Type) (p : prog A) (k : A -> prog B) m Q R,
    emits ignored p -> (forall e, R m e) ->
    (forall a, guarded next m (k a) Q R) ->
    guarded next m (bind p k) Q R.
Proof.
  intros A B p k m Q R Hp HR Hk. apply guarded_bind.
  apply guarded_ignored; auto.
Qed.

Lemma guarded_after_total :
  forall (A B : Type) (p : prog A) (k : A -> prog B) m Q R,
    emits ignored p -> total p ->
    (forall a, guarded next m (k a) Q R) ->
    guarded next m (bind p k) Q R.
Proof.
  intros A B p k m Q R Hp Ht Hk. apply guarded_bind.
  apply guarded_ignored_total; auto.
Qed.

(** The monitor follows the run of a program that leaves the lock alone. *)
Lemma guarded_local_run :
  forall env t (A : Type) (p : prog A) m Q R w,
    local p ->
    guarded next m p Q R ->
    exists new m',
      trace (snd (run env t p w)) = new ++ trace w
      /\ replay next m (rev new) = Some m'
      /\ match fst (run env t p w) with
         | Done a => Q m' a
         | Raised e => R m' e
         | Blocked => False
         end.
Proof.
  unfold local.
  induction p as [a | e | X c k IH]; simpl; intros m Q R w Hl Hg.
  - exists [], m. auto.
  - exists [], m. auto.
  - destruct Hl as [Hc Hk]. specialize (Hg (fst (effect_of env t c w))).
    destruct (next m c (fst (effect_of env t c w))) as [m1 |] eqn:En;
      [| contradiction].
    assert (Hh : handle env t c w
                 = Ok (fst (effect_of env t c w))
                     (log t c (fst (effect_of env t c w))
                        (snd (effect_of env t c w)))).
    { unfold handle. destruct c; simpl in Hc; try discriminate; reflexivity. }
    rewrite Hh.
    destruct (IH _ m1 Q R
                (log t c (fst (effect_of env t c w))
                   (snd (effect_of env t c w))) (Hk _) Hg)
      as [new [m' [Htr [Hre Hout]]]].
    exists (new ++ [Ev t c (fst (effect_of env t c w))]), m'.
    split; [| split; [| exact Hout]].
    + rewrite Htr. simpl. rewrite <- app_assoc. simpl.
      assert (trace (snd (effect_of env t c w)) = trace w) as ->;
        [| reflexivity].
      destruct c; reflexivity.
    + rewrite rev_app_distr. simpl. rewrite En. exact Hre.
Qed.

End MonitorFacts.

(** * An exception freezes the service *)

Lemma tid_eqb_eq : forall a b, tid_eqb a b = true <-> a = b.
Proof.
  intros [| i] [| j]; simpl; split; intros H; try discriminate; auto.
  - apply Nat.eqb_eq in H. congruence.
  - inversion H. apply Nat.eqb_refl.
Qed.

Lemma holds_true : forall t w, holds t w = true <-> st_lock w = Some t.
Proof.
  intros t w. unfold holds. destruct (st_lock w) as [u |].
  - rewrite tid_eqb_eq. split; congruence.
  - split; discriminate.
Qed.

Lemma holds_other :
  forall t u w, st_lock w = Some t -> u <> t -> holds u w = false.
Proof.
  intros t u w Hl Hu. destruct (holds u w) eqn:E; [| reflexivity].
  apply holds_true in E. congruence.
Qed.

Lemma lock_next_quiet :
  forall held X (c : eff X) x, quiet c = true -> lock_next held c x = Some held.
Proof. intros held X c x; destruct c; simpl; auto; discriminate. Qed.

(** ** The programs keep to the lock *)

Ltac lock_after_quiet lemma :=
  apply (guarded_after_ignored lock_next quiet lock_next_quiet);
  [ apply lemma | intros; split; [reflexivity | exact I] | intros ].

Ltac lock_step :=
  cbn [bind perform call guarded lock_next orb attr_eqb]; intros.

Lemma pass_dies_holding :
  forall cvar st,
    guarded lock_next false (star_tracker_pass cvar st)
      (fun held _ => held = false) (fun held _ => held = true /\ True).
Proof.
  intros cvar st. unfold star_tracker_pass. lock_step.
  lock_after_quiet quiet_capture.
  destruct a as [path img]. lock_step.
  lock_after_quiet quiet_preprocess.
  destruct (negb (a =? "good")).
  - unfold reject_frame. lock_after_quiet quiet_error.
    rewrite load_global_p_solve. simpl. auto.
  - lock_after_quiet quiet_solve.
    destruct a0 as [[[d r] o] l].
    unfold store_solution, all_zero_test. lock_step.
    repeat match goal with
           | |- context [if py_eq ?u ?v then _ else _] =>
               destruct (py_eq u v); lock_step
           end.
    all: try (lock_after_quiet quiet_error;
              rewrite load_global_p_solve; simpl; auto).
    all: lock_step; reflexivity.
Qed.

Lemma star_tracker_dies_holding :
  forall cvar st fuel,
    dies_holding (fun _ => True) false (star_tracker cvar st fuel).
Proof.
  intros cvar st fuel. unfold dies_holding, star_tracker.
  apply (guarded_after_total lock_next quiet lock_next_quiet);
    [apply quiet_debug_inside | apply total_debug_inside | intros _].
  apply guarded_bind.
  apply (@guarded_weaken _ lock_next _ _ _ (fun held _ => held = false)
           _ (fun held _ => held = true /\ True)); auto.
  - intros held r Hh. subst held. destruct r; [| reflexivity].
    apply (guarded_after_total lock_next quiet lock_next_quiet);
      [apply quiet_debug_end | apply total_debug_end | intros _].
    reflexivity.
  - induction fuel as [| fuel IH]; [reflexivity |].
    change (guarded lock_next false
              (running <- perform (GetAttr self_st_running) ;;
               if py_truthy running
               then star_tracker_pass cvar st ;; while_st_running cvar st fuel
               else Ret Stopped)%prog
              (fun held _ => held = false)
              (fun held _ => held = true /\ True)).
    lock_step. destruct (py_truthy x); [| reflexivity].
    apply guarded_bind.
    eapply guarded_weaken; [| | apply pass_dies_holding]; auto.
    intros held u Hh. cbv beta in Hh. subst held. exact IH.
Qed.

Lemma coor_dies_holding : dies_holding request_exn false coor.
Proof. unfold dies_holding, coor. lock_step. reflexivity. Qed.

Lemma filepath_dies_holding : dies_holding request_exn false filepath.
Proof. unfold dies_holding, filepath. lock_step. reflexivity. Qed.

Lemma last_solve_dies_holding : dies_holding request_exn false last_solve.
Proof.
  unfold dies_holding, last_solve. lock_step. split; reflexivity.
Qed.

Lemma server_end_dies_holding : dies_holding request_exn false server_end.
Proof.
  unfold dies_holding, server_end.
  apply (guarded_after_total lock_next quiet lock_next_quiet);
    [apply quiet_debug_inside | apply total_debug_inside | intros _].
  lock_step.
  apply (guarded_after_total lock_next quiet lock_next_quiet);
    [apply quiet_debug_end | apply total_debug_end | intros _].
  reflexivity.
Qed.

Lemma boot_disciplined :
  forall cvar st fuel requests,
    Forall is_request requests -> disciplined (boot cvar st fuel requests).
Proof.
  intros cvar st fuel requests Hreq. split.
  - apply star_tracker_dies_holding.
  - intros i cl Hi. simpl in Hi. rewrite nth_error_map in Hi.
    destruct (nth_error requests i) as [p |] eqn:Ep; [| discriminate].
    inversion Hi; subst cl; clear Hi.
    apply nth_error_In in Ep.
    rewrite Forall_forall in Hreq. specialize (Hreq p Ep).
    simpl. destruct Hreq as [H | [H | [H | H]]]; subst p.
    + apply coor_dies_holding.
    + apply filepath_dies_holding.
    + apply last_solve_dies_holding.
    + apply server_end_dies_holding.
Qed.

(** ** A step keeps the threads to the lock *)

(** The thread that moves: its monitor follows the lock; the other threads
    hold what they held. *)
Lemma lock_next_step :
  forall env t X (c : eff X) w x w' held',
    handle env t c w = Ok x w' ->
    lock_next (holds t w) c x = Some held' ->
    held' = holds t w'
    /\ forall u, u <> t -> holds u w' = holds u w.
Proof.
  intros env t X c w x w' held' Hh Hn.
  pose proof (handle_lock _ _ _ _ Hh) as Hl.
  destruct c; simpl in Hn, Hl.
  - destruct Hl as [H0 H1]. unfold holds in *. rewrite H0 in *.
    rewrite H1. inversion Hn; subst held'. split.
    + symmetry. apply tid_eqb_eq. reflexivity.
    + intros u Hu. destruct (tid_eqb u t) eqn:E; [| reflexivity].
      apply tid_eqb_eq in E. contradiction.
  - destruct Hl as [H0 H1].
    destruct (holds t w) eqn:Eh; [| discriminate].
    inversion Hn; subst held'. apply holds_true in Eh.
    unfold holds. rewrite H1, Eh. split; [reflexivity |].
    intros u Hu. destruct (tid_eqb u t) eqn:E; [| reflexivity].
    apply tid_eqb_eq in E. contradiction.
  - inversion Hn; subst held'. unfold holds. rewrite Hl. auto.
  - destruct (holds t w || attr_eqb a self_st_running); [| discriminate].
    inversion Hn; subst held'. unfold holds. rewrite Hl. auto.
  - inversion Hn; subst held'. unfold holds. rewrite Hl. auto.
  - inversion Hn; subst held'. unfold holds. rewrite Hl. auto.
  - inversion Hn; subst held'. unfold holds. rewrite Hl. auto.
Qed.

(** A thread that keeps to the lock never releases an unlocked lock. *)
Lemma lock_next_no_throw :
  forall env t X (c : eff X) w e x held',
    handle env t c w = Throws e ->
    lock_next (holds t w) c x = Some held' -> False.
Proof.
  intros env t X c w e x held' Hh Hn.
  pose proof (handle_throws _ _ _ _ Hh) as Ht.
  destruct c; try contradiction. simpl in Hn.
  destruct (holds t w) eqn:Eh; [| discriminate].
  apply holds_true in Eh. congruence.
Qed.

Lemma step_keeps_disciplined :
  forall env t s, disciplined s -> disciplined (step env t s).
Proof.
  intros env t s [Hw Hc]. destruct t as [| i]; unfold step.
  - destruct (worker_thread s) as [a | e | X c k] eqn:Ew;
      try (split; [rewrite Ew; exact Hw | exact Hc]).
    destruct (handle env Worker c (shared s)) as [x w' | | e] eqn:Eh.
    + unfold dies_holding in Hw. simpl in Hw. specialize (Hw x).
      destruct (lock_next (holds Worker (shared s)) c x) as [held' |] eqn:En;
        [| contradiction].
      destruct (lock_next_step _ _ _ _ Eh En) as [Hheld Hothers].
      split; simpl.
      * unfold dies_holding. rewrite <- Hheld. exact Hw.
      * intros j cl Hj. rewrite Hothers by discriminate. apply Hc, Hj.
    + split; [rewrite Ew; exact Hw | exact Hc].
    + exfalso. unfold dies_holding in Hw. simpl in Hw.
      specialize (Hw (fst (effect_of env Worker c (shared s)))).
      destruct (lock_next (holds Worker (shared s)) c
                  (fst (effect_of env Worker c (shared s)))) eqn:En;
        [| contradiction].
      exact (lock_next_no_throw _ _ _ _ _ Eh En).
  - destruct (nth_error (clients s) i) as [cl |] eqn:Ei;
      [| split; assumption].
    pose proof (Hc i cl Ei) as Hi.
    destruct (request cl) as [a | e | X c k] eqn:Er;
      try (split; assumption).
    destruct (handle env (Client i) c (shared s)) as [x w' | | e] eqn:Eh;
      [| split; assumption |].
    + unfold dies_holding in Hi. simpl in Hi. specialize (Hi x).
      destruct (lock_next (holds (Client i) (shared s)) c x)
        as [held' |] eqn:En; [| contradiction].
      destruct (lock_next_step _ _ _ _ Eh En) as [Hheld Hothers].
      split; simpl.
      * rewrite Hothers by discriminate. exact Hw.
      * intros j clj Hj. destruct (Nat.eq_dec i j) as [Hij | Hij].
        -- subst j. rewrite (nth_error_update_same _ _ _ Ei) in Hj.
           inversion Hj; subst clj; clear Hj. simpl.
           unfold dies_holding. rewrite <- Hheld. exact Hi.
        -- rewrite (nth_error_update_other _ _ Hij) in Hj.
           rewrite Hothers by congruence. apply Hc, Hj.
    + exfalso. unfold dies_holding in Hi. simpl in Hi.
      specialize (Hi (fst (effect_of env (Client i) c (shared s)))).
      destruct (lock_next (holds (Client i) (shared s)) c
                  (fst (effect_of env (Client i) c (shared s)))) eqn:En;
        [| contradiction].
      exact (lock_next_no_throw _ _ _ _ _ Eh En).
Qed.

Lemma exec_keeps_disciplined :
  forall env schedule s, disciplined s -> disciplined (exec env schedule s).
Proof.
  intros env schedule.
  induction schedule as [| t schedule IH]; intros s H; simpl; auto.
  apply IH, step_keeps_disciplined, H.
Qed.

(** A thread that has raised holds the lock. *)
Lemma raised_holds_the_lock :
  forall s t e,
    disciplined s -> raised s t e -> st_lock (shared s) = Some t.
Proof.
  intros s t e [Hw Hc] Hr. destruct t as [| i]; simpl in Hr.
  - unfold dies_holding in Hw. rewrite Hr in Hw. simpl in Hw.
    apply holds_true, Hw.
  - destruct Hr as [cl [Hi Hr]]. specialize (Hc i cl Hi).
    unfold dies_holding in Hc. rewrite Hr in Hc. simpl in Hc.
    apply holds_true, Hc.
Qed.

(** ** Once a thread has raised *)

Lemma get_set_other :
  forall s a b v, a <> b -> get_attr (set_attr s b v) a = get_attr s a.
Proof. intros s a b v H; destruct a, b; try reflexivity; contradiction. Qed.

Lemma get_set_same :
  forall s a v, get_attr (set_attr s a v) a = v.
Proof. intros s a v; destruct a; reflexivity. Qed.

(** What an effect that is performed does to the server object, and what a
    read of an attribute gets. *)
Lemma handle_server :
  forall env t X (c : eff X) w x w',
    handle env t c w = Ok x w' ->
    server w'
    = match c with
      | SetAttr a v => set_attr (server w) a v
      | _ => server w
      end.
Proof.
  intros env t X c w x w' H. unfold handle in H.
  destruct c; simpl in H;
    try (inversion H; subst; reflexivity);
    destruct (st_lock w); try discriminate; inversion H; subst; reflexivity.
Qed.

Lemma handle_read :
  forall env t a w x w',
    handle env t (GetAttr a) w = Ok x w' -> x = get_attr (server w) a.
Proof. intros env t a w x w' H. inversion H. reflexivity. Qed.

Lemma frozen_refl :
  forall t s, st_lock (shared s) = Some t -> frozen t s s.
Proof. intros t s H. repeat split; auto. Qed.

Lemma frozen_trans :
  forall t s1 s2 s3, frozen t s1 s2 -> frozen t s2 s3 -> frozen t s1 s3.
Proof.
  intros t s1 s2 s3 [_ [Hp1 [Hr1 Hw1]]] [Hl2 [Hp2 [Hr2 Hw2]]].
  split; [exact Hl2 |]. split; [congruence |]. split.
  - intros x Hx. rewrite (Hr2 x Hx). apply Hr1, Hx.
  - intros i cl Hi Hc. apply Hw2; auto.
Qed.

(** A request that takes the lock is at its [acquire]. *)
Lemma takes_the_lock_is_at_acquire :
  forall p, takes_the_lock p -> at_acquire p = true.
Proof. intros p [H | [H | H]]; subst p; reflexivity. Qed.


(** The effect that a thread without the lock performs while another thread
    holds it: the lock stays where it is, nothing but [st_running] is stored,
    and no pass begins. *)
Lemma foreign_effect :
  forall env t u X (c : eff X) w x w' held',
    st_lock w = Some u -> t <> u ->
    handle env t c w = Ok x w' ->
    lock_next (holds t w) c x = Some held' ->
    st_lock w' = Some u
    /\ same_record (server w') (server w)
    /\ forall n, begins_pass t c n = n.
Proof.
  intros env t u X c w x w' held' Hl Ht Hh Hn.
  pose proof (handle_lock _ _ _ _ Hh) as Hlock.
  pose proof (handle_server _ _ _ _ Hh) as Hsrv.
  rewrite (holds_other _ Hl Ht) in Hn.
  destruct c; simpl in Hn, Hlock, Hsrv; try discriminate.
  - destruct Hlock as [H0 _]. congruence.
  - rewrite Hlock, Hsrv. repeat split; auto. intros ?; destruct t; reflexivity.
  - destruct (attr_eqb a self_st_running) eqn:Ea; [| discriminate].
    apply attr_eqb_eq in Ea. subst a. rewrite Hlock, Hsrv.
    split; [exact Hl |]. split.
    + intros b Hb. apply get_set_other, Hb.
    + intros ?; destruct t; reflexivity.
  - rewrite Hlock, Hsrv. repeat split; auto. intros ?; destruct t; reflexivity.
  - rewrite Hlock, Hsrv. repeat split; auto. intros ?; destruct t; reflexivity.
  - rewrite Hlock, Hsrv. repeat split; auto. intros ?; destruct t; reflexivity.
Qed.

Lemma step_keeps_frozen :
  forall env t s u e,
    disciplined s -> raised s u e ->
    frozen u s (step env t s) /\ raised (step env t s) u e.
Proof.
  intros env t s u e Hd Hr.
  pose proof (@raised_holds_the_lock s u e Hd Hr) as Hl.
  assert (Hsame : frozen u s s /\ raised s u e)
    by (split; [apply frozen_refl, Hl | exact Hr]).
  destruct Hd as [Hw Hc]. destruct t as [| i]; unfold step.
  - (* the worker moves *)
    destruct (worker_thread s) as [a | e0 | X c k] eqn:Ew; try exact Hsame.
    assert (Hu : Worker <> u).
    { intros <-. simpl in Hr. congruence. }
    destruct (handle env Worker c (shared s)) as [x w' | | e0] eqn:Eh;
      [| exact Hsame |].
    + unfold dies_holding in Hw. simpl in Hw. specialize (Hw x).
      destruct (lock_next (holds Worker (shared s)) c x) as [held' |] eqn:En;
        [| contradiction].
      destruct (@foreign_effect _ _ _ _ _ _ _ _ _ Hl Hu Eh En) as [Hl' [Hrec Hpass]].
      split.
      * split; [exact Hl' |]. split; [apply Hpass |].
        split; [exact Hrec | auto].
      * destruct u as [| j]; [contradiction | exact Hr].
    + split.
      * split; [exact Hl |]. repeat split; auto.
      * destruct u as [| j]; [contradiction | exact Hr].
  - (* a client moves *)
    destruct (nth_error (clients s) i) as [cl |] eqn:Ei; [| exact Hsame].
    destruct (request cl) as [a | e0 | X c k] eqn:Er; try exact Hsame.
    assert (Hu : Client i <> u).
    { intros <-. simpl in Hr. destruct Hr as [cl' [Hi' Hr]]. congruence. }
    assert (Hother :
      forall cl' j clj,
        j <> i -> nth_error (clients s) j = Some clj ->
        nth_error (update_client i cl' (clients s)) j = Some clj).
    { intros cl' j clj Hj H. rewrite nth_error_update_other; auto. }
    assert (Hraised :
      forall w' n tags cl',
        raised {| shared := w'; passes := n; stored_in := tags;
                  worker_thread := worker_thread s;
                  clients := update_client i cl' (clients s) |} u e).
    { intros w' n tags cl'. destruct u as [| j]; [exact Hr |].
      destruct Hr as [clj [Hj Hrj]]. exists clj. split; [| exact Hrj].
      apply Hother; [congruence | exact Hj]. }
    destruct (handle env (Client i) c (shared s)) as [x w' | | e0] eqn:Eh;
      [| exact Hsame |].
    + pose proof (Hc i cl Ei) as Hi.
      unfold dies_holding in Hi. rewrite Er in Hi. simpl in Hi.
      specialize (Hi x).
      destruct (lock_next (holds (Client i) (shared s)) c x)
        as [held' |] eqn:En; [| contradiction].
      destruct (@foreign_effect _ _ _ _ _ _ _ _ _ Hl Hu Eh En) as [Hl' [Hrec _]].
      split; [| apply Hraised].
      split; [exact Hl' |]. split; [reflexivity |]. split; [exact Hrec |].
      intros j clj Hj Htakes. simpl.
      destruct (Nat.eq_dec j i) as [Hji | Hji]; [| apply Hother; auto].
      subst j. rewrite Ei in Hj. inversion Hj; subst clj.
      apply takes_the_lock_is_at_acquire in Htakes. rewrite Er in Htakes.
      destruct c; simpl in Htakes; try discriminate.
      pose proof (handle_lock _ _ _ _ Eh) as [H0 _]. congruence.
    + split; [| apply Hraised].
      split; [exact Hl |]. split; [reflexivity |].
      split; [intros a Ha; reflexivity |].
      intros j clj Hj Htakes. simpl.
      destruct (Nat.eq_dec j i) as [Hji | Hji]; [| apply Hother; auto].
      subst j. rewrite Ei in Hj. inversion Hj; subst clj.
      apply takes_the_lock_is_at_acquire in Htakes. rewrite Er in Htakes.
      destruct c; simpl in Htakes; try discriminate.
      pose proof (handle_throws _ _ _ _ Eh) as H0. contradiction.
Qed.

Lemma exec_keeps_frozen :
  forall env schedule s u e,
    disciplined s -> raised s u e -> frozen u s (exec env schedule s).
Proof.
  intros env schedule.
  induction schedule as [| t schedule IH]; intros s u e Hd Hr; simpl.
  - apply frozen_refl. eapply raised_holds_the_lock; eauto.
  - destruct (@step_keeps_frozen env t s u e Hd Hr) as [Hf Hr'].
    eapply frozen_trans; [exact Hf |].
    eapply IH; [apply step_keeps_disciplined, Hd | exact Hr'].
Qed.

(** X1: a failed pass freezes the service.  Whatever the frames, the
    requests and the schedule: when the worker thread has ended with an
    exception, it holds [st_lock]; and from then on, whatever runs, the
    worker still holds the lock, no pass begins, no attribute of the server
    but [st_running] changes, and every request [coor], [filepath] or
    [last_solve] that has not got the lock yet is where it was: it waits
    for ever. *)
Theorem a_failed_pass_freezes_the_service :
  forall cvar st fuel env requests before after e,
    Forall is_request requests ->
    let s := exec env before (boot cvar st fuel requests) in
    worker_thread s = Raise e ->
    st_lock (shared s) = Some Worker
    /\ frozen Worker s (exec env after s).
Proof.
  intros cvar st fuel env requests before after e Hreq s Hr.
  assert (Hd : disciplined s)
    by (apply exec_keeps_disciplined, boot_disciplined, Hreq).
  split.
  - exact (@raised_holds_the_lock s Worker e Hd Hr).
  - exact (@exec_keeps_frozen env after s Worker e Hd Hr).
Qed.

(** X2: a call of [last_solve] freezes the service.  The only exception a
    request ends with is the [UnboundLocalError] of [last_solve], raised
    between its [acquire] and its [release]: the client holds [st_lock], and
    from then on the lock stays with it, the worker begins no pass, the
    record does not change and every other read waits for ever. *)
Theorem last_solve_freezes_the_service :
  forall cvar st fuel env requests before after i cl e,
    Forall is_request requests ->
    let s := exec env before (boot cvar st fuel requests) in
    nth_error (clients s) i = Some cl ->
    request cl = Raise e ->
    e = UnboundLocalError "p_solve"
    /\ st_lock (shared s) = Some (Client i)
    /\ frozen (Client i) s (exec env after s).
Proof.
  intros cvar st fuel env requests before after i cl e Hreq s Hi Hr.
  assert (Hd : disciplined s)
    by (apply exec_keeps_disciplined, boot_disciplined, Hreq).
  assert (Hraised : raised s (Client i) e) by (exists cl; auto).
  split; [| split].
  - destruct Hd as [_ Hc]. specialize (Hc i cl Hi).
    unfold dies_holding in Hc. rewrite Hr in Hc. simpl in Hc.
    exact (proj2 Hc).
  - exact (@raised_holds_the_lock s (Client i) e Hd Hraised).
  - exact (@exec_keeps_frozen env after s (Client i) e Hd Hraised).
Qed.

Lemma a_failed_pass_freezes_the_service_witness :
  let s := exec Scenario.daylight (repeat Worker 40)
             (boot Scenario.cvar Scenario.playback 3 [coor; filepath]) in
  Forall is_request [coor; filepath]
  /\ worker_thread s = Raise (NameError "p_solve")
  /\ st_lock (shared s) = Some Worker
  /\ frozen Worker s
       (exec Scenario.daylight [Client 0; Client 1; Worker; Client 0] s).
Proof.
  intros s.
  assert (Hreq : Forall is_request [coor; filepath]).
  { constructor; [left; reflexivity |].
    constructor; [right; left; reflexivity | constructor]. }
  assert (Hr : worker_thread s = Raise (NameError "p_solve"))
    by (vm_compute; reflexivity).
  split; [exact Hreq |]. split; [exact Hr |].
  exact (@a_failed_pass_freezes_the_service Scenario.cvar Scenario.playback 3
           Scenario.daylight [coor; filepath] (repeat Worker 40)
           [Client 0; Client 1; Worker; Client 0] (NameError "p_solve")
           Hreq Hr).
Defined.

Lemma last_solve_freezes_the_service_witness :
  let s := exec Scenario.clear_sky [Client 0]
             (boot Scenario.cvar Scenario.playback 3 [last_solve; coor]) in
  Forall is_request [last_solve; coor]
  /\ UnboundLocalError "p_solve" = UnboundLocalError "p_solve"
  /\ st_lock (shared s) = Some (Client 0)
  /\ frozen (Client 0) s
       (exec Scenario.clear_sky (repeat Worker 20 ++ [Client 1; Client 0]) s).
Proof.
  intros s.
  assert (Hreq : Forall is_request [last_solve; coor]).
  { constructor; [right; right; left; reflexivity |].
    constructor; [left; reflexivity | constructor]. }
  split; [exact Hreq |].
  refine (@last_solve_freezes_the_service Scenario.cvar Scenario.playback 3
            Scenario.clear_sky [last_solve; coor] [Client 0]
            (repeat Worker 20 ++ [Client 1; Client 0]) 0
            {| request := Raise (UnboundLocalError "p_solve");
               observed := [] |}
            (UnboundLocalError "p_solve") Hreq _ _); reflexivity.
Defined.

(** * [end] and the loop of the worker *)

Lemma loop_next_quiet :
  forall m X (c : eff X) x, quiet c = true -> loop_next m c x = Some m.
Proof. intros m X c x; destruct c; simpl; auto; discriminate. Qed.

Ltac loop_after_quiet lemma :=
  apply (guarded_after_ignored loop_next quiet loop_next_quiet);
  [ apply lemma | intros; exact I | intros ].

Ltac loop_step :=
  cbn [bind perform call guarded loop_next]; intros.

(** A pass begins with the [acquire], and neither reads nor stores
    [st_running]. *)
Lemma pass_is_tracked :
  forall cvar st,
    guarded loop_next Committed (star_tracker_pass cvar st)
      (fun m _ => m = AtTest) (fun _ _ => True).
Proof.
  intros cvar st. unfold star_tracker_pass. loop_step.
  loop_after_quiet quiet_capture.
  destruct a as [path img]. loop_step.
  loop_after_quiet quiet_preprocess.
  destruct (negb (a =? "good")).
  - unfold reject_frame. loop_after_quiet quiet_error.
    rewrite load_global_p_solve. exact I.
  - loop_after_quiet quiet_solve.
    destruct a0 as [[[d r] o] l].
    unfold store_solution, all_zero_test. loop_step.
    repeat match goal with
           | |- context [if py_eq ?u ?v then _ else _] =>
               destruct (py_eq u v); loop_step
           end.
    all: try (loop_after_quiet quiet_error;
              rewrite load_global_p_solve; exact I).
    all: loop_step; reflexivity.
Qed.

Lemma star_tracker_is_tracked :
  forall cvar st fuel,
    guarded loop_next AtTest (star_tracker cvar st fuel)
      (fun _ _ => True) (fun _ _ => True).
Proof.
  intros cvar st fuel. unfold star_tracker.
  loop_after_quiet quiet_debug_inside.
  apply guarded_bind.
  apply (@guarded_weaken _ loop_next _ _ _
           (fun m r => match r with Stopped => True | OutOfFuel => True end)
           _ (fun _ _ => True)); auto.
  - intros m r _. destruct r; [| exact I].
    loop_after_quiet quiet_debug_end. exact I.
  - induction fuel as [| fuel IH]; [exact I |].
    change (guarded loop_next AtTest
              (running <- perform (GetAttr self_st_running) ;;
               if py_truthy running
               then star_tracker_pass cvar st ;; while_st_running cvar st fuel
               else Ret Stopped)%prog
              (fun m r => match r with Stopped => True | OutOfFuel => True end)
              (fun _ _ => True)).
    loop_step. destruct (py_truthy x); [| exact I].
    apply guarded_bind.
    eapply guarded_weaken; [| | apply pass_is_tracked]; auto.
    intros m u Hm. cbv beta in Hm. subst m. exact IH.
Qed.

Lemma quiet_stops_only :
  forall X (c : eff X), quiet c = true -> stops_only c = true.
Proof. intros X c; destruct c; simpl; auto; discriminate. Qed.

Lemma requests_stop_only :
  forall p, is_request p -> emits stops_only p.
Proof.
  intros p [H | [H | [H | H]]]; subst p.
  - unfold coor. simpl. repeat split; auto.
  - unfold filepath. simpl. repeat split; auto.
  - unfold last_solve. simpl. repeat split; auto.
  - unfold server_end.
    apply emits_bind;
      [eapply emits_weaken; [exact quiet_stops_only | apply quiet_debug_inside]
      | intros _].
    apply emits_bind; [simpl; auto | intros _].
    apply emits_bind;
      [eapply emits_weaken; [exact quiet_stops_only | apply quiet_debug_end]
      | intros _].
    exact I.
Qed.

Lemma boot_tracked :
  forall cvar st fuel requests,
    Forall is_request requests -> tracked AtTest (boot cvar st fuel requests).
Proof.
  intros cvar st fuel requests Hreq. split.
  - apply star_tracker_is_tracked.
  - intros i cl Hi. simpl in Hi. rewrite nth_error_map in Hi.
    destruct (nth_error requests i) as [p |] eqn:Ep; [| discriminate].
    inversion Hi; subst cl; clear Hi. simpl.
    apply requests_stop_only.
    rewrite Forall_forall in Hreq. apply Hreq.
    eapply nth_error_In; eauto.
Qed.

(** A step keeps the worker on its loop; and once the flag is clear, it
    stays clear and the passes begun so far, plus the one the worker may be
    committed to, do not grow. *)
Lemma step_keeps_tracked :
  forall env t s m,
    tracked m s ->
    exists m',
      tracked m' (step env t s)
      /\ (stopping s ->
          stopping (step env t s)
          /\ passes (step env t s) + credit m' <= passes s + credit m).
Proof.
  intros env t s m [Hw Hc].
  assert (Hsame :
    exists m', tracked m' s
               /\ (stopping s ->
                   stopping s /\ passes s + credit m' <= passes s + credit m)).
  { exists m. split; [split; assumption |]. intros H. split; [exact H | lia]. }
  destruct t as [| i]; unfold step.
  - (* the worker moves *)
    destruct (worker_thread s) as [a | e | X c k] eqn:Ew; try exact Hsame.
    destruct (handle env Worker c (shared s)) as [x w' | | e] eqn:Eh;
      [| exact Hsame |].
    + simpl in Hw. specialize (Hw x).
      destruct (loop_next m c x) as [m' |] eqn:En; [| contradiction].
      exists m'. split; [split; [exact Hw | exact Hc] |].
      unfold stopping. simpl. intros Hs.
      pose proof (handle_server _ _ _ _ Eh) as Hsrv.
      destruct c; simpl in En, Hsrv.
      * destruct m; try discriminate. inversion En; subst m'.
        rewrite Hsrv. split; [exact Hs | simpl; lia].
      * inversion En; subst m'. rewrite Hsrv. split; [exact Hs | lia].
      * rewrite Hsrv. split; [exact Hs |].
        destruct a; try (inversion En; subst m'; lia).
        destruct m; try discriminate.
        apply handle_read in Eh. simpl in Eh. subst x.
        rewrite Hs in En. inversion En; subst m'. simpl. lia.
      * destruct a; try discriminate; inversion En; subst m';
          rewrite Hsrv; (split; [exact Hs | lia]).
      * inversion En; subst m'. rewrite Hsrv. split; [exact Hs | lia].
      * inversion En; subst m'. rewrite Hsrv. split; [exact Hs | lia].
      * inversion En; subst m'. rewrite Hsrv. split; [exact Hs | lia].
    + exists m. split; [split; [exact I | exact Hc] |].
      intros Hs. split; [exact Hs | simpl; lia].
  - (* a client moves *)
    destruct (nth_error (clients s) i) as [cl |] eqn:Ei; [| exact Hsame].
    pose proof (Hc i cl Ei) as Hi.
    destruct (request cl) as [a | e | X c k] eqn:Er; try exact Hsame.
    assert (Hclients :
      forall cl', emits stops_only (request cl') ->
                  forall j clj,
                    nth_error (update_client i cl' (clients s)) j = Some clj ->
                    emits stops_only (request clj)).
    { intros cl' Hcl' j clj Hj. destruct (Nat.eq_dec i j) as [Hij | Hij].
      - subst j. rewrite (nth_error_update_same _ _ _ Ei) in Hj.
        inversion Hj; subst clj. exact Hcl'.
      - rewrite (nth_error_update_other _ _ Hij) in Hj. apply (Hc j), Hj. }
    destruct (handle env (Client i) c (shared s)) as [x w' | | e] eqn:Eh;
      [| exact Hsame |].
    + simpl in Hi. destruct Hi as [Hstop Hk].
      exists m. split; [split; [exact Hw | apply Hclients; apply Hk] |].
      unfold stopping. simpl. intros Hs.
      pose proof (handle_server _ _ _ _ Eh) as Hsrv.
      split; [| lia].
      destruct c; simpl in Hsrv, Hstop; try (rewrite Hsrv; exact Hs).
      rewrite Hsrv.
      destruct a; simpl; try exact Hs.
      destruct v as [| [|] | | | | |]; try discriminate. reflexivity.
    + exists m. split; [split; [exact Hw | apply Hclients; exact I] |].
      intros Hs. split; [exact Hs | simpl; lia].
Qed.

Lemma exec_keeps_tracked :
  forall env schedule s m,
    tracked m s ->
    exists m',
      tracked m' (exec env schedule s)
      /\ (stopping s ->
          stopping (exec env schedule s)
          /\ passes (exec env schedule s) + credit m' <= passes s + credit m).
Proof.
  intros env schedule.
  induction schedule as [| t schedule IH]; intros s m Ht; simpl.
  - exists m. split; [exact Ht |]. intros H. split; [exact H | lia].
  - destruct (step_keeps_tracked env t Ht) as [m1 [Ht1 H1]].
    destruct (IH _ m1 Ht1) as [m2 [Ht2 H2]].
    exists m2. split; [exact Ht2 |]. intros Hs.
    destruct (H1 Hs) as [Hs1 Hp1]. destruct (H2 Hs1) as [Hs2 Hp2].
    split; [exact Hs2 | lia].
Qed.

(** X3: [end] stops the worker within one pass.  Whatever the frames, the
    requests and the schedule: once [st_running] is [False] (the only value
    that is ever stored in it, by [end]) it stays [False], and the worker
    begins at most one more pass: the one whose loop test it had passed
    before. *)
Theorem the_worker_begins_at_most_one_pass_after_end :
  forall cvar st fuel env requests before after,
    Forall is_request requests ->
    let s := exec env before (boot cvar st fuel requests) in
    let s' := exec env after s in
    stopping s ->
    stopping s' /\ passes s' <= S (passes s).
Proof.
  intros cvar st fuel env requests before after Hreq s s' Hs.
  destruct (exec_keeps_tracked env before (boot_tracked cvar st fuel Hreq))
    as [m [Ht _]].
  destruct (exec_keeps_tracked env after Ht) as [m' [_ H]].
  destruct (H Hs) as [Hs' Hp]. split; [exact Hs' |].
  fold s s' in Hp. destruct m; simpl in Hp; lia.
Qed.

(** The bound is reached: the worker has passed its loop test when [end]
    stores [False]; it begins one pass, publishes, and stops. *)
Example one_more_pass_after_end :
  let s := exec Scenario.clear_sky (repeat Worker 5 ++ repeat (Client 0) 9)
             (boot Scenario.cvar Scenario.playback 5 [server_end; coor]) in
  let s' := exec Scenario.clear_sky (repeat Worker 300) s in
  st_running (server (shared s)) = VBool false
  /\ passes s = 0
  /\ passes s' = 1
  /\ worker_thread s' = Ret Stopped.
Proof. vm_compute. repeat split; reflexivity. Qed.

Lemma the_worker_begins_at_most_one_pass_after_end_witness :
  let s := exec Scenario.clear_sky (repeat Worker 5 ++ repeat (Client 0) 9)
             (boot Scenario.cvar Scenario.playback 5 [server_end; coor]) in
  let s' := exec Scenario.clear_sky (repeat Worker 300) s in
  Forall is_request [server_end; coor]
  /\ stopping s
  /\ stopping s'
  /\ passes s' <= S (passes s).
Proof.
  intros s s'.
  assert (Hreq : Forall is_request [server_end; coor]).
  { constructor; [right; right; right; reflexivity |].
    constructor; [left; reflexivity | constructor]. }
  assert (Hs : stopping s) by (vm_compute; reflexivity).
  split; [exact Hreq |]. split; [exact Hs |].
  exact (@the_worker_begins_at_most_one_pass_after_end
           Scenario.cvar Scenario.playback 5 Scenario.clear_sky
           [server_end; coor] (repeat Worker 5 ++ repeat (Client 0) 9)
           (repeat Worker 300) Hreq Hs).
Defined.

(** * The methods of the solver *)

(** The events of [l] that come before its tail [tl]. *)
Ltac prefix_of l tl :=
  match l with
  | tl => constr:(@nil event)
  | ?x :: ?l' => let r := prefix_of l' tl in constr:(x :: r)
  end.

(** ** [capture] from a sample directory *)

(** X5: [capture] on an empty sample directory.  When [glob] finds no file
    in the sample directory, [random.choice] raises [IndexError]: [capture]
    ends with it before it reads any file and before the epilogue of its
    trace, so that [STACK_LAYERS] is left one higher than it was. *)
Theorem capture_of_an_empty_sample_dir :
  forall (env : oracle) t self dir w,
    SAMPLE_DIR self = Some dir ->
    (forall n, env _ (glob_glob (dir ++ "*")%string) n = []) ->
    run env t (capture self) w
    = (Raised (IndexError "Cannot choose from an empty sequence"),
       {| server := server w;
          st_lock := st_lock w;
          STACK_LAYERS := STACK_LAYERS w + 1;
          ticks := S (S (ticks w));
          trace :=
            [ Ev t (Ext (glob_glob (dir ++ "*")%string)) [];
              Ev t (SetStackLayers (STACK_LAYERS w + 1)) tt;
              Ev t GetStackLayers (STACK_LAYERS w);
              Ev t (Ext (py_print (spaces (STACK_LAYERS w)
                                   ++ "Inside StarTracker.capture")%string))
                tt;
              Ev t GetStackLayers (STACK_LAYERS w) ]
            ++ trace w |}).
Proof.
  intros env t self dir w Hdir Hempty. unfold capture. rewrite Hdir.
  unfold_debug. cbn.
  repeat match goal with
         | |- context [env unit ?c ?n] => destruct (env unit c n)
         end.
  rewrite Hempty. reflexivity.
Qed.

Lemma capture_of_an_empty_sample_dir_witness :
  SAMPLE_DIR Scenario.playback = Some "/samples/"
  /\ fst (run empty_sample_dir Worker (capture Scenario.playback) world_init)
     = Raised (IndexError "Cannot choose from an empty sequence").
Proof.
  split; [reflexivity |].
  rewrite (@capture_of_an_empty_sample_dir
             empty_sample_dir Worker Scenario.playback "/samples/" world_init
             eq_refl (fun n => eq_refl)).
  reflexivity.
Defined.

(** X6: [capture] picks a file of the sample directory.  When [glob] finds
    at least one file, [capture] returns one of the paths that [glob] listed
    and, with it, whatever [cv2.imread] made of that very path ([None] for a
    file it cannot decode); the read is the last thing it does, and lock,
    server and [STACK_LAYERS] are as they were. *)
Theorem capture_picks_a_file_of_the_sample_dir :
  forall (env : oracle) t self dir w,
    SAMPLE_DIR self = Some dir ->
    (forall n, env _ (glob_glob (dir ++ "*")%string) n <> []) ->
    exists paths path img w' new,
      run env t (capture self) w = (Done (VStr path, img), w')
      /\ trace w' = Ev t (Ext (cv2_imread path)) img :: new ++ trace w
      /\ In (Ev t (Ext (glob_glob (dir ++ "*")%string)) paths) new
      /\ In path paths
      /\ STACK_LAYERS w' = STACK_LAYERS w
      /\ server w' = server w
      /\ st_lock w' = st_lock w.
Proof.
  intros env t self dir w Hdir Hsome. unfold capture. rewrite Hdir.
  unfold_debug. unfold random_choice. cbn [bind].
  rewrite run_get_stack, run_call, run_get_stack, run_set_stack, run_call.
  cbn [STACK_LAYERS server st_lock ticks answered stack_read stack_set].
  match goal with
  | |- context [env (list string) ?c ?n] =>
      pose proof (Hsome n) as Hn; set (paths := env (list string) c n) in *
  end.
  destruct paths as [| first rest] eqn:Ep; [contradiction |].
  cbn [bind call perform].
  rewrite run_call. cbn [bind].
  match goal with
  | |- context [env nat ?c ?n] => set (i := env nat c n)
  end.
  rewrite run_get_stack, run_set_stack, run_get_stack, run_call.
  cbn [bind]. rewrite run_call, run_ret.
  cbn [STACK_LAYERS server st_lock ticks answered stack_read stack_set].
  set (path := nth (i mod length (first :: rest)) (first :: rest) first).
  exists (first :: rest), path. do 2 eexists.
  match goal with
  | |- exists new, (_, ?W) = _ /\ _ =>
      let tr := eval cbn [trace answered stack_read stack_set] in (trace W) in
      match tr with
      | _ :: ?tr' => let n := prefix_of tr' (trace w) in exists n
      end
  end.
  split; [reflexivity |]. cbn [trace answered stack_read stack_set app].
  split; [reflexivity |]. split.
  { do 5 right. left. reflexivity. }
  split.
  { apply nth_In. apply Nat.mod_upper_bound. discriminate. }
  cbn [STACK_LAYERS server st_lock answered stack_read stack_set].
  repeat split. lia.
Qed.

Lemma capture_picks_a_file_of_the_sample_dir_witness :
  SAMPLE_DIR Scenario.playback = Some "/samples/"
  /\ exists paths path img w' new,
      run Scenario.clear_sky Worker (capture Scenario.playback) world_init
      = (Done (VStr path, img), w')
      /\ trace w'
         = Ev Worker (Ext (cv2_imread path)) img :: new ++ trace world_init
      /\ In (Ev Worker (Ext (glob_glob ("/samples/" ++ "*")%string)) paths) new
      /\ In path paths
      /\ STACK_LAYERS w' = STACK_LAYERS world_init
      /\ server w' = server world_init
      /\ st_lock w' = st_lock world_init.
Proof.
  split; [reflexivity |].
  apply (@capture_picks_a_file_of_the_sample_dir
           Scenario.clear_sky Worker Scenario.playback "/samples/" world_init
           eq_refl).
  intros n. discriminate.
Defined.

(** ** [error] and [modify] *)

(** The world of a finished run, given by what the run has added to the
    trace. *)
Ltac give_new w :=
  match goal with
  | |- exists new, (_, ?W) = _ /\ _ =>
      let tr := eval cbn [trace answered stack_read stack_set attr_read
                          attr_set locked unlocked] in (trace W) in
      let n := prefix_of tr (trace w) in exists n
  | |- exists new w', (_, ?W) = _ /\ _ =>
      let tr := eval cbn [trace answered stack_read stack_set attr_read
                          attr_set locked unlocked] in (trace W) in
      let n := prefix_of tr (trace w) in exists n
  end.

(** X10: [error] takes a corrective action for two verdicts only.  For
    every string [error] returns 0 and leaves lock, server and
    [STACK_LAYERS] as they were; it calls [modify] (whose two lines appear in
    the output, one level deeper) exactly when the string is ["image too
    blurry"] or ["image contains too few stars"]: for ["unsuitable image"],
    ["bad solve"] and any other string nothing is done. *)
Theorem error_corrects_two_verdicts_only :
  forall (env : oracle) t self err_string w,
    exists new w',
      run env t (error self err_string) w = (Done 0%Z, w')
      /\ trace w' = new ++ trace w
      /\ printed (rev new)
         = error_lines (STACK_LAYERS w) (has_corrective_action err_string)
      /\ STACK_LAYERS w' = STACK_LAYERS w
      /\ server w' = server w
      /\ st_lock w' = st_lock w.
Proof.
  intros env t self err_string w.
  unfold error, modify, has_corrective_action.
  destruct (err_string =? "image too blurry")%string;
    [| destruct (err_string =? "image contains too few stars")%string];
    unfold_debug; repeat run_step; give_new w; eexists;
    (split; [reflexivity |]);
    cbn [trace STACK_LAYERS server st_lock answered stack_read stack_set
         app rev printed flat_map print_line orb error_lines];
    (split; [reflexivity |]);
    (split; [repeat (f_equal; try lia) |]);
    repeat split; lia.
Qed.

(** ** [startup] *)

(** X9: [startup] leaves a started solver.  Whatever the paths and the
    replies of the libraries, [startup] returns: the engine's objects
    ([S_DB], [SQ_RESULTS], [S_FILTERED], [C_DB]) are set, [SAMPLE_DIR] is the
    argument, the threshold and the epoch are untouched, and [MEDIAN_IMAGE]
    is whatever [cv2.imread] made of the median path, [None] included: an
    unreadable median image is not noticed here. *)
Theorem startup_leaves_a_started_solver :
  forall cvar (env : oracle) t self median config db sample_dir w,
    exists self' new w',
      run env t (startup cvar self median config db sample_dir) w
      = (Done self', w')
      /\ trace w' = new ++ trace w
      /\ started self'
      /\ S_DB self' <> None
      /\ S_FILTERED self' <> None
      /\ SAMPLE_DIR self' = sample_dir
      /\ P_MATCH_THRESH self' = P_MATCH_THRESH self
      /\ YEAR self' = YEAR self
      /\ In (Ev t (Ext (cv2_imread median)) (MEDIAN_IMAGE self')) new
      /\ STACK_LAYERS w' = STACK_LAYERS w
      /\ server w' = server w
      /\ st_lock w' = st_lock w.
Proof.
  intros cvar env t self median config db sample_dir w.
  unfold startup. unfold_debug. repeat run_step.
  eexists. give_new w. eexists.
  split; [reflexivity |].
  cbn [trace STACK_LAYERS server st_lock answered stack_read stack_set app
       SAMPLE_DIR P_MATCH_THRESH YEAR MEDIAN_IMAGE S_DB S_FILTERED].
  split; [reflexivity |].
  split; [split; discriminate |].
  split; [discriminate |]. split; [discriminate |].
  split; [reflexivity |]. split; [reflexivity |]. split; [reflexivity |].
  split; [simpl; tauto |].
  repeat split. lia.
Qed.

(** ** The worker that finds [st_running] clear *)

(** X13: a worker that finds [st_running] clear at its first test does
    nothing.  It prints the two lines of its trace and returns: it takes no
    lock, captures no frame, and leaves the server and [STACK_LAYERS] as
    they were. *)
Theorem a_stopped_worker_does_nothing :
  forall cvar st (env : oracle) t fuel w,
    py_truthy (st_running (server w)) = false ->
    run env t (star_tracker cvar st (S fuel)) w
    = (Done Stopped,
       {| server := server w;
          st_lock := st_lock w;
          STACK_LAYERS := STACK_LAYERS w + 1 - 1;
          ticks := S (S (ticks w));
          trace :=
            [ Ev t (Ext (py_print (spaces (STACK_LAYERS w + 1 - 1)
                                   ++ "End Server.star_tracker")%string)) tt;
              Ev t GetStackLayers (STACK_LAYERS w + 1 - 1)%Z;
              Ev t (SetStackLayers (STACK_LAYERS w + 1 - 1)) tt;
              Ev t GetStackLayers (STACK_LAYERS w + 1)%Z;
              Ev t (GetAttr self_st_running) (st_running (server w));
              Ev t (SetStackLayers (STACK_LAYERS w + 1)) tt;
              Ev t GetStackLayers (STACK_LAYERS w);
              Ev t (Ext (py_print (spaces (STACK_LAYERS w)
                                   ++ "Inside Server.star_tracker")%string))
                tt;
              Ev t GetStackLayers (STACK_LAYERS w) ]
            ++ trace w |}).
Proof.
  intros cvar st env t fuel w Hstop. unfold star_tracker.
  change (while_st_running cvar st (S fuel))
    with (running <- perform (GetAttr self_st_running) ;;
          if py_truthy running
          then star_tracker_pass cvar st ;; while_st_running cvar st fuel
          else Ret Stopped)%prog.
  unfold_debug.
  rewrite run_get_stack, run_call, run_get_stack, run_set_stack.
  cbn [bind]. rewrite run_get_attr.
  cbn [get_attr server stack_set stack_read answered].
  rewrite Hstop. cbn [bind].
  rewrite run_get_stack, run_set_stack, run_get_stack, run_call, run_ret.
  cbn.
  repeat match goal with
         | |- context [env unit ?c ?n] => destruct (env unit c n)
         end.
  reflexivity.
Qed.

Lemma a_stopped_worker_does_nothing_witness :
  let w := attr_set (Client 0) self_st_running (VBool false) world_init in
  py_truthy (st_running (server w)) = false
  /\ fst (run Scenario.clear_sky Worker
            (star_tracker Scenario.cvar Scenario.playback 3) w)
     = Done Stopped.
Proof.
  intros w. split; [reflexivity |].
  rewrite (@a_stopped_worker_does_nothing Scenario.cvar Scenario.playback
             Scenario.clear_sky Worker 2 w eq_refl).
  reflexivity.
Defined.

(** ** The test of a bad solve *)

Lemma eqb_zero :
  forall x : float,
    PrimFloat.eqb x 0 = true -> exists s, Prim2SF x = S754_zero s.
Proof.
  intros x. rewrite eqb_spec. change (Prim2SF 0) with (S754_zero false).
  destruct (Prim2SF x) as [s | s | | s m e]; simpl; try discriminate;
    try (destruct s; discriminate).
  intros _. exists s. reflexivity.
Qed.

(** Equal to a zero is equal to [0.0]. *)
Lemma eqb_to_a_zero :
  forall x y : float,
    PrimFloat.eqb y 0 = true -> PrimFloat.eqb x y = PrimFloat.eqb x 0.
Proof.
  intros x y Hy. destruct (@eqb_zero y Hy) as [s Hs].
  rewrite !eqb_spec, Hs. change (Prim2SF 0) with (S754_zero false).
  destruct (Prim2SF x) as [sx | sx | | sx m e]; reflexivity.
Qed.

Lemma nan_is_not_zero :
  forall x : float, PrimFloat.is_nan x = true -> PrimFloat.eqb x 0 = false.
Proof.
  intros x. unfold PrimFloat.is_nan. rewrite !eqb_spec.
  change (Prim2SF 0) with (S754_zero false).
  destruct (Prim2SF x) as [s | s | | s m e]; simpl; try reflexivity;
    try (destruct s; simpl; intros H; (discriminate H || reflexivity)).
Qed.

(** X12: the test of a bad solve is three tests against zero.  With floats
    in [dec], [ra] and [ori], the chained comparison
    [self.dec == self.ra == self.ori == 0.0] holds exactly when each of the
    three compares equal to [0.0]: a negative zero counts as zero, and a NaN
    in any of them makes the test fail, so that such a solution is
    published.  The test stores nothing. *)
Theorem the_bad_solve_test_is_three_zero_tests :
  forall (env : oracle) t w d r o,
    dec (server w) = VFloat d ->
    ra (server w) = VFloat r ->
    ori (server w) = VFloat o ->
    fst (run env t all_zero_test w)
    = Done (PrimFloat.eqb d 0 && PrimFloat.eqb r 0 && PrimFloat.eqb o 0)
    /\ server (snd (run env t all_zero_test w)) = server w
    /\ (PrimFloat.is_nan d = true \/ PrimFloat.is_nan r = true
        \/ PrimFloat.is_nan o = true ->
        fst (run env t all_zero_test w) = Done false).
Proof.
  intros env t w d r o Hd Hr Ho.
  assert (Hrun :
    fst (run env t all_zero_test w)
    = Done (PrimFloat.eqb d 0 && PrimFloat.eqb r 0 && PrimFloat.eqb o 0)
    /\ server (snd (run env t all_zero_test w)) = server w).
  { unfold all_zero_test. cbn [bind perform].
    rewrite !run_get_attr.
    cbn [get_attr server attr_read]. rewrite Hd, Hr. cbn [py_eq].
    destruct (PrimFloat.eqb d r) eqn:Edr; cbn [bind].
    - rewrite run_get_attr. cbn [get_attr server attr_read]. rewrite Ho.
      cbn [py_eq].
      destruct (PrimFloat.eqb r o) eqn:Ero; cbn [bind]; rewrite run_ret;
        cbn [fst snd server attr_read]; (split; [| reflexivity]).
      + destruct (PrimFloat.eqb o 0) eqn:Eo.
        * rewrite (@eqb_to_a_zero r o Eo) in Ero.
          rewrite (@eqb_to_a_zero d r Ero) in Edr.
          rewrite Edr, Ero. reflexivity.
        * rewrite !andb_false_r. reflexivity.
      + destruct (PrimFloat.eqb o 0) eqn:Eo.
        * rewrite (@eqb_to_a_zero r o Eo) in Ero. rewrite Ero.
          rewrite andb_false_r. reflexivity.
        * rewrite !andb_false_r. reflexivity.
    - rewrite run_ret. cbn [fst snd server attr_read].
      split; [| reflexivity].
      destruct (PrimFloat.eqb r 0) eqn:Er0.
      + rewrite (@eqb_to_a_zero d r Er0) in Edr. rewrite Edr. reflexivity.
      + rewrite andb_false_r. reflexivity. }
  destruct Hrun as [Hres Hsrv]. split; [exact Hres |]. split; [exact Hsrv |].
  intros Hnan. rewrite Hres.
  destruct Hnan as [H | [H | H]]; rewrite (@nan_is_not_zero _ H);
    rewrite ?andb_false_r; reflexivity.
Qed.

#[warnings="-inexact-float"]
Lemma the_bad_solve_test_is_three_zero_tests_witness :
  let w := attr_set Worker self_ori (VFloat nan)
             (attr_set Worker self_ra (VFloat 0)
                (attr_set Worker self_dec (VFloat (-0)) world_init)) in
  fst (run Scenario.clear_sky Worker all_zero_test w)
  = Done (PrimFloat.eqb (-0) 0 && PrimFloat.eqb 0 0 && PrimFloat.eqb nan 0)
  /\ server (snd (run Scenario.clear_sky Worker all_zero_test w)) = server w
  /\ (PrimFloat.is_nan (-0) = true \/ PrimFloat.is_nan 0 = true
      \/ PrimFloat.is_nan nan = true ->
      fst (run Scenario.clear_sky Worker all_zero_test w) = Done false).
Proof.
  intros w.
  exact (@the_bad_solve_test_is_three_zero_tests Scenario.clear_sky Worker w
           (-0)%float 0%float nan eq_refl eq_refl eq_refl).
Defined.

(** Negative zero passes the test, NaN fails it. *)
Example a_negative_zero_is_a_bad_solve :
  let w := attr_set Worker self_dec (VFloat (-0)) world_init in
  fst (run Scenario.clear_sky Worker all_zero_test w) = Done true.
Proof. vm_compute. reflexivity. Qed.

(** ** [preprocess] and the depth of the trace *)

(** X11: [preprocess] restores [STACK_LAYERS] only when the verdict is
    ["good"].  On a colour frame (three or four channels and no empty
    dimension: [cv2.cvtColor] converts no other frame to grey) whose bounds
    can be computed, [preprocess] returns one of its four verdicts and leaves
    lock and server alone; the returns of the three other verdicts leave
    before the epilogue of the trace, so that [STACK_LAYERS] stays one higher
    than it was. *)
Theorem preprocess_restores_the_depth_only_when_good :
  forall (env : oracle) t self img height width channels
         blur_check too_many_check w,
    shape img = [height; width; channels] ->
    colour_frame img = true ->
    py_int (float_of_Z (height * width) * blur_fraction)%float
    = Ret blur_check ->
    py_int (float_of_Z (height * width) * too_many_fraction)%float
    = Ret too_many_check ->
    exists verdict w',
      run env t (preprocess self (Some img)) w = (Done verdict, w')
      /\ In verdict ["image too blurry"; "image contains too few stars";
                     "unsuitable image"; "good"]%string
      /\ STACK_LAYERS w'
         = (if (verdict =? "good")%string then STACK_LAYERS w
            else STACK_LAYERS w + 1)%Z
      /\ server w' = server w
      /\ st_lock w' = st_lock w.
Proof.
  intros env t self img height width channels blur_check too_many_check w
    Hshape _ Hblur Hmany.
  unfold preprocess, unpack_shape. rewrite Hshape. unfold_debug.
  repeat run_step. rewrite Hblur. cbn [bind]. rewrite Hmany. cbn [bind].
  repeat run_step.
  match goal with
  | |- context [let (_, _) := ?r in _] => destruct r as [ret threshold]
  end.
  repeat run_step.
  match goal with
  | |- context [if (?a >? ?b)%Z then _ else _] => destruct (a >? b)%Z
  end.
  - repeat run_step.
    match goal with
    | |- context [if ?b then Ret _ else Ret _] => destruct b
    end; rewrite run_ret; do 2 eexists; (split; [reflexivity |]);
      cbn; repeat split; auto.
  - match goal with
    | |- context [if (?a <? ?b)%Z then _ else _] => destruct (a <? b)%Z
    end.
    + rewrite run_ret. do 2 eexists. split; [reflexivity |].
      cbn. repeat split; auto.
    + unfold_debug. repeat run_step. do 2 eexists. split; [reflexivity |].
      cbn. repeat split; auto. lia.
Qed.

Lemma preprocess_restores_the_depth_only_when_good_witness :
  exists verdict w',
    run Scenario.lens_cap Worker
      (preprocess Scenario.playback (Some Scenario.frame)) world_init
    = (Done verdict, w')
    /\ In verdict ["image too blurry"; "image contains too few stars";
                   "unsuitable image"; "good"]%string
    /\ STACK_LAYERS w'
       = (if (verdict =? "good")%string then STACK_LAYERS world_init
          else STACK_LAYERS world_init + 1)%Z
    /\ server w' = server world_init
    /\ st_lock w' = st_lock world_init.
Proof.
  apply (@preprocess_restores_the_depth_only_when_good
           Scenario.lens_cap Worker Scenario.playback Scenario.frame
           2%Z 2%Z 3%Z 3%Z 3%Z world_init).
  - reflexivity.
  - reflexivity.
  - vm_compute. reflexivity.
  - vm_compute. reflexivity.
Defined.

(** The depth drifts: after the dark frame of [Scenario.lens_cap] the next
    line is printed one level deeper. *)
Example a_rejected_frame_leaves_the_trace_deeper :
  STACK_LAYERS
    (snd (run Scenario.lens_cap Worker
            (preprocess Scenario.playback (Some Scenario.frame)) world_init))
  = 1%Z
  /\ STACK_LAYERS
       (snd (run Scenario.clear_sky Worker
               (preprocess Scenario.playback (Some Scenario.frame))
               world_init))
     = 0%Z.
Proof. vm_compute. split; reflexivity. Qed.

(** ** The loop over the contours *)

(** X7: the loop over the contours skips a contour without area.  Whatever
    [cv2.moments] reports (an area that is zero, negative or NaN included),
    as long as the squares of the centroids of the contours with an area do
    not overflow: the loop does not raise (it never divides by a zero area),
    asks for the moments of every contour, and appends one star, with
    identifier -1, for each contour whose area is positive, after one read
    of the pixel at its centroid; the stars it was given stay in front. *)
Theorem contours_without_area_are_skipped :
  forall cvar (env : oracle) t img_grey contours img_stars w,
    (forall c n,
        PrimFloat.ltb 0 (m00 (env _ (cv2_moments c) n)) = true ->
        power_in_range (env _ (cv2_moments c) n) = true) ->
    exists stars new w',
      run env t (process_contours cvar img_grey contours img_stars) w
      = (Done (img_stars ++ stars), w')
      /\ trace w' = new ++ trace w
      /\ length (filter is_moments new) = length contours
      /\ length stars = length (filter has_area new)
      /\ length (filter is_pixel_read new) = length stars
      /\ Forall (fun s => star_id s = (-1)%Z) stars
      /\ server w' = server w
      /\ st_lock w' = st_lock w.
Proof.
  intros cvar env t img_grey contours img_stars w Hrange.
  revert img_stars w.
  induction contours as [| c contours IH]; intros img_stars w.
  - exists [], [], w. rewrite app_nil_r. repeat split; auto.
  - cbn [process_contours bind call perform]. rewrite run_call.
    pose proof (Hrange c (ticks w)) as Hr.
    set (M := env moments (cv2_moments c) (ticks w)) in *.
    destruct (PrimFloat.ltb 0 (m00 M)) eqn:Hm.
    + specialize (Hr eq_refl).
      cbv beta zeta delta [power_in_range] in Hr.
      apply andb_true_iff in Hr. destruct Hr as [Hx Hy].
      repeat (first [ rewrite py_truediv_guarded by exact Hm
                    | rewrite (py_square_in_range _ Hx)
                    | rewrite (py_square_in_range _ Hy) ];
              cbn [bind]).
      rewrite run_call.
      match goal with
      | |- context [run env t (process_contours cvar img_grey contours
                                 (img_stars ++ [?s])) ?w1] =>
          destruct (IH (img_stars ++ [s]) w1)
            as [stars [new [w' [Hrun [Htr [Hms [Har [Hpx [Hid [Hs Hl]]]]]]]]]];
          exists (s :: stars), (new ++ firstn 2 (trace w1)), w'
      end.
      rewrite Hrun, <- app_assoc. split; [reflexivity |].
      rewrite Htr. cbn [trace answered firstn app].
      split; [rewrite <- app_assoc; reflexivity |].
      rewrite !filter_app, !length_app.
      cbn [filter is_moments has_area is_pixel_read length].
      fold M. rewrite Hm. cbn [length].
      split; [rewrite Hms; lia |]. split; [rewrite Har; lia |].
      split; [rewrite Hpx; lia |].
      split; [constructor; [reflexivity | exact Hid] |].
      split; [rewrite Hs | rewrite Hl]; reflexivity.
    + match goal with
      | |- context [run env t (process_contours cvar img_grey contours
                                 img_stars) ?w1] =>
          destruct (IH img_stars w1)
            as [stars [new [w' [Hrun [Htr [Hms [Har [Hpx [Hid [Hs Hl]]]]]]]]]];
          exists stars, (new ++ firstn 1 (trace w1)), w'
      end.
      rewrite Hrun. split; [reflexivity |].
      rewrite Htr. cbn [trace answered firstn app].
      split; [rewrite <- app_assoc; reflexivity |].
      rewrite !filter_app, !length_app.
      cbn [filter is_moments has_area is_pixel_read length].
      fold M. rewrite Hm. cbn [length].
      split; [rewrite Hms; lia |]. split; [rewrite Har; lia |].
      split; [rewrite Hpx; lia |].
      split; [exact Hid |].
      split; [rewrite Hs | rewrite Hl]; reflexivity.
Qed.

Lemma contours_without_area_are_skipped_witness :
  exists stars new w',
    run specks Worker
      (process_contours Scenario.cvar Scenario.frame
         [[]; [(0, 0)%Z]; []] []) world_init
    = (Done ([] ++ stars), w')
    /\ trace w' = new ++ trace world_init
    /\ length (filter is_moments new) = length [[]; [(0, 0)%Z]; [] : contour]
    /\ length stars = length (filter has_area new)
    /\ length (filter is_pixel_read new) = length stars
    /\ Forall (fun s => star_id s = (-1)%Z) stars
    /\ server w' = server world_init
    /\ st_lock w' = st_lock world_init.
Proof.
  apply (@contours_without_area_are_skipped Scenario.cvar specks Worker
           Scenario.frame [[]; [(0, 0)%Z]; []] [] world_init).
  intros c n. destruct c; vm_compute; intros H; (discriminate H || reflexivity).
Defined.

(** Of three contours, two of them empty, one becomes a star. *)
Example one_star_of_three_contours :
  fst (run specks Worker
         (process_contours Scenario.cvar Scenario.frame
            [[]; [(0, 0)%Z]; []] []) world_init)
  = Done [ {| star_x := (-1)%float; star_y := (-1)%float;
              star_flux := 200%float; star_id := (-1)%Z |} ].
Proof. vm_compute. reflexivity. Qed.

(** ** The searches of [solve] *)

Lemma beast_obj_eqb_refl : forall q, beast_obj_eqb q q = true.
Proof. induction q as [i | q IH]; simpl; [apply Nat.eqb_refl | exact IH]. Qed.

Lemma kd_next_ignored :
  forall m X (c : eff X) x, no_search c = true -> kd_next m c x = Some m.
Proof.
  intros m X c x. destruct c; try reflexivity.
  destruct c; simpl; try reflexivity; discriminate.
Qed.

Lemma replay_kd :
  forall h m, replay kd_next m h = Some (fold_left kd_step h m).
Proof.
  induction h as [| [t X c x] h IH]; intros m; simpl; [reflexivity |].
  apply IH.
Qed.

Lemma contour_eff_no_search :
  forall X (c : eff X), contour_eff c = true -> no_search c = true.
Proof.
  intros X c; destruct c; simpl; auto. destruct c; simpl; auto; discriminate.
Qed.

Lemma no_search_debug_inside :
  forall method, emits no_search (debug_inside method).
Proof. intros. unfold debug_inside, DEBUG_ENABLED. repeat step_emits. Qed.

Lemma no_search_debug_end :
  forall method, emits no_search (debug_end method).
Proof. intros. unfold debug_end, DEBUG_ENABLED. repeat step_emits. Qed.

Ltac kd_step_through :=
  cbn [bind perform call guarded kd_next kd_effect]; intros.

Ltac kd_after lemma :=
  apply (guarded_after_ignored kd_next no_search kd_next_ignored);
  [ apply lemma | intros; reflexivity | intros ].

(** Whatever [solve] has searched, it has cleared, when it returns and when
    it raises. *)
Lemma solve_is_guarded :
  forall cvar self img,
    guarded kd_next [] (solve cvar self img)
      (fun open _ => open = []) (fun open _ => open = []).
Proof.
  intros cvar self img. unfold solve.
  kd_after no_search_debug_inside. kd_step_through.
  unfold astype. destruct img as [arr |]; [| reflexivity].
  kd_step_through.
  apply (guarded_after_ignored kd_next no_search kd_next_ignored);
    [ apply emits_np_subtract | intros; reflexivity | intros _ ].
  kd_step_through.
  match goal with
  | |- context [let (_, _) := ?r in _] => destruct r as [ret thresh]
  end.
  kd_step_through.
  apply (guarded_after_ignored kd_next no_search kd_next_ignored);
    [ eapply emits_weaken;
        [exact contour_eff_no_search | apply process_contours_asks]
    | intros; reflexivity | intros img_stars ].
  kd_step_through.
  unfold engine_obj. destruct (C_DB self) as [c_db |]; [| reflexivity].
  kd_step_through.
  assert (Hend :
    forall (m : option db_match),
      guarded kd_next []
        ('(dec, ra, ori) <-
           match m with
           | Some m0 =>
               Ret (winner_get_dec m0, winner_get_ra m0, winner_get_ori m0)
           | None => Ret (0%float, 0%float, 0%float)
           end ;;
         endtime <- call time_time ;;
         debug_end "StarTracker.solve" ;;
         time <- load_global "time" ;;
         Ret (dec, ra, ori, time))%prog
        (fun open _ => open = []) (fun open _ => open = [])).
  { intros m. destruct m; kd_step_through;
      (kd_after no_search_debug_end); rewrite load_global_time;
      reflexivity. }
  match goal with
  | |- context [accepts_coarse cvar self ?m] =>
      destruct (accepts_coarse cvar self m); [| apply (Hend None)]
  end.
  destruct (SQ_RESULTS self) as [sq |]; [| reflexivity].
  kd_step_through.
  assert (Hclear :
    filter (fun o => negb (beast_obj_eqb sq o))
      (filter (fun o => negb (beast_obj_eqb (Results c_db) o))
         [Results c_db; sq]) = []).
  { cbn [filter]. rewrite beast_obj_eqb_refl. cbn [negb].
    destruct (beast_obj_eqb (Results c_db) sq); cbn [negb filter];
      rewrite ?beast_obj_eqb_refl; reflexivity. }
  rewrite Hclear.
  match goal with
  | |- context [accepts_refined self ?m] =>
      destruct (accepts_refined self m);
      [apply (Hend (Some m)) | apply (Hend None)]
  end.
Qed.

(** X8: [solve] leaves no search behind.  Whatever the frame and the
    replies of the libraries, when [solve] ends (with a result or with an
    exception) every [kdsearch] it has made, on [SQ_RESULTS] and on
    [C_DB.results], has been followed by [clear_kdresults] on the same
    object; and [solve] never waits for the lock. *)
Theorem solve_clears_every_search :
  forall cvar (env : oracle) t self img w,
    exists new,
      trace (snd (run env t (solve cvar self img) w)) = new ++ trace w
      /\ open_searches (rev new) = []
      /\ fst (run env t (solve cvar self img) w) <> Blocked.
Proof.
  intros cvar env t self img w.
  destruct (guarded_local_run kd_next env t (solve cvar self img) [] _ _ w
              (quiet_is_local _ (quiet_solve cvar self img))
              (solve_is_guarded cvar self img))
    as [new [m' [Htr [Hre Hout]]]].
  exists new. split; [exact Htr |].
  rewrite replay_kd in Hre. inversion Hre as [Hm]. unfold open_searches.
  destruct (fst (run env t (solve cvar self img) w)) as [a | e |];
    try contradiction; (split; [congruence | discriminate]).
Qed.

(** The searches of a solve over a known sky: one on each query object,
    each cleared. *)
Example searches_of_a_solve :
  let w' := snd (run Scenario.clear_sky Worker
                   (solve Scenario.cvar Scenario.playback
                      (Some Scenario.frame)) world_init) in
  map (fun e => kd_step [] e)
    (filter (fun e => match e with
                      | Ev _ c _ => negb (no_search c)
                      end) (history w'))
  = [[BeastObj 1]; [Results (BeastObj 2)]; []; []].
Proof. vm_compute. reflexivity. Qed.

(** ** The reads of the properties *)

(** With the lock free, [coor] returns the four fields as they are, and
    gives the lock back. *)
Lemma coor_run :
  forall (env : oracle) t w,
    st_lock w = None ->
    run env t coor w
    = (Done (VTuple [dec (server w); ra (server w); ori (server w);
                     t_solve (server w)]),
       after_read t [self_dec; self_ra; self_ori; self_t_solve] w).
Proof.
  intros env t w Hfree. unfold coor. cbn [bind perform].
  rewrite run_acquire by exact Hfree.
  rewrite !run_get_attr. rewrite (@run_release env t _ _ _ t) by reflexivity.
  rewrite run_ret. reflexivity.
Qed.

Lemma filepath_run :
  forall (env : oracle) t w,
    st_lock w = None ->
    run env t filepath w
    = (Done (p_solve (server w)), after_read t [self_p_solve] w).
Proof.
  intros env t w Hfree. unfold filepath. cbn [bind perform].
  rewrite run_acquire by exact Hfree.
  rewrite !run_get_attr. rewrite (@run_release env t _ _ _ t) by reflexivity.
  rewrite run_ret. reflexivity.
Qed.

(** X4: a read after a pass returns what the pass solved.  When a pass of
    the worker returns, the engine has confirmed a match in both stages;
    [coor], read next by any thread, returns the declination, the right
    ascension and the orientation of the refined match, with the time stamp
    of the pass, [filepath] returns the source identifier that the last
    [PropertiesChanged] announced, and both give the lock back. *)
Theorem a_read_after_a_pass_returns_what_the_pass_solved :
  forall cvar st (env : oracle) t reader w w',
    started st ->
    st_lock w = None ->
    run env t (star_tracker_pass cvar st) w = (Done tt, w') ->
    exists lis near now path,
      matches_so_far (trace w') = matches_so_far (trace w) ++ [lis; near]
      /\ accepts_coarse cvar st lis = true
      /\ accepts_refined st near = true
      /\ t_solve (server w') = VFloat now
      /\ fst (run env reader coor w')
         = Done (VTuple [VFloat (winner_get_dec near);
                         VFloat (winner_get_ra near);
                         VFloat (winner_get_ori near); VFloat now])
      /\ fst (run env reader filepath w') = Done path
      /\ hd_error (announcements (trace w'))
         = Some (Ev t (Ext (PropertiesChanged interface_name
                              [("filepath"%string, path)] [])) tt)
      /\ st_lock (snd (run env reader coor w')) = None
      /\ st_lock (snd (run env reader filepath w')) = None.
Proof.
  intros cvar st env t reader w w' Hst Hfree Hrun.
  destruct (@pass_published cvar st env t w w' Hst Hfree Hrun)
    as [path [d [r [o [now [inside [ms H]]]]]]].
  destruct H as [Hsrv [Hz [Hlock [Htr [Hin [Hms Hsolved]]]]]].
  assert (Hmatches :
    matches_so_far (trace w') = matches_so_far (trace w) ++ ms).
  { rewrite Htr. cbn [matches_so_far match_reply].
    rewrite matches_so_far_app. cbn [matches_so_far match_reply].
    rewrite Hms, !app_nil_r. reflexivity. }
  assert (Hnear :
    exists lis near,
      ms = [lis; near]
      /\ accepts_coarse cvar st lis = true
      /\ accepts_refined st near = true
      /\ (d, r, o)
         = (winner_get_dec near, winner_get_ra near, winner_get_ori near)).
  { destruct ms as [| lis [| near [| extra ms]]]; simpl in Hsolved;
      try contradiction.
    - destruct Hsolved as [_ Ha]. inversion Ha; subst.
      vm_compute in Hz. discriminate Hz.
    - destruct Hsolved as [Hc Ha].
      destruct (accepts_refined st near) eqn:Hr.
      + exists lis, near. auto.
      + inversion Ha; subst. vm_compute in Hz. discriminate Hz. }
  destruct Hnear as [lis [near [Hms' [Hc [Hr Ha]]]]]. inversion Ha; subst.
  exists lis, near, now, path.
  rewrite (@coor_run env reader w' Hlock),
          (@filepath_run env reader w' Hlock), Hsrv.
  split; [rewrite Hmatches, Hms'; reflexivity |].
  split; [exact Hc |]. split; [exact Hr |].
  split; [reflexivity |]. split; [reflexivity |]. split; [reflexivity |].
  split; [rewrite Htr; reflexivity |]. split; reflexivity.
Qed.

Lemma a_read_after_a_pass_returns_what_the_pass_solved_witness :
  let w' := snd (run Scenario.clear_sky Worker
                   (star_tracker_pass Scenario.cvar Scenario.playback)
                   world_init) in
  exists lis near now path,
    matches_so_far (trace w') = matches_so_far (trace world_init) ++ [lis; near]
    /\ accepts_coarse Scenario.cvar Scenario.playback lis = true
    /\ accepts_refined Scenario.playback near = true
    /\ t_solve (server w') = VFloat now
    /\ fst (run Scenario.clear_sky (Client 0) coor w')
       = Done (VTuple [VFloat (winner_get_dec near);
                       VFloat (winner_get_ra near);
                       VFloat (winner_get_ori near); VFloat now])
    /\ fst (run Scenario.clear_sky (Client 0) filepath w') = Done path
    /\ hd_error (announcements (trace w'))
       = Some (Ev Worker (Ext (PropertiesChanged interface_name
                                 [("filepath"%string, path)] [])) tt)
    /\ st_lock (snd (run Scenario.clear_sky (Client 0) coor w')) = None
    /\ st_lock (snd (run Scenario.clear_sky (Client 0) filepath w')) = None.
Proof.
  intros w'.
  apply (@a_read_after_a_pass_returns_what_the_pass_solved
           Scenario.cvar Scenario.playback Scenario.clear_sky Worker
           (Client 0) world_init w').
  - split; discriminate.
  - reflexivity.
  - vm_compute. reflexivity.
Defined.

(** The same read, computed: the angles of the match and the clock of the
    time stamp, and the path of the frame. *)
Example a_read_of_the_first_solution :
  let w' := snd (run Scenario.clear_sky Worker
                   (star_tracker_pass Scenario.cvar Scenario.playback)
                   world_init) in
  fst (run Scenario.clear_sky (Client 0) coor w')
  = Done (VTuple [VFloat 0.25; VFloat 1.5; VFloat 0.125; VFloat 34])
  /\ fst (run Scenario.clear_sky (Client 0) filepath w')
     = Done (VStr "/samples/a.png").
Proof. vm_compute. split; reflexivity. Qed.

(** ** Who holds the lock *)

Lemma handle_blocks :
  forall env t X (c : eff X) w,
    handle env t c w = Blocks -> at_acquire (Vis c (fun x => Ret x)) = true.
Proof.
  intros env t X c w H. unfold handle in H.
  destruct c; simpl in H; try discriminate; try reflexivity.
  destruct (st_lock w); discriminate.
Qed.

(** A thread that holds the lock has not returned and does not wait. *)
Lemma holder_is_not_stuck :
  forall env t E (A : Type) (p : prog A) w,
    dies_holding E (holds t w) p ->
    st_lock w = Some t ->
    ~ returned p /\ ~ waiting env t p w.
Proof.
  intros env t E A p w Hd Hl. apply holds_true in Hl.
  unfold dies_holding in Hd. rewrite Hl in Hd.
  destruct p as [a | e | X c k]; simpl in *.
  - split; [intros _; discriminate Hd | tauto].
  - tauto.
  - split; [tauto |]. intros Hb. apply handle_blocks in Hb.
    destruct c; simpl in Hb; try discriminate.
    exact (Hd tt).
Qed.

(** X14: a held lock is on its way back, or its holder is dead.  Whatever
    the frames, the requests and the schedule: a thread that holds [st_lock]
    has not returned (no method returns with the lock) and its next step is
    not a wait for the lock (no thread takes the lock twice): the only way
    the lock stays held for ever is an exception of its holder. *)
Theorem a_held_lock_is_given_back_unless_its_holder_raised :
  forall cvar st fuel env requests schedule,
    Forall is_request requests ->
    let s := exec env schedule (boot cvar st fuel requests) in
    (st_lock (shared s) = Some Worker ->
     ~ returned (worker_thread s)
     /\ ~ waiting env Worker (worker_thread s) (shared s))
    /\ forall i cl,
        nth_error (clients s) i = Some cl ->
        st_lock (shared s) = Some (Client i) ->
        ~ returned (request cl)
        /\ ~ waiting env (Client i) (request cl) (shared s).
Proof.
  intros cvar st fuel env requests schedule Hreq s.
  assert (Hd : disciplined s)
    by (apply exec_keeps_disciplined, boot_disciplined, Hreq).
  destruct Hd as [Hw Hc]. split.
  - intros Hl. exact (@holder_is_not_stuck env Worker _ _ _ _ Hw Hl).
  - intros i cl Hi Hl.
    exact (@holder_is_not_stuck env (Client i) _ _ _ _ (Hc i cl Hi) Hl).
Qed.

Lemma a_held_lock_is_given_back_unless_its_holder_raised_witness :
  let s := exec Scenario.clear_sky (repeat Worker 72 ++ repeat (Client 0) 3)
             (boot Scenario.cvar Scenario.playback 5 [coor; filepath]) in
  Forall is_request [coor; filepath]
  /\ st_lock (shared s) = Some (Client 0)
  /\ (st_lock (shared s) = Some Worker ->
      ~ returned (worker_thread s)
      /\ ~ waiting Scenario.clear_sky Worker (worker_thread s) (shared s))
  /\ forall i cl,
      nth_error (clients s) i = Some cl ->
      st_lock (shared s) = Some (Client i) ->
      ~ returned (request cl)
      /\ ~ waiting Scenario.clear_sky (Client i) (request cl) (shared s).
Proof.
  intros s.
  assert (Hreq : Forall is_request [coor; filepath]).
  { constructor; [left; reflexivity |].
    constructor; [right; left; reflexivity | constructor]. }
  split; [exact Hreq |]. split; [vm_compute; reflexivity |].
  exact (@a_held_lock_is_given_back_unless_its_holder_raised
           Scenario.cvar Scenario.playback 5 Scenario.clear_sky
           [coor; filepath] (repeat Worker 72 ++ repeat (Client 0) 3) Hreq).
Defined.

(** * The reads fit the interface *)

Section MonitorReturns.

Variable S : Type.
Variable next : S -> forall X : Type, eff X -> X -> option S.
Variable ignored : forall X : Type, eff X -> bool.
Hypothesis next_ignored :
  forall m X (c : eff X) x, ignored c = true -> next m c x = Some m.

(** A program that the monitor does not look at, whose results are known. *)
Lemma guarded_ignored_returns :
  forall (A : Type) (p : prog A) m (P : A -> Prop) (Q : S -> A -> Prop)
         (R : S -> exn -> Prop),
    emits ignored p -> returns P p ->
    (forall a, P a -> Q m a) -> (forall e, R m e) ->
    guarded next m p Q R.
Proof.
  induction p as [a | e | X c k' IH]; simpl; intros m P Q R Hp Hr HQ HR;
    auto.
  destruct Hp as [Hc Hk]. intros x. rewrite (next_ignored m x Hc).
  eapply IH; eauto.
Qed.

End MonitorReturns.

Lemma typed_next_quiet :
  forall m X (c : eff X) x, quiet c = true -> typed_next m c x = Some m.
Proof. intros m X c x; destruct c; simpl; auto; discriminate. Qed.

(** [capture] returns a path, or neither path nor frame. *)
Lemma capture_returns_path_or_nothing :
  forall self, returns path_or_nothing (capture self).
Proof.
  intros self. unfold capture.
  apply returns_bind; intros _.
  destruct (SAMPLE_DIR self) as [dir |].
  - do 4 (apply returns_bind; intros). left. eexists. reflexivity.
  - apply returns_bind; intros _. right. split; reflexivity.
Qed.

(** Without a frame [preprocess] does not return. *)
Lemma preprocess_of_nothing_never_returns :
  forall self, returns (fun _ => False) (preprocess self None).
Proof.
  intros self. unfold preprocess. apply returns_bind; intros _. exact I.
Qed.

Ltac typed_after_quiet lemma :=
  apply (guarded_after_ignored typed_next quiet typed_next_quiet);
  [ apply lemma | intros; exact I | intros ].

Ltac typed_step :=
  cbn [bind perform call guarded typed_next well_typed is_float is_str andb];
  intros.

(** A pass stores, under the lock, what fits the interface, or does not
    give the lock back. *)
Lemma pass_is_typed :
  forall cvar st,
    guarded typed_next TOutside (star_tracker_pass cvar st)
      (fun m _ => m = TOutside) (fun _ _ => True).
Proof.
  intros cvar st. unfold star_tracker_pass. typed_step.
  apply guarded_bind.
  apply (@guarded_ignored_returns _ typed_next quiet typed_next_quiet
           _ (capture st) (TInside true) path_or_nothing);
    [ apply quiet_capture | apply capture_returns_path_or_nothing
    | | intros; exact I ].
  intros [path img] Hpath. typed_step.
  destruct Hpath as [[p Hp] | [Hp Hi]]; simpl in Hp; subst path.
  - (* a path *)
    typed_step.
    typed_after_quiet quiet_preprocess.
    destruct (negb (a =? "good")).
    + unfold reject_frame. typed_after_quiet quiet_error.
      rewrite load_global_p_solve. exact I.
    + typed_after_quiet quiet_solve.
      destruct a0 as [[[d r] o] l].
      unfold store_solution, all_zero_test. typed_step.
      repeat match goal with
             | |- context [if py_eq ?u ?v then _ else _] =>
                 destruct (py_eq u v); typed_step
             end.
      all: try (typed_after_quiet quiet_error;
                rewrite load_global_p_solve; exact I).
      all: typed_step; reflexivity.
  - (* no path and no frame *)
    simpl in Hi. subst img. typed_step.
    apply guarded_bind.
    apply (@guarded_ignored_returns _ typed_next quiet typed_next_quiet
             _ (preprocess st None) (TInside false) (fun _ => False));
      [ apply quiet_preprocess | apply preprocess_of_nothing_never_returns
      | intros a [] | intros; exact I ].
Qed.

Lemma star_tracker_is_typed :
  forall cvar st fuel,
    guarded typed_next TOutside (star_tracker cvar st fuel)
      (fun _ _ => True) (fun _ _ => True).
Proof.
  intros cvar st fuel. unfold star_tracker.
  typed_after_quiet quiet_debug_inside.
  apply guarded_bind.
  apply (@guarded_weaken _ typed_next _ _ _ (fun m _ => m = TOutside)
           _ (fun _ _ => True)); auto.
  - intros m r Hm. subst m. destruct r; [| exact I].
    typed_after_quiet quiet_debug_end. exact I.
  - induction fuel as [| fuel IH]; [reflexivity |].
    change (guarded typed_next TOutside
              (running <- perform (GetAttr self_st_running) ;;
               if py_truthy running
               then star_tracker_pass cvar st ;; while_st_running cvar st fuel
               else Ret Stopped)%prog
              (fun m _ => m = TOutside) (fun _ _ => True)).
    typed_step. destruct (py_truthy x); [| reflexivity].
    apply guarded_bind.
    eapply guarded_weaken; [| | apply pass_is_typed]; auto.
    intros m u Hm. cbv beta in Hm. subst m. exact IH.
Qed.

Lemma coor_yields_four_floats : yields fits_dddd coor.
Proof.
  unfold coor. simpl. intros _ _ d Hd r Hr o Ho t Ht _ _.
  rewrite Hd, Hr, Ho, Ht. reflexivity.
Qed.

Lemma filepath_yields_a_string : yields is_str filepath.
Proof. unfold filepath. simpl. intros _ _ p Hp _ _. exact Hp. Qed.

Lemma record_typed_init : record_typed StarTrackerServer_init.
Proof. intros a; destruct a; reflexivity. Qed.

Lemma boot_typed :
  forall cvar st fuel requests,
    typed_system requests (boot cvar st fuel requests).
Proof.
  intros cvar st fuel requests. split.
  - exists TOutside. split; [apply star_tracker_is_typed |].
    split; [reflexivity | apply record_typed_init].
  - intros i cl Hi. simpl in Hi. rewrite nth_error_map in Hi.
    destruct (nth_error requests i) as [p |] eqn:Ep; [| discriminate].
    inversion Hi; subst cl; clear Hi. simpl.
    split; intros H; inversion H; subst p.
    + apply coor_yields_four_floats.
    + apply filepath_yields_a_string.
Qed.

Lemma record_typed_store :
  forall s a v,
    record_typed s -> well_typed a v = true -> record_typed (set_attr s a v).
Proof.
  intros s a v Hs Hv b. destruct (attr_eqb a b) eqn:E.
  - apply attr_eqb_eq in E. subst b. rewrite get_set_same. exact Hv.
  - rewrite get_set_other; [apply Hs |].
    intros Hb. subst b.
    assert (attr_eqb a a = true) by (apply attr_eqb_eq; reflexivity).
    congruence.
Qed.

(** A step of the worker keeps the monitor and the world together. *)
Lemma typed_at_step :
  forall env X (c : eff X) w x w' m m',
    handle env Worker c w = Ok x w' ->
    typed_next m c x = Some m' ->
    typed_at m w -> typed_at m' w'.
Proof.
  intros env X c w x w' m m' Hh Hn Hat.
  pose proof (handle_lock _ _ _ _ Hh) as Hl.
  pose proof (handle_server _ _ _ _ Hh) as Hs.
  destruct c; simpl in Hn, Hl, Hs.
  - destruct m; try discriminate. inversion Hn; subst m'.
    destruct Hl as [_ Hl]. destruct Hat as [_ Hr]. simpl.
    split; [apply holds_true; exact Hl | intros _; rewrite Hs; exact Hr].
  - destruct m as [| [|]]; try discriminate. inversion Hn; subst m'.
    destruct Hl as [_ Hl]. destruct Hat as [_ Hr]. simpl.
    split; [unfold holds; rewrite Hl; reflexivity |].
    rewrite Hs. apply Hr. reflexivity.
  - inversion Hn; subst m'. destruct m; simpl in *; unfold holds in *;
      rewrite Hl, Hs; exact Hat.
  - destruct m as [| ok]; try discriminate. inversion Hn; subst m'.
    destruct Hat as [Hh' Hr]. simpl. unfold holds in *. rewrite Hl.
    split; [exact Hh' |]. intros Hok. apply andb_true_iff in Hok.
    destruct Hok as [Hok Hv]. rewrite Hs.
    apply record_typed_store; [apply Hr, Hok | exact Hv].
  - inversion Hn; subst m'. destruct m; simpl in *; unfold holds in *;
      rewrite Hl, Hs; exact Hat.
  - inversion Hn; subst m'. destruct m; simpl in *; unfold holds in *;
      rewrite Hl, Hs; exact Hat.
  - inversion Hn; subst m'. destruct m; simpl in *; unfold holds in *;
      rewrite Hl, Hs; exact Hat.
Qed.

Lemma step_keeps_typed :
  forall env t requests s,
    disciplined s -> invariant s ->
    typed_system requests s -> typed_system requests (step env t s).
Proof.
  intros env t requests s Hd Hinv Hty.
  pose proof Hty as [[m [Hg Hat]] Hcl].
  destruct t as [| i]; unfold step.
  - (* the worker moves *)
    destruct (worker_thread s) as [a | e | X c k] eqn:Ew; try exact Hty.
    destruct (handle env Worker c (shared s)) as [x w' | | e] eqn:Eh;
      [| exact Hty |].
    + simpl in Hg. specialize (Hg x).
      destruct (typed_next m c x) as [m' |] eqn:En; [| contradiction].
      split; [| exact Hcl].
      exists m'. split; [exact Hg |]. simpl.
      exact (typed_at_step _ _ _ _ Eh En Hat).
    + split; [| exact Hcl]. exists m. split; [exact I | exact Hat].
  - (* a client moves *)
    destruct (nth_error (clients s) i) as [cl |] eqn:Ei; [| exact Hty].
    destruct (request cl) as [a | e | X c k] eqn:Er; try exact Hty.
    assert (Hclients :
      forall cl',
        ((nth_error requests i = Some coor -> yields fits_dddd (request cl'))
         /\ (nth_error requests i = Some filepath ->
             yields is_str (request cl'))) ->
        forall j clj,
          nth_error (update_client i cl' (clients s)) j = Some clj ->
          (nth_error requests j = Some coor -> yields fits_dddd (request clj))
          /\ (nth_error requests j = Some filepath ->
              yields is_str (request clj))).
    { intros cl' Hcl' j clj Hj. destruct (Nat.eq_dec i j) as [Hij | Hij].
      - subst j. rewrite (nth_error_update_same _ _ _ Ei) in Hj.
        inversion Hj; subst clj. exact Hcl'.
      - rewrite (nth_error_update_other _ _ Hij) in Hj. apply (Hcl j), Hj. }
    destruct (handle env (Client i) c (shared s)) as [x w' | | e] eqn:Eh.
    + (* the effect is performed *)
      destruct Hd as [Hdw Hdc]. pose proof (Hdc i cl Ei) as Hdi.
      unfold dies_holding in Hdi. rewrite Er in Hdi. simpl in Hdi.
      specialize (Hdi x).
      destruct (lock_next (holds (Client i) (shared s)) c x)
        as [held' |] eqn:En; [| contradiction].
      destruct (lock_next_step _ _ _ _ Eh En) as [_ Hothers].
      assert (Hworker : holds Worker w' = holds Worker (shared s))
        by (apply Hothers; discriminate).
      destruct Hinv as [_ Hic]. destruct (Hic i cl Ei) as [mc [Hoc Hac]].
      unfold obeys in Hoc. rewrite Er in Hoc. simpl in Hoc.
      destruct (client_next mc c) as [mc' |] eqn:Ec; [| contradiction].
      pose proof (handle_server _ _ _ _ Eh) as Hs.
      (* the record stays typed, and what the client reads is typed *)
      assert (Hrec : record_typed (server (shared s)) ->
                     record_typed (server w')).
      { intros Hr. destruct c; simpl in Hs, Ec; rewrite Hs; try exact Hr.
        destruct a; try discriminate.
        apply record_typed_store; [exact Hr | reflexivity]. }
      assert (Hreply : reply_typed c x = true).
      { destruct c; try reflexivity. simpl.
        apply handle_read in Eh. subst x. simpl in Ec.
        destruct mc; try discriminate. simpl in Hac. destruct Hac as [Hl _].
        destruct m as [| ok]; simpl in Hat.
        - apply (proj2 Hat).
        - destruct Hat as [Hh _]. apply holds_true in Hh. congruence. }
      split.
      * exists m. split; [exact Hg |]. simpl.
        destruct m as [| ok]; simpl in *; rewrite Hworker;
          (split; [exact (proj1 Hat) |]).
        -- apply Hrec, (proj2 Hat).
        -- intros Hok. apply Hrec, (proj2 Hat), Hok.
      * simpl. apply Hclients. simpl.
        destruct (Hcl i cl Ei) as [Hcoor Hfile]. rewrite Er in Hcoor, Hfile.
        simpl in Hcoor, Hfile. split; intros H.
        -- apply (Hcoor H x Hreply).
        -- apply (Hfile H x Hreply).
    + exact Hty.
    + split; [exists m; split; [exact Hg | exact Hat] |].
      simpl. apply Hclients. simpl. split; intros _; exact I.
Qed.

Lemma exec_keeps_typed :
  forall env requests schedule s,
    disciplined s -> invariant s ->
    typed_system requests s -> typed_system requests (exec env schedule s).
Proof.
  intros env requests schedule.
  induction schedule as [| t schedule IH]; intros s Hd Hinv Hty; simpl; auto.
  apply IH.
  - apply step_keeps_disciplined, Hd.
  - apply step_keeps_invariant, Hinv.
  - apply step_keeps_typed; assumption.
Qed.



(** * A failed pass does not back off *)

Lemma backoff_next_quiet :
  forall m X (c : eff X) x, quiet c = true -> backoff_next m c x = Some m.
Proof.
  intros m X c x; destruct c; simpl; auto; try discriminate.
  destruct c; simpl; auto; discriminate.
Qed.

(** The monitor follows the run of a thread that starts with the lock free
    or its own. *)
Lemma backoff_run :
  forall env t (A : Type) (p : prog A) (held slept : bool) Q R w,
    guarded backoff_next (held, slept) p Q R ->
    st_lock w = (if held then Some t else None) ->
    exists new (held' : bool),
      trace (snd (run env t p w)) = new ++ trace w
      /\ st_lock (snd (run env t p w)) = (if held' then Some t else None)
      /\ match fst (run env t p w) with
         | Done a => Q (held', slept || existsb is_sleep new) a
         | Raised e => R (held', slept || existsb is_sleep new) e
         | Blocked => False
         end.
Proof.
  induction p as [a | e | X c k IH]; intros held slept Q R w Hg Hl.
  - exists [], held. simpl. rewrite orb_false_r. auto.
  - exists [], held. simpl. rewrite orb_false_r. auto.
  - simpl in Hg.
    assert (Hstep :
      forall x w1 m1,
        handle env t c w = Ok x w1 ->
        backoff_next (held, slept) c x = Some m1 ->
        trace w1 = Ev t c x :: trace w
        /\ st_lock w1 = (if fst m1 then Some t else None)
        /\ snd m1 = slept || is_sleep (Ev t c x)).
    { intros x w1 m1 Hh Hn. unfold handle in Hh.
      destruct c; simpl in Hh, Hn.
      - rewrite Hl in Hh. destruct held; [discriminate |].
        inversion Hh; subst. inversion Hn; subst. simpl.
        rewrite orb_false_r. auto.
      - rewrite Hl in Hh. destruct held; [| discriminate].
        inversion Hh; subst. inversion Hn; subst. simpl.
        rewrite orb_false_r. auto.
      - inversion Hh; subst. inversion Hn; subst. simpl.
        rewrite orb_false_r. auto.
      - inversion Hh; subst. inversion Hn; subst. simpl.
        rewrite orb_false_r. auto.
      - inversion Hh; subst. inversion Hn; subst. simpl.
        rewrite orb_false_r. auto.
      - inversion Hh; subst. inversion Hn; subst. simpl.
        rewrite orb_false_r. auto.
      - inversion Hh; subst. simpl.
        destruct c; simpl in Hn;
          try (inversion Hn; subst; simpl; rewrite orb_false_r; auto).
        destruct held; [discriminate |]. inversion Hn; subst. simpl.
        rewrite orb_true_r. auto. }
    simpl. destruct (handle env t c w) as [x w1 | | e] eqn:Eh.
    + specialize (Hg x).
      destruct (backoff_next (held, slept) c x) as [[held1 slept1] |] eqn:En;
        [| contradiction].
      destruct (Hstep x w1 _ eq_refl En) as [Htr [Hl1 Hs1]].
      simpl in Hl1, Hs1.
      destruct (IH x held1 slept1 Q R w1 Hg Hl1)
        as [new [held' [Htr' [Hl' Hout]]]].
      exists (new ++ [Ev t c x]), held'.
      split; [rewrite Htr', Htr, <- app_assoc; reflexivity |].
      split; [exact Hl' |].
      rewrite Hs1 in Hout. rewrite existsb_app. cbn [existsb].
      set (b := is_sleep (Ev t c x)) in *.
      set (n := existsb is_sleep new) in *.
      replace (slept || (n || (b || false))) with (slept || b || n)
        by (destruct slept, b, n; reflexivity).
      exact Hout.
    + (* the thread would wait: it is at an acquire, with the lock *)
      exfalso. unfold handle in Eh.
      destruct c; simpl in Eh; try discriminate.
      * specialize (Hg tt). simpl in Hg. rewrite Hl in Eh.
        destruct held; [exact Hg | discriminate].
      * destruct (st_lock w); discriminate.
    + (* a release of a free lock *)
      exfalso. unfold handle in Eh.
      destruct c; simpl in Eh; try discriminate.
      * destruct (st_lock w); discriminate.
      * specialize (Hg tt). simpl in Hg. rewrite Hl in Eh.
        destruct held; [discriminate | exact Hg].
Qed.

Ltac backoff_after_quiet lemma :=
  apply (guarded_after_ignored backoff_next quiet backoff_next_quiet);
  [ apply lemma | intros; reflexivity | intros ].

Ltac backoff_step :=
  cbn [bind perform call guarded backoff_next fst snd]; intros.

(** A pass that returns has slept, after the release; a pass that raises
    holds the lock and has not slept. *)
Lemma pass_backs_off_only_after_it_published :
  forall cvar st,
    guarded backoff_next (false, false) (star_tracker_pass cvar st)
      (fun m _ => m = (false, true)) (fun m _ => m = (true, false)).
Proof.
  intros cvar st. unfold star_tracker_pass. backoff_step.
  backoff_after_quiet quiet_capture.
  destruct a as [path img]. backoff_step.
  backoff_after_quiet quiet_preprocess.
  destruct (negb (a =? "good")).
  - unfold reject_frame. backoff_after_quiet quiet_error.
    rewrite load_global_p_solve. reflexivity.
  - backoff_after_quiet quiet_solve.
    destruct a0 as [[[d r] o] l].
    unfold store_solution, all_zero_test. backoff_step.
    repeat match goal with
           | |- context [if py_eq ?u ?v then _ else _] =>
               destruct (py_eq u v); backoff_step
           end.
    all: try (backoff_after_quiet quiet_error;
              rewrite load_global_p_solve; reflexivity).
    all: backoff_step; reflexivity.
Qed.

(** X16: a failed pass holds the lock and does not back off.  Whatever the
    frame and the replies of the libraries, a pass that starts with the lock
    free never waits, and ends in one of two ways: it returns, with the lock
    free again and after a sleep; or it raises, and then the thread still
    holds the lock and has not slept: none of the failure branches reaches
    its [time.sleep(0.5)] or its [continue]. *)
Theorem a_failed_pass_holds_the_lock_and_does_not_back_off :
  forall cvar st (env : oracle) t w,
    st_lock w = None ->
    let result := run env t (star_tracker_pass cvar st) w in
    exists new,
      trace (snd result) = new ++ trace w
      /\ match fst result with
         | Done _ =>
             st_lock (snd result) = None /\ existsb is_sleep new = true
         | Raised _ =>
             st_lock (snd result) = Some t /\ existsb is_sleep new = false
         | Blocked => False
         end.
Proof.
  intros cvar st env t w Hfree result.
  destruct (@backoff_run env t _ (star_tracker_pass cvar st) false false
              _ _ w (pass_backs_off_only_after_it_published cvar st) Hfree)
    as [new [held' [Htr [Hl Hout]]]].
  fold result in Htr, Hl, Hout. exists new. split; [exact Htr |].
  destruct (fst result) as [a | e |]; [| | exact Hout];
    simpl in Hout; inversion Hout as [[Hh Hs]]; subst held';
    rewrite Hl; split; reflexivity.
Qed.

Lemma a_failed_pass_holds_the_lock_and_does_not_back_off_witness :
  let result :=
    run Scenario.unknown_sky Worker
      (star_tracker_pass Scenario.cvar Scenario.playback) world_init in
  fst result = Raised (NameError "p_solve")
  /\ exists new,
      trace (snd result) = new ++ trace world_init
      /\ match fst result with
         | Done _ =>
             st_lock (snd result) = None /\ existsb is_sleep new = true
         | Raised _ =>
             st_lock (snd result) = Some Worker
             /\ existsb is_sleep new = false
         | Blocked => False
         end.
Proof.
  intros result. split; [vm_compute; reflexivity |].
  exact (@a_failed_pass_holds_the_lock_and_does_not_back_off
           Scenario.cvar Scenario.playback Scenario.unknown_sky Worker
           world_init eq_refl).
Defined.

(** * Every read returns the record of one solve *)

(** ** The trace and the record *)

Lemma handle_trace :
  forall env t X (c : eff X) w x w',
    handle env t c w = Ok x w' -> trace w' = Ev t c x :: trace w.
Proof.
  intros env t X c w x w' H. unfold handle in H.
  destruct (guard c w) as [[e |] |]; try discriminate.
  destruct (effect_of env t c w) as [x0 w0] eqn:E.
  inversion H; subst. simpl. f_equal.
  destruct c; simpl in E; inversion E; reflexivity.
Qed.

Lemma stores_begins :
  forall t X (c : eff X) n tags,
    stores c (begins_pass t c n) tags = stores c n tags.
Proof. intros t X c n tags. destruct c; destruct t; reflexivity. Qed.

Lemma stores_ext :
  forall X (c : eff X) n tags tags',
    (forall a, tags a = tags' a) ->
    forall a, stores c n tags a = stores c n tags' a.
Proof.
  intros X c n tags tags' H a. destruct c; simpl; auto.
  destruct (attr_eqb a0 a); auto.
Qed.

Lemma client_begins_no_pass :
  forall i X (c : eff X) n, begins_pass (Client i) c n = n.
Proof. intros i X c n. destruct c; reflexivity. Qed.

(** An effect that is performed is added to the chronicle. *)
Lemma chronicle_step :
  forall env t X (c : eff X) w x w' n tags,
    handle env t c w = Ok x w' ->
    server w = record_of (trace w) ->
    n = passes_of (trace w) ->
    (forall a, tags a = stored_by (trace w) a) ->
    server w' = record_of (trace w')
    /\ begins_pass t c n = passes_of (trace w')
    /\ forall a, stores c n tags a = stored_by (trace w') a.
Proof.
  intros env t X c w x w' n tags Hh Hs Hp Ht.
  rewrite (handle_trace _ _ _ _ Hh), (handle_server _ _ _ _ Hh).
  cbn [record_of passes_of stored_by]. rewrite <- Hp, <- Hs.
  split; [destruct c; reflexivity |]. split; [reflexivity |].
  intros a. apply stores_ext. exact Ht.
Qed.

Lemma boot_chronicled :
  forall cvar st fuel requests, chronicled (boot cvar st fuel requests).
Proof. intros. repeat split. Qed.

Lemma step_keeps_chronicled :
  forall env t s, chronicled s -> chronicled (step env t s).
Proof.
  intros env t s Hch. pose proof Hch as [Hs [Hp Ht]].
  destruct t as [| i]; unfold step.
  - destruct (worker_thread s) as [a | e | X c k]; try exact Hch.
    destruct (handle env Worker c (shared s)) as [x w' | | e] eqn:Eh;
      try exact Hch.
    destruct (@chronicle_step _ _ _ _ _ _ _ _ _ Eh Hs Hp Ht)
      as [Hs' [Hp' Ht']].
    split; [exact Hs' |]. split; [exact Hp' |].
    intros a. cbn [stored_in shared]. rewrite stores_begins. apply Ht'.
  - destruct (nth_error (clients s) i) as [cl |]; [| exact Hch].
    destruct (request cl) as [a | e | X c k]; try exact Hch.
    destruct (handle env (Client i) c (shared s)) as [x w' | | e] eqn:Eh;
      try exact Hch.
    destruct (@chronicle_step _ _ _ _ _ _ _ _ _ Eh Hs Hp Ht)
      as [Hs' [Hp' Ht']].
    split; [exact Hs' |]. split; [| exact Ht'].
    cbn [passes shared]. rewrite <- Hp'. symmetry.
    apply client_begins_no_pass.
Qed.

Lemma exec_keeps_chronicled :
  forall env schedule s, chronicled s -> chronicled (exec env schedule s).
Proof.
  intros env schedule.
  induction schedule as [| t schedule IH]; intros s H; simpl; auto.
  apply IH, step_keeps_chronicled, H.
Qed.

(** While the worker does not hold the lock, the record is of one solve. *)
Lemma free_lock_is_of_one_solve :
  forall s,
    invariant s -> chronicled s ->
    st_lock (shared s) <> Some Worker ->
    of_one_solve (trace (shared s)).
Proof.
  intros s [[m [_ Hat]] _] [_ [_ Ht]] Hl.
  destruct m; simpl in Hat; [| destruct Hat; contradiction].
  destruct Hat as [_ Hco]. intros a b Ha Hb.
  rewrite <- !Ht. apply Hco; assumption.
Qed.

Lemma one_solve_decides :
  forall tr, of_one_solve tr <-> one_solve tr = true.
Proof.
  intros tr. unfold of_one_solve, coherent, one_solve. cbn [forallb].
  rewrite !andb_true_iff, !Nat.eqb_eq. split.
  - intros H. repeat split; auto.
  - intros [Hr [Ho [Ht [Hp _]]]] a b Ha Hb.
    destruct a; try discriminate; destruct b; try discriminate; congruence.
Qed.

Lemma ever_moment :
  forall P later earlier,
    P earlier = true -> ever P (later ++ earlier) = true.
Proof.
  intros P later earlier H. induction later as [| e later IH]; simpl.
  - destruct earlier; simpl; rewrite H; reflexivity.
  - rewrite IH. apply orb_true_r.
Qed.

(** ** The requests keep to the monitor *)

Lemma coor_answers :
  guarded reader_next Asking coor answers_coor (fun _ _ => True).
Proof.
  unfold coor. simpl. intros _ d r o ts _.
  exists d, r, o, ts. split; reflexivity.
Qed.

Lemma filepath_answers :
  guarded reader_next Asking filepath answers_filepath (fun _ _ => True).
Proof. unfold filepath. simpl. intros _ p _. reflexivity. Qed.

Lemma last_solve_never_returns : returns (fun _ => False) last_solve.
Proof. unfold last_solve. simpl. intros _. exact I. Qed.

Lemma boot_answering :
  forall cvar st fuel requests,
    answering requests (boot cvar st fuel requests).
Proof.
  intros cvar st fuel requests i cl Hi. simpl in Hi.
  rewrite nth_error_map in Hi.
  destruct (nth_error requests i) as [p |] eqn:Ep; [| discriminate].
  inversion Hi; subst cl; clear Hi. simpl.
  split; [| split]; intros H; inversion H; subst p.
  - exists Asking. split; [apply coor_answers | exact I].
  - exists Asking. split; [apply filepath_answers | exact I].
  - apply last_solve_never_returns.
Qed.

(** ** A step keeps the reads *)

(** The trace grows, the lock stays and the record does not change. *)
Lemma reader_at_grows :
  forall m w w' i e,
    trace w' = e :: trace w ->
    st_lock w' = st_lock w ->
    same_record (server w') (server w) ->
    reader_at m w i -> reader_at m w' i.
Proof.
  intros m w w' i e Htr Hl Hrec Hat.
  assert (Hmoment : forall earlier,
            taken_at i w earlier -> taken_at i w' earlier).
  { intros earlier [later Hm]. exists (e :: later).
    rewrite Htr, Hm. reflexivity. }
  destruct m as [| seen | seen]; simpl in *.
  - exact I.
  - destruct Hat as [Hlock [earlier [Hm [H1 [Hsame Hread]]]]].
    split; [congruence |]. exists earlier.
    split; [apply Hmoment, Hm |]. split; [exact H1 |].
    split; [| exact Hread].
    intros a Ha. rewrite (Hsame a Ha). symmetry. apply Hrec, Ha.
  - destruct Hat as [earlier [Hm [H1 Hread]]]. exists earlier.
    split; [apply Hmoment, Hm |]. split; assumption.
Qed.

(** The effect of another thread. *)
Lemma reader_at_other :
  forall env t X (c : eff X) w x w' held' m i,
    handle env t c w = Ok x w' ->
    t <> Client i ->
    lock_next (holds t w) c x = Some held' ->
    reader_at m w i -> reader_at m w' i.
Proof.
  intros env t X c w x w' held' m i Hh Ht Hn Hat.
  pose proof (handle_trace _ _ _ _ Hh) as Htr.
  destruct m as [| seen | seen].
  - exact I.
  - pose proof Hat as [Hl _].
    destruct (@foreign_effect _ _ _ _ _ _ _ _ _ Hl Ht Hh Hn)
      as [Hl' [Hrec _]].
    eapply reader_at_grows; eauto. congruence.
  - simpl in *. destruct Hat as [earlier [[later Hm] [H1 Hread]]].
    exists earlier. split; [| split; assumption].
    exists (Ev t c x :: later). rewrite Htr, Hm. reflexivity.
Qed.

Lemma same_record_refl : forall a, same_record a a.
Proof. intros a x _. reflexivity. Qed.

(** The effect of the request itself. *)
Lemma reader_at_own :
  forall env i X (c : eff X) w x w' m m',
    handle env (Client i) c w = Ok x w' ->
    reader_next m c x = Some m' ->
    (st_lock w = None ->
     of_one_solve (trace w) /\ server w = record_of (trace w)) ->
    reader_at m w i -> reader_at m' w' i.
Proof.
  intros env i X c w x w' m m' Hh Hn Hfree Hat.
  pose proof (handle_trace _ _ _ _ Hh) as Htr.
  pose proof (handle_lock _ _ _ _ Hh) as Hl.
  pose proof (handle_server _ _ _ _ Hh) as Hs.
  assert (Hstay :
    st_lock w' = st_lock w -> same_record (server w') (server w) ->
    reader_at m w' i).
  { intros H1 H2. eapply reader_at_grows; eauto. }
  destruct c; simpl in Hn, Hl, Hs.
  - (* acquire *)
    destruct m; try discriminate. inversion Hn; subst m'.
    destruct Hl as [H0 H1]. destruct (Hfree H0) as [Hone Hrec].
    simpl. split; [exact H1 |]. exists (trace w).
    split; [exists []; rewrite Htr; destruct x; reflexivity |].
    split; [exact Hone |]. split.
    + intros a _. rewrite Hs, Hrec. reflexivity.
    + intros a v [].
  - (* release *)
    destruct m as [| seen | seen]; try discriminate.
    inversion Hn; subst m'. simpl in *.
    destruct Hat as [_ [earlier [[later Hm] [H1 [_ Hread]]]]].
    exists earlier. split; [| split; assumption].
    exists (Ev (Client i) LockRelease x :: later). rewrite Htr, Hm.
    reflexivity.
  - (* a read *)
    destruct m as [| seen | seen]; try discriminate.
    destruct (is_record a) eqn:Ra; try discriminate.
    inversion Hn; subst m'. apply handle_read in Hh.
    simpl in *.
    destruct Hat as [Hlock [earlier [[later Hm] [H1 [Hsame Hread]]]]].
    split; [congruence |]. exists earlier.
    split; [exists (Ev (Client i) (GetAttr a) x :: later);
            rewrite Htr, Hm; reflexivity |].
    split; [exact H1 |]. split; [rewrite Hs; exact Hsame |].
    intros b v [Hb | Hb]; [| apply Hread, Hb].
    inversion Hb; subst b v. rewrite Hh. symmetry. apply Hsame.
    intros ->. discriminate.
  - (* a store, to st_running *)
    destruct (attr_eqb a self_st_running) eqn:Ea; try discriminate.
    inversion Hn; subst m'. apply attr_eqb_eq in Ea. subst a.
    apply Hstay; [exact Hl |]. rewrite Hs.
    intros b Hb. apply get_set_other, Hb.
  - inversion Hn; subst m'. apply Hstay; [exact Hl |].
    rewrite Hs. apply same_record_refl.
  - inversion Hn; subst m'. apply Hstay; [exact Hl |].
    rewrite Hs. apply same_record_refl.
  - inversion Hn; subst m'. apply Hstay; [exact Hl |].
    rewrite Hs. apply same_record_refl.
Qed.

Lemma served_other :
  forall env t X (c : eff X) w x w' held' Q i p,
    handle env t c w = Ok x w' ->
    t <> Client i ->
    lock_next (holds t w) c x = Some held' ->
    served Q w i p -> served Q w' i p.
Proof.
  intros env t X c w x w' held' Q i p Hh Ht Hn [m [Hg Hat]].
  exists m. split; [exact Hg |].
  exact (@reader_at_other _ _ _ _ _ _ _ _ _ _ Hh Ht Hn Hat).
Qed.

Lemma served_own :
  forall env i X (c : eff X) (k : X -> prog pyval) w x w' Q,
    handle env (Client i) c w = Ok x w' ->
    (st_lock w = None ->
     of_one_solve (trace w) /\ server w = record_of (trace w)) ->
    served Q w i (Vis c k) -> served Q w' i (k x).
Proof.
  intros env i X c k w x w' Q Hh Hfree [m [Hg Hat]].
  simpl in Hg. specialize (Hg x).
  destruct (reader_next m c x) as [m' |] eqn:En; [| contradiction].
  exists m'. split; [exact Hg |].
  exact (@reader_at_own _ _ _ _ _ _ _ _ _ Hh En Hfree Hat).
Qed.

Lemma step_keeps_answering :
  forall env t requests s,
    disciplined s -> invariant s -> chronicled s ->
    answering requests s -> answering requests (step env t s).
Proof.
  intros env t requests s Hd Hinv Hch Hans.
  assert (Hfree :
    st_lock (shared s) = None ->
    of_one_solve (trace (shared s))
    /\ server (shared s) = record_of (trace (shared s))).
  { intros Hl. split; [| exact (proj1 Hch)].
    apply free_lock_is_of_one_solve; auto. rewrite Hl. discriminate. }
  destruct Hd as [Hdw Hdc]. destruct t as [| i]; unfold step.
  - (* the worker moves *)
    destruct (worker_thread s) as [a | e | X c k] eqn:Ew; try exact Hans.
    destruct (handle env Worker c (shared s)) as [x w' | | e] eqn:Eh;
      try exact Hans.
    unfold dies_holding in Hdw. simpl in Hdw. specialize (Hdw x).
    destruct (lock_next (holds Worker (shared s)) c x) as [held' |] eqn:En;
      [| contradiction].
    intros j cl Hj. simpl in Hj. destruct (Hans j cl Hj) as [Hc [Hf Hls]].
    assert (Hw : Worker <> Client j) by discriminate.
    simpl. split; [| split; [| exact Hls]]; intros H.
    + exact (@served_other _ _ _ _ _ _ _ _ _ _ _ Eh Hw En (Hc H)).
    + exact (@served_other _ _ _ _ _ _ _ _ _ _ _ Eh Hw En (Hf H)).
  - (* a client moves *)
    destruct (nth_error (clients s) i) as [cl |] eqn:Ei; [| exact Hans].
    destruct (request cl) as [a | e | X c k] eqn:Er; try exact Hans.
    destruct (Hans i cl Ei) as [Hc [Hf Hls]]. rewrite Er in Hc, Hf, Hls.
    destruct (handle env (Client i) c (shared s)) as [x w' | | e] eqn:Eh;
      try exact Hans.
    + (* the effect is performed *)
      pose proof (Hdc i cl Ei) as Hdi.
      unfold dies_holding in Hdi. rewrite Er in Hdi. simpl in Hdi.
      specialize (Hdi x).
      destruct (lock_next (holds (Client i) (shared s)) c x)
        as [held' |] eqn:En; [| contradiction].
      intros j clj Hj. simpl in Hj. simpl.
      destruct (Nat.eq_dec i j) as [Hij | Hij].
      * subst j. rewrite (nth_error_update_same _ _ _ Ei) in Hj.
        inversion Hj; subst clj; clear Hj. simpl.
        split; [| split]; intros H.
        -- exact (@served_own _ _ _ _ _ _ _ _ _ Eh Hfree (Hc H)).
        -- exact (@served_own _ _ _ _ _ _ _ _ _ Eh Hfree (Hf H)).
        -- apply (Hls H).
      * rewrite (nth_error_update_other _ _ Hij) in Hj.
        destruct (Hans j clj Hj) as [Hc' [Hf' Hls']].
        assert (Ht : Client i <> Client j) by congruence.
        split; [| split; [| exact Hls']]; intros H.
        -- exact (@served_other _ _ _ _ _ _ _ _ _ _ _ Eh Ht En (Hc' H)).
        -- exact (@served_other _ _ _ _ _ _ _ _ _ _ _ Eh Ht En (Hf' H)).
    + (* the effect raises *)
      intros j clj Hj. simpl in Hj. simpl.
      destruct (Nat.eq_dec i j) as [Hij | Hij].
      * subst j. rewrite (nth_error_update_same _ _ _ Ei) in Hj.
        inversion Hj; subst clj; clear Hj. simpl.
        split; [| split]; intros H; try exact I.
        -- destruct (Hc H) as [m [_ Hat]]. exists m.
           split; [exact I | exact Hat].
        -- destruct (Hf H) as [m [_ Hat]]. exists m.
           split; [exact I | exact Hat].
      * rewrite (nth_error_update_other _ _ Hij) in Hj.
        exact (Hans j clj Hj).
Qed.

Lemma exec_keeps_answering :
  forall env requests schedule s,
    disciplined s -> invariant s -> chronicled s ->
    answering requests s -> answering requests (exec env schedule s).
Proof.
  intros env requests schedule.
  induction schedule as [| t schedule IH]; intros s Hd Hinv Hch Hans;
    simpl; auto.
  apply IH.
  - apply step_keeps_disciplined, Hd.
  - apply step_keeps_invariant, Hinv.
  - apply step_keeps_chronicled, Hch.
  - apply step_keeps_answering; assumption.
Qed.

(** ** Every read returns fields of one solve *)



